(** * XGBoostPredictor: a shallow embedding of [src/xgboostpredictor.h]

    The header loads a gradient-boosted tree ensemble from JSON, validates
    every tree, groups the trees per output class and evaluates them on sparse
    feature vectors.  This file transcribes the data model, the validator, the
    group assembly, the base-score remapping, the margin transformations and
    the prediction loops, and then proves the properties of the natural
    language specification about them.

    Conventions.
    - [float] is IEEE-754 binary32 and [double] binary64, both carried by the
      [spec_float] type of the standard library with the matching precision.
    - [int] is a [Z], [unsigned int] and [size_t] are [N]; the conversion of an
      [int] to [unsigned int] writes its wrap-around out ([uint_of_int]).
    - A [std::vector] is a [list]; indexing past its end, which is undefined
      behaviour in C++, is the explicit outcome [OutOfBounds].
    - Loops and recursions without a syntactic bound take a [fuel] argument;
      running dry is the explicit outcome [OutOfFuel].
    - [expf] and [logf] come from the C library and are parameters. *)

From Stdlib Require Import ZArith NArith Lia Bool.
From Stdlib.Floats Require Import SpecFloat.
From stdpp Require Import base list strings.

Local Open Scope Z_scope.

(* ===================================================================== *)
(** * Machine numbers *)
(* ===================================================================== *)

Abbreviation float := spec_float (only parsing).
Abbreviation double := spec_float (only parsing).

(** [int] values. *)
Definition is_int (z : Z) : Prop := - 2 ^ 31 <= z < 2 ^ 31.

(** [static_cast<unsigned int>(z)] and the implicit [int] to [unsigned int]
    conversions: reduction modulo [2^32]. *)
Definition uint_of_int (z : Z) : N := Z.to_N (z mod 2 ^ 32).

(** [unsigned int] addition. *)
Definition uint_add (a b : N) : N := ((a + b) mod 2 ^ 32)%N.

Module F32.
Definition prec : Z := 24.
Definition emax : Z := 128.

Definition add : float -> float -> float := SFadd prec emax.
Definition sub : float -> float -> float := SFsub prec emax.
Definition div : float -> float -> float := SFdiv prec emax.
Definition opp : float -> float := SFopp.
Definition ltb : float -> float -> bool := SFltb.
Definition leb : float -> float -> bool := SFleb.
Definition geb (a b : float) : bool := SFleb b a.

(** [0.0f] and [1.0f] as written in the source; [of_int] embeds an integer
    (exactly, when it is small) and serves the sample values. *)
Definition zero : float := S754_zero false.
Definition one : float := S754_finite false (2 ^ 23) (-23).
Definition of_int (z : Z) : float := binary_normalize prec emax z 0 false.

(** [std::numeric_limits<float>::min()]: the smallest positive normalized
    value, [2^-126]. *)
Definition numeric_limits_min : float := S754_finite false (2 ^ 23) (-149).

(** [std::numeric_limits<float>::lowest()], the most negative finite value
    (not used by the source; here for comparison). *)
Definition numeric_limits_lowest : float :=
  S754_finite true (2 ^ 24 - 1) 104.

(** [std::max(a, b)] is [(a < b) ? b : a]. *)
Definition max (a b : float) : float := if ltb a b then b else a.

Definition is_nan (x : float) : bool :=
  match x with S754_nan => true | _ => false end.
End F32.

Module F64.
Definition prec : Z := 53.
Definition emax : Z := 1024.

Definition add : double -> double -> double := SFadd prec emax.
Definition div : double -> double -> double := SFdiv prec emax.
Definition zero : double := S754_zero false.

(** Promotion [float -> double] (exact) and the rounding conversion
    [double -> float] of an assignment. *)
Definition of_float (x : float) : double :=
  match x with
  | S754_finite s m e => binary_round prec emax s m e
  | _ => x
  end.
Definition to_float (x : double) : float :=
  match x with
  | S754_finite s m e => binary_round F32.prec F32.emax s m e
  | _ => x
  end.
End F64.

(* ===================================================================== *)
(** * Outcomes: return, [throw std::runtime_error], undefined indexing *)
(* ===================================================================== *)

(** One constructor per [std::runtime_error] message of the header. *)
Inductive error : Type :=
  | JsonArraySizes          (* "json array sizes do not match" *)
  | EmptyTree               (* "empty tree" *)
  | IndexOutOfRange         (* "tree yes/no/missing index out of range" *)
  | CycleInTree             (* "cycle in tree" *)
  | TreeInfoSize            (* "unexprected tree_info size: ..." *)
  | TreeInfoGroup           (* "unexpected tree_info group: ..." *)
  | InvalidBaseScore        (* "base_score must be in (0,1) for logistic loss" *)
  | IncompatibleModelSize.  (* "xgboost predict incompatible model size: ..." *)

Inductive outcome (A : Type) : Type :=
  | Ok (a : A)
  | Throw (e : error)
  | OutOfBounds
  | OutOfFuel.
Arguments Ok {A} a.
Arguments Throw {A} e.
Arguments OutOfBounds {A}.
Arguments OutOfFuel {A}.

Definition bind {A B : Type} (m : outcome A) (k : A -> outcome B) : outcome B :=
  match m with
  | Ok a => k a
  | Throw e => Throw e
  | OutOfBounds => OutOfBounds
  | OutOfFuel => OutOfFuel
  end.

Notation "'do' x <- m ; k" := (bind m (fun x => k))
  (at level 10, x name, m at level 100, k at level 200).

(** [v[i]] on a vector: undefined past the end. *)
Definition index {A : Type} (v : list A) (i : N) : outcome A :=
  match v !! N.to_nat i with
  | Some a => Ok a
  | None => OutOfBounds
  end.

Definition succeeded {A : Type} (o : outcome A) : bool :=
  match o with Ok _ => true | _ => false end.

(* ===================================================================== *)
(** * Data model *)
(* ===================================================================== *)

Inductive Transformation : Type := NONE | SIGMOID | SOFTMAX.

(** [struct Node]. *)
Record Node : Type := {
  value : float;     (* threshold of a decision node, value of a leaf *)
  feature : Z;       (* int: feature index, -1 for a leaf *)
  yes : N;           (* unsigned int *)
  no : N;            (* unsigned int *)
  missing : N        (* unsigned int *)
}.

Abbreviation Tree := (list Node) (only parsing).
Abbreviation Predictor := (list (list Node)) (only parsing).
Abbreviation Data := (list (option float)) (only parsing).

(** [struct Model]. *)
Record Model : Type := {
  predictors : list Predictor;
  base_score : float;
  transformation : Transformation
}.

(** A decision node tests [node.feature >= 0]; a leaf is the rest. *)
Definition is_decision (node : Node) : bool := 0 <=? feature node.

(* ===================================================================== *)
(** * Tree evaluation: [predict(const Data&, const Tree&)] *)
(* ===================================================================== *)

(** The index that one turn of the loop moves to from a decision node:
    [static_cast<unsigned int>(node.feature) < size && data[node.feature]],
    then [*data[node.feature] < node.value ? node.yes : node.no], else
    [node.missing]. *)
Definition next_index (data : Data) (node : Node) : N :=
  let size := N.of_nat (length data) in
  if (uint_of_int (feature node) <? size)%N then
    match data !! Z.to_nat (feature node) with
    | Some (Some x) => if F32.ltb x (value node) then yes node else no node
    | _ => missing node
    end
  else missing node.

(** The [while (true)] loop, started at [idx]. *)
Fixpoint tree_loop (fuel : nat) (data : Data) (tree : Tree) (idx : N)
  : outcome float :=
  match fuel with
  | O => OutOfFuel
  | S fuel' =>
      do node <- index tree idx;
      if feature node <? 0 then Ok (value node)
      else tree_loop fuel' data tree (next_index data node)
  end.

Definition predict_tree (fuel : nat) (data : Data) (tree : Tree)
  : outcome float :=
  tree_loop fuel data tree 0%N.

(* ===================================================================== *)
(** * Tree validation: [check] *)
(* ===================================================================== *)

(** The range loop of [check(const Tree&)]; [size] is [tree.size()]. *)
Fixpoint check_indices (size : N) (nodes : list Node) : outcome unit :=
  match nodes with
  | [] => Ok tt
  | node :: rest =>
      if (0 <=? feature node)
         && ((size <? yes node)%N || (size <? no node)%N
             || (size <? missing node)%N)
      then Throw IndexOutOfRange
      else check_indices size rest
  end.

(** [check(const Tree&, size_t, std::vector<bool>&)]; the vector passed by
    reference is threaded through the calls. *)
Fixpoint check_cycles (fuel : nat) (tree : Tree) (idx : N)
    (visited : list bool) : outcome (list bool) :=
  match fuel with
  | O => OutOfFuel
  | S fuel' =>
      do node <- index tree idx;
      if 0 <=? feature node then
        do seen <- index visited idx;
        if (seen : bool) then Throw CycleInTree
        else
          let visited := <[N.to_nat idx := true]> visited in
          do visited <- check_cycles fuel' tree (yes node) visited;
          do visited <-
            (if negb (no node =? yes node)%N
             then check_cycles fuel' tree (no node) visited
             else Ok visited);
          if negb (missing node =? yes node)%N
             && negb (missing node =? no node)%N
          then check_cycles fuel' tree (missing node) visited
          else Ok visited
      else Ok visited
  end.

(** Recursion depth that the walk can never exceed (one frame per unmarked
    node, plus the frame that returns). *)
Definition check_fuel (tree : Tree) : nat := S (length tree).

(** [check(const Tree&)]. *)
Definition check (tree : Tree) : outcome unit :=
  match tree with
  | [] => Throw EmptyTree
  | _ =>
      do _ <- check_indices (N.of_nat (length tree)) tree;
      do _ <- check_cycles (check_fuel tree) tree 0%N
                (replicate (length tree) false);
      Ok tt
  end.

(* ===================================================================== *)
(** * Model loading: the body of [parse] after JSON extraction *)
(* ===================================================================== *)

(** What [getArrayBool], [getArrayInt], [getArrayFloat], [getString] and
    [std::stof] deliver: one tree object, and the fields of the document. *)
Record JsonTree : Type := {
  default_left : list bool;
  left_children : list Z;
  right_children : list Z;
  split_indices : list Z;
  split_conditions : list float
}.

Record JsonModel : Type := {
  trees : list JsonTree;
  tree_info : list Z;
  objective_name : string;
  base_score_param : float
}.

(** [checkSizes]: the first size is remembered, the others compared to it. *)
Fixpoint checkSizes_loop (size : option nat) (args : list nat) : outcome unit :=
  match args with
  | [] => Ok tt
  | a :: rest =>
      match size with
      | None => checkSizes_loop (Some a) rest
      | Some s =>
          if negb (s =? a)%nat then Throw JsonArraySizes
          else checkSizes_loop size rest
      end
  end.

Definition checkSizes (sizes : list nat) : outcome unit :=
  checkSizes_loop None sizes.

(** The node built at position [i] of a tree object. *)
Definition make_node (dl : bool) (lc rc si : Z) (sc : float) : Node :=
  {| value := sc;
     feature := if 0 <=? lc then si else -1;
     yes := uint_of_int lc;
     no := uint_of_int rc;
     missing := if dl then uint_of_int lc else uint_of_int rc |}.

Fixpoint build_nodes (jt : JsonTree) (positions : list nat) (tree : Tree)
  : outcome Tree :=
  match positions with
  | [] => Ok tree
  | i :: rest =>
      do dl <- index (default_left jt) (N.of_nat i);
      do lc <- index (left_children jt) (N.of_nat i);
      do rc <- index (right_children jt) (N.of_nat i);
      do si <- index (split_indices jt) (N.of_nat i);
      do sc <- index (split_conditions jt) (N.of_nat i);
      build_nodes jt rest (tree ++ [make_node dl lc rc si sc])
  end.

Definition parse_tree (jt : JsonTree) : outcome Tree :=
  do _ <- checkSizes [length (default_left jt); length (left_children jt);
                      length (right_children jt); length (split_indices jt);
                      length (split_conditions jt)];
  do tree <- build_nodes jt (seq 0 (length (default_left jt))) [];
  do _ <- check tree;
  Ok tree.

Fixpoint parse_trees (json_trees : list JsonTree) (predictor : Predictor)
  : outcome Predictor :=
  match json_trees with
  | [] => Ok predictor
  | jt :: rest =>
      do tree <- parse_tree jt;
      parse_trees rest (predictor ++ [tree])
  end.

(** The loop that builds [predictors]; [i] counts the entries of
    [tree_info] already consumed.  [group + 1U] is an [unsigned int] sum,
    [resize] value-initializes new slots to empty predictors. *)
Fixpoint build_predictors_loop (predictor : Predictor) (i : nat)
    (info : list Z) (acc : list Predictor) : outcome (list Predictor) :=
  match info with
  | [] => Ok acc
  | group :: rest =>
      if group <? 0 then Throw TreeInfoGroup
      else
        let want := uint_add (uint_of_int group) 1 in
        let size := N.of_nat (length acc) in
        let acc :=
          resize (N.to_nat (if (size <? want)%N then want else size)) [] acc in
        do tree <- index predictor (N.of_nat i);
        do slot <- index acc (Z.to_N group);
        build_predictors_loop predictor (S i) rest
          (<[Z.to_nat group := slot ++ [tree]]> acc)
  end.

Definition build_predictors (predictor : Predictor) (info : list Z)
  : outcome (list Predictor) :=
  if negb (length info =? length predictor)%nat then Throw TreeInfoSize
  else build_predictors_loop predictor 0 info [].

(** The lambda [transformation]. *)
Definition select_transformation (objective : string) : Transformation :=
  if String.eqb objective "multi:softprob" then SOFTMAX
  else if String.eqb objective "reg:logistic"
          || String.eqb objective "binary:logistic" then SIGMOID
  else NONE.

Definition logistic_objective (objective : string) : bool :=
  String.eqb objective "reg:logistic"
  || String.eqb objective "binary:logistic"
  || String.eqb objective "binary:logitraw".

Definition log_objective (objective : string) : bool :=
  String.eqb objective "reg:gamma"
  || String.eqb objective "reg:tweedie"
  || String.eqb objective "count:poisson"
  || String.eqb objective "survival:aft"
  || String.eqb objective "survival:cox".

Section Libm.

(** [expf] and [std::log] on [float], from the C library. *)
Variable expf : float -> float.
Variable logf : float -> float.

(** The lambda [transformBaseScore]. *)
Definition transformBaseScore (objective : string) (base : float)
  : outcome float :=
  if logistic_objective objective then
    if F32.leb base F32.zero || F32.geb base F32.one
    then Throw InvalidBaseScore
    else Ok (F32.opp (logf (F32.sub (F32.div F32.one base) F32.one)))
  else if log_objective objective then Ok (logf base)
  else Ok base.

(** [parse], from the extracted fields on. *)
Definition parse (j : JsonModel) : outcome Model :=
  do predictor <- parse_trees (trees j) [];
  do groups <- build_predictors predictor (tree_info j);
  do base <- transformBaseScore (objective_name j) (base_score_param j);
  Ok {| predictors := groups;
        base_score := base;
        transformation := select_transformation (objective_name j) |}.

(* =================================================================== *)
(** * Margin transformations *)
(* =================================================================== *)

Definition transformSigmoid (predictions : list float) : list float :=
  map (fun p => F32.div F32.one (F32.add F32.one (expf (F32.opp p))))
      predictions.

(** First loop of [transformSoftmax]: the running maximum. *)
Definition softmax_max (predictions : list float) : float :=
  fold_left F32.max predictions F32.numeric_limits_min.

(** Second loop: exponentiate in place, accumulate in a [double]. *)
Fixpoint softmax_exp (max : float) (predictions : list float) (sum : double)
  : list float * double :=
  match predictions with
  | [] => ([], sum)
  | p :: rest =>
      let e := expf (F32.sub p max) in
      let '(es, total) :=
        softmax_exp max rest (F64.add sum (F64.of_float e)) in
      (e :: es, total)
  end.

(** Third loop: [prediction /= sum] divides in [double] and stores a
    [float]. *)
Definition transformSoftmax (predictions : list float) : list float :=
  let max := softmax_max predictions in
  let '(es, sum) := softmax_exp max predictions F64.zero in
  map (fun e => F64.to_float (F64.div (F64.of_float e) sum)) es.

Definition transform (predictions : list float) (t : Transformation)
  : list float :=
  match predictions with
  | [] => predictions
  | _ =>
      match t with
      | SIGMOID => transformSigmoid predictions
      | SOFTMAX => transformSoftmax predictions
      | NONE => predictions
      end
  end.

(* =================================================================== *)
(** * Prediction *)
(* =================================================================== *)

(** [predict(const Data&, const Predictor&)]: the loop over the trees. *)
Fixpoint sum_trees (fuel : nat) (data : Data) (group : Predictor)
    (prediction : float) : outcome float :=
  match group with
  | [] => Ok prediction
  | tree :: rest =>
      do leaf <- predict_tree fuel data tree;
      sum_trees fuel data rest (F32.add prediction leaf)
  end.

Definition predict_predictor (fuel : nat) (m : Model) (data : Data)
    (group : Predictor) : outcome float :=
  do prediction <- sum_trees fuel data group F32.zero;
  Ok (F32.add prediction (base_score m)).

(** [predict(const Data&, bool)]. *)
Fixpoint predict_groups (fuel : nat) (m : Model) (data : Data)
    (groups : list Predictor) (predictions : list float)
  : outcome (list float) :=
  match groups with
  | [] => Ok predictions
  | group :: rest =>
      do p <- predict_predictor fuel m data group;
      predict_groups fuel m data rest (predictions ++ [p])
  end.

Definition predict (fuel : nat) (m : Model) (data : Data)
    (outputMargin : bool) : outcome (list float) :=
  do predictions <- predict_groups fuel m data (predictors m) [];
  Ok (if negb outputMargin
      then transform predictions (transformation m)
      else predictions).

(** [predict(const std::vector<Data>&, bool)]. *)
Fixpoint predict_instances (fuel : nat) (m : Model) (group : Predictor)
    (data : list Data) (scores : list float) : outcome (list float) :=
  match data with
  | [] => Ok scores
  | d :: rest =>
      do s <- predict_predictor fuel m d group;
      predict_instances fuel m group rest (scores ++ [s])
  end.

Definition predict_batch (fuel : nat) (m : Model) (data : list Data)
    (outputMargin : bool) : outcome (list float) :=
  if negb (length (predictors m) =? 1)%nat then Throw IncompatibleModelSize
  else
    do front <- index (predictors m) 0%N;
    do scores <- predict_instances fuel m front data [];
    Ok (if negb outputMargin
        then transform scores (transformation m)
        else scores).

End Libm.

(* ===================================================================== *)
(** * The calls of the cycle walk (ghost instrumentation) *)
(* ===================================================================== *)

(** A call [check(tree, idx, visited)] as the walk makes it: the index it is
    invoked on and the mark [visited[idx]] it finds ([None] past the end). *)
Definition Call : Type := N * option bool.

(** A computation that also logs the calls it made, in order. *)
Definition traced (A : Type) : Type := list Call * outcome A.

Definition lift {A : Type} (o : outcome A) : traced A := ([], o).

Definition tell (c : Call) : traced unit := ([c], Ok tt).

Definition tbind {A B : Type} (m : traced A) (k : A -> traced B) : traced B :=
  match m.2 with
  | Ok a => (m.1 ++ (k a).1, (k a).2)
  | Throw e => (m.1, Throw e)
  | OutOfBounds => (m.1, OutOfBounds)
  | OutOfFuel => (m.1, OutOfFuel)
  end.

Notation "'tdo' x <- m ; k" := (tbind m (fun x => k))
  (at level 10, x name, m at level 100, k at level 200).

(** [check_cycles] with every call logged; erasing the log gives
    [check_cycles] back ([check_cycles_traced_erase]). *)
Fixpoint check_cycles_traced (fuel : nat) (tree : Tree) (idx : N)
    (visited : list bool) : traced (list bool) :=
  match fuel with
  | O => lift OutOfFuel
  | S fuel' =>
      tdo _ <- tell (idx, visited !! N.to_nat idx);
      tdo node <- lift (index tree idx);
      if 0 <=? feature node then
        tdo seen <- lift (index visited idx);
        if (seen : bool) then lift (Throw CycleInTree)
        else
          let visited := <[N.to_nat idx := true]> visited in
          tdo visited <- check_cycles_traced fuel' tree (yes node) visited;
          tdo visited <-
            (if negb (no node =? yes node)%N
             then check_cycles_traced fuel' tree (no node) visited
             else lift (Ok visited));
          if negb (missing node =? yes node)%N
             && negb (missing node =? no node)%N
          then check_cycles_traced fuel' tree (missing node) visited
          else lift (Ok visited)
      else lift (Ok visited)
  end.

(** The second and third recursive calls of the walk are guarded. *)
Definition guarded_walk (fuel : nat) (tree : Tree) (go : bool) (idx : N)
    (visited : list bool) : outcome (list bool) :=
  if go then check_cycles fuel tree idx visited else Ok visited.

Definition guarded_traced (fuel : nat) (tree : Tree) (go : bool) (idx : N)
    (visited : list bool) : traced (list bool) :=
  if go then check_cycles_traced fuel tree idx visited else lift (Ok visited).

(** The failure of an outcome, forgetting the type of its result. *)
Definition failure_of {A : Type} (o : outcome A) : option (outcome unit) :=
  match o with
  | Ok _ => None
  | Throw e => Some (Throw e)
  | OutOfBounds => Some OutOfBounds
  | OutOfFuel => Some OutOfFuel
  end.

(** The calls of the walk that [check tree] performs; none when [check]
    throws before it starts the walk. *)
Definition check_calls (tree : Tree) : list Call :=
  match tree with
  | [] => []
  | _ =>
      match check_indices (N.of_nat (length tree)) tree with
      | Ok _ =>
          (check_cycles_traced (check_fuel tree) tree 0%N
             (replicate (length tree) false)).1
      | _ => []
      end
  end.

(* ===================================================================== *)
(** * Vocabulary of the properties *)
(* ===================================================================== *)

(** Which of the three assignments to [index] a turn of the loop executes. *)
Inductive Branch : Type := TakeYes | TakeNo | TakeMissing.

Definition child (node : Node) (b : Branch) : N :=
  match b with
  | TakeYes => yes node
  | TakeNo => no node
  | TakeMissing => missing node
  end.

(** The branch that the conditions of the loop body select. *)
Definition branch (data : Data) (node : Node) : Branch :=
  let size := N.of_nat (length data) in
  if (uint_of_int (feature node) <? size)%N then
    match data !! Z.to_nat (feature node) with
    | Some (Some x) => if F32.ltb x (value node) then TakeYes else TakeNo
    | _ => TakeMissing
    end
  else TakeMissing.

(** [tree[i]] exists and is a decision node, resp. a leaf. *)
Definition decision_at (tree : Tree) (i : N) : Prop :=
  exists node, tree !! N.to_nat i = Some node /\ 0 <= feature node.

Definition leaf_at (tree : Tree) (i : N) : Prop :=
  exists node, tree !! N.to_nat i = Some node /\ feature node < 0.

(** [c] is the yes, no or missing index of the decision node [tree[i]]. *)
Definition child_of (tree : Tree) (i c : N) : Prop :=
  exists node, tree !! N.to_nat i = Some node /\ 0 <= feature node /\
    (c = yes node \/ c = no node \/ c = missing node).

(** [chain tree i n j]: [n] child edges lead from index [i] to index [j]. *)
Inductive chain (tree : Tree) : N -> nat -> N -> Prop :=
  | chain_here (i : N) : chain tree i O i
  | chain_step (i c j : N) (n : nat) :
      child_of tree i c -> chain tree c n j -> chain tree i (S n) j.

(** A decision node with a child index above [size]. *)
Definition child_above (size : N) (node : Node) : Prop :=
  0 <= feature node /\
  (size < yes node \/ size < no node \/ size < missing node)%N.

(** A call of the walk that lands on a decision node already marked. *)
Definition reaches_marked (tree : Tree) (c : Call) : Prop :=
  decision_at tree c.1 /\ c.2 = Some true.

(** A call of the walk on an index past the end of the tree. *)
Definition reaches_past_end (tree : Tree) (c : Call) : Prop :=
  (N.of_nat (length tree) <= c.1)%N.

(** Every decision node's child indices are strictly below [tree.size()]. *)
Definition strict_children (tree : Tree) : bool :=
  forallb (fun node =>
             negb (is_decision node)
             || ((yes node <? N.of_nat (length tree))%N
                 && (no node <? N.of_nat (length tree))%N
                 && (missing node <? N.of_nat (length tree))%N)) tree.

(** Some decision node has a child index equal to [tree.size()]. *)
Definition one_past_end_child (tree : Tree) : Prop :=
  exists i, child_of tree i (N.of_nat (length tree)).

(** Number of marks set in a [visited] vector. *)
Definition marks (visited : list bool) : nat :=
  length (filter (fun b => b = true) visited).

(** Every tree of the model has passed [check], as [parse] guarantees. *)
Definition checked_model (m : Model) : Prop :=
  Forall (Forall (fun tree => check tree = Ok tt)) (predictors m).

(** Fuel that lets every tree of the model reach its leaf. *)
Definition model_fuel (m : Model) : nat :=
  S (max_list ((fun group => max_list (length <$> group)) <$> predictors m)).

(** The largest group id, [-1] when there is none. *)
Definition max_group (info : list Z) : Z := foldr Z.max (-1) info.

(** The trees whose [tree_info] entry is [g], in file order. *)
Definition trees_of_group (predictor : Predictor) (info : list Z) (g : Z)
  : Predictor :=
  omap (fun p : list Node * Z => if decide (p.2 = g) then Some p.1 else None)
       (zip predictor info).

(** The grouping as the specification words it. *)
Definition grouped (predictor : Predictor) (info : list Z) : list Predictor :=
  (fun g => trees_of_group predictor info (Z.of_nat g))
    <$> seq 0 (Z.to_nat (1 + max_group info)).

(** The maximum of a non-empty score vector, by [<] on [float]. *)
Definition true_max (predictions : list float) : option float :=
  match predictions with
  | [] => None
  | p :: rest => Some (fold_left F32.max rest p)
  end.

(** [x] lies strictly between [0.0f] and [1.0f]. *)
Definition strictly_inside_unit (x : float) : bool :=
  F32.ltb F32.zero x && F32.ltb x F32.one.

(** [x] is negative: [x < 0.0f]. *)
Definition negative (x : float) : Prop := F32.ltb x F32.zero = true.

(** The float sum the prediction loop computes, left to right from [0.0f]. *)
Definition float_sum (values : list float) : float :=
  fold_left F32.add values F32.zero.

(* ===================================================================== *)
(** * Vocabulary of the further properties *)
(* ===================================================================== *)

(** The value that a feature vector holds for feature [f]: a slot past the
    end and a slot marked missing are alike. *)
Definition slot (data : Data) (f : Z) : option float :=
  match data !! Z.to_nat f with
  | Some (Some x) => Some x
  | _ => None
  end.

(** A decision tree as a datatype: a leaf value, or a test of feature [f]
    against a threshold, with the side that a missing value takes. *)
Inductive dtree : Type :=
  | DLeaf (v : float)
  | DNode (f : Z) (threshold : float) (default_left : bool) (l r : dtree).

(** The function a decision tree denotes. *)
Fixpoint eval (data : Data) (t : dtree) : float :=
  match t with
  | DLeaf v => v
  | DNode f threshold dl l r =>
      match slot data f with
      | Some x => if F32.ltb x threshold then eval data l else eval data r
      | None => if dl then eval data l else eval data r
      end
  end.

Fixpoint depth (t : dtree) : nat :=
  match t with
  | DLeaf _ => 1%nat
  | DNode _ _ _ l r => S (Nat.max (depth l) (depth r))
  end.

(** The node array holds the decision tree [t] at index [i], in any
    layout. *)
Inductive represents (tree : Tree) : N -> dtree -> Prop :=
  | represents_leaf (i : N) (node : Node) :
      tree !! N.to_nat i = Some node -> feature node < 0 ->
      represents tree i (DLeaf (value node))
  | represents_node (i : N) (node : Node) (dl : bool) (l r : dtree) :
      tree !! N.to_nat i = Some node -> 0 <= feature node ->
      missing node = (if dl then yes node else no node) ->
      represents tree (yes node) l -> represents tree (no node) r ->
      represents tree i (DNode (feature node) (value node) dl l r).

(** [j] is a decision node that [c] reaches through child edges ([c] itself
    included). *)
Definition desc (tree : Tree) (c j : N) : Prop :=
  (exists n, chain tree c n j) /\ decision_at tree j.

(** Below [c], a decision node has one parent only. *)
Definition single_parent (tree : Tree) (c : N) : Prop :=
  forall a b x, desc tree c a -> desc tree c b ->
    child_of tree a x -> child_of tree b x -> decision_at tree x -> a = b.

(** Below [c], no chain of child edges is longer than [bound]; in particular
    no node leads back to itself. *)
Definition height_bound (tree : Tree) (c : N) (bound : nat) : Prop :=
  forall n j, chain tree c n j -> (n <= bound)%nat.

(** Every mark of [w] is a mark of [w']. *)
Definition marks_incl (w w' : list bool) : Prop :=
  forall j : nat, w !! j = Some true -> w' !! j = Some true.

(** The three child indices of a node. *)
Definition child_index (node : Node) (x : N) : Prop :=
  x = yes node \/ x = no node \/ x = missing node.

(** The state the walk is in between the calls on the children of [c]:
    what is marked was marked at the start, or is [c], or lies below a child
    already walked. *)
Definition between_calls (tree : Tree) (c : N) (v : list bool)
    (walked : list N) (w : list bool) : Prop :=
  length w = length tree /\
  forall j : N, w !! N.to_nat j = Some true ->
    v !! N.to_nat j = Some true \/ j = c \/
    exists x, x ∈ walked /\ desc tree x j.

(** The five arrays of a tree object have one length. *)
Definition aligned (jt : JsonTree) : Prop :=
  length (left_children jt) = length (default_left jt) /\
  length (right_children jt) = length (default_left jt) /\
  length (split_indices jt) = length (default_left jt) /\
  length (split_conditions jt) = length (default_left jt).

(** The node that position [i] of a tree object describes. *)
Definition node_at (jt : JsonTree) (i : nat) : option Node :=
  match default_left jt !! i, left_children jt !! i, right_children jt !! i,
        split_indices jt !! i, split_conditions jt !! i with
  | Some dl, Some lc, Some rc, Some si, Some sc =>
      Some (make_node dl lc rc si sc)
  | _, _, _, _, _ => None
  end.

(** The elementwise map that [transform] applies for a kind other than
    softmax. *)
Definition pointwise (expf : float -> float) (t : Transformation)
    (x : float) : float :=
  match t with
  | SIGMOID => F32.div F32.one (F32.add F32.one (expf (F32.opp x)))
  | _ => x
  end.

(** The number of trees filed in the groups. *)
Definition total_trees (groups : list Predictor) : nat :=
  sum_list_with length groups.

(** The logit that the logistic family stores for a base score. *)
Definition logit (logf : float -> float) (base : float) : float :=
  F32.opp (logf (F32.sub (F32.div F32.one base) F32.one)).

(** The outcome is not an exception: the call returned, or its behaviour is
    undefined. *)
Definition not_thrown {A : Type} (o : outcome A) : Prop :=
  forall e, o <> Throw e.

(** Some position of the tree object describes a decision node with a child
    index equal to the number of nodes. *)
Definition past_end_entry (jt : JsonTree) : Prop :=
  exists i node, node_at jt i = Some node /\ 0 <= feature node /\
    child_index node (N.of_nat (length (default_left jt))).

(* ===================================================================== *)
(** * Sample inputs *)
(* ===================================================================== *)

Definition leaf (v : Z) : Node :=
  {| value := F32.of_int v; feature := -1;
     yes := uint_of_int (-1); no := uint_of_int (-1);
     missing := uint_of_int (-1) |}.

Definition decision (f : Z) (threshold : Z) (y n m : N) : Node :=
  {| value := F32.of_int threshold; feature := f;
     yes := y; no := n; missing := m |}.

(** A stump on feature 0 with threshold 5. *)
Definition stump : Tree := [decision 0 5 1 2 1; leaf 10; leaf 20]%N.

(** Two decision nodes, [1] and [2], share the leaf [3]. *)
Definition shared_leaf_tree : Tree :=
  [decision 0 5 1 2 1; decision 1 3 3 3 3; decision 1 4 3 3 3; leaf 7]%N.

(** The root refers to itself. *)
Definition self_loop_tree : Tree := [decision 0 5 0 0 0]%N.

(** An unreachable node that refers to itself. *)
Definition detached_loop_tree : Tree := [leaf 1; decision 0 5 1 1 1]%N.

(** A root whose yes child is one past the end. *)
Definition past_end_tree : Tree := [decision 0 5 1 1 1]%N.

(** An unreachable node whose children are one past the end. *)
Definition detached_past_end_tree : Tree := [leaf 1; decision 0 5 2 2 2]%N.

(** A root that refers to itself before its one-past-the-end child. *)
Definition loop_then_past_end_tree : Tree := [decision 0 5 0 1 1]%N.

(** One output group holding the stump, no remapping, no transformation. *)
Definition sample_model : Model :=
  {| predictors := [stump] :: []; base_score := F32.zero;
     transformation := NONE |}.

(** Feature 0 is present with value 3. *)
Definition sample_data : Data := [Some (F32.of_int 3)].

Definition minus_one : float := F32.of_int (-1).
Definition minus_two : float := F32.of_int (-2).
Definition minus_200 : float := F32.of_int (-200).
Definition eleven : float := F32.of_int 11.

(** [0.5f]. *)
Definition half : float := S754_finite false (2 ^ 23) (-24).

(** The tree object of the stump, and a document that holds it twice, in
    groups 0 and 1. *)
Definition stump_json : JsonTree :=
  {| default_left := [true; false; false];
     left_children := [1; -1; -1];
     right_children := [2; -1; -1];
     split_indices := [0; 0; 0];
     split_conditions := [F32.of_int 5; F32.of_int 10; F32.of_int 20] |}.

Definition sample_json (objective : string) (base : float) : JsonModel :=
  {| trees := [stump_json; stump_json]; tree_info := [0; 1];
     objective_name := objective; base_score_param := base |}.

(** The stump as a decision tree. *)
Definition stump_dtree : dtree :=
  DNode 0 (F32.of_int 5) true (DLeaf (F32.of_int 10)) (DLeaf (F32.of_int 20)).

(** A tree object whose root has a negative right child. *)
Definition negative_child_json : JsonTree :=
  {| default_left := [true; false];
     left_children := [1; -1];
     right_children := [-1; -1];
     split_indices := [0; 0];
     split_conditions := [F32.of_int 5; F32.of_int 10] |}.

(** A tree object of three nodes whose root has the left child 3, one past
    the last node, and takes it for a missing value; and the node array that
    the loader builds from it. *)
Definition past_end_json : JsonTree :=
  {| default_left := [true; false; false];
     left_children := [3; -1; -1];
     right_children := [2; -1; -1];
     split_indices := [0; 0; 0];
     split_conditions := [F32.of_int 5; F32.of_int 10; F32.of_int 20] |}.

Definition past_end_child_tree : Tree :=
  [decision 0 5 3 2 3; leaf 10; leaf 20]%N.

(** The tree object of a single leaf. *)
Definition leaf_json : JsonTree :=
  {| default_left := [false];
     left_children := [-1];
     right_children := [-1];
     split_indices := [0];
     split_conditions := [F32.of_int 7] |}.

(** A document of two different trees, the first filed in group 1 and the
    second in group 0. *)
Definition crossed_json : JsonModel :=
  {| trees := [stump_json; leaf_json]; tree_info := [1; 0];
     objective_name := "reg:squarederror"; base_score_param := F32.zero |}.

(* ===================================================================== *)
(** * Outcomes and indexing *)
(* ===================================================================== *)

Lemma bind_Ok_inv {A B : Type} (m : outcome A) (k : A -> outcome B) (b : B) :
  bind m k = Ok b -> exists a, m = Ok a /\ k a = Ok b.
Proof. destruct m; simpl; intros H; try discriminate; eauto. Qed.

Lemma index_Ok {A : Type} (v : list A) (i : N) (a : A) :
  index v i = Ok a <-> v !! N.to_nat i = Some a.
Proof.
  unfold index. destruct (v !! N.to_nat i); split; intros H; congruence.
Qed.

Lemma index_cases {A : Type} (v : list A) (i : N) :
  (exists a, v !! N.to_nat i = Some a /\ index v i = Ok a) \/
  ((length v <= N.to_nat i)%nat /\ index v i = OutOfBounds).
Proof.
  unfold index. destruct (v !! N.to_nat i) eqn:E; [left; eauto | right].
  split; [by apply lookup_ge_None | done].
Qed.

Lemma index_in_range {A : Type} (v : list A) (i : N) :
  (N.to_nat i < length v)%nat -> exists a, index v i = Ok a.
Proof.
  intros H. destruct (index_cases v i) as [(a & _ & E) | [Hge _]];
    [eauto | lia].
Qed.

(** The index the loop moves to is the child of the branch taken. *)
Lemma next_index_branch (data : Data) (node : Node) :
  next_index data node = child node (branch data node).
Proof.
  unfold next_index, branch.
  destruct (_ <? _)%N; [|done].
  destruct (data !! Z.to_nat (feature node)) as [[x|]|]; try done.
  by destruct (F32.ltb x (value node)).
Qed.

(* ===================================================================== *)
(** * Marks of a [visited] vector *)
(* ===================================================================== *)

Lemma marks_cons (b : bool) (v : list bool) :
  marks (b :: v) = ((if b then 1 else 0) + marks v)%nat.
Proof.
  unfold marks. destruct b.
  - rewrite filter_cons_True by done. reflexivity.
  - rewrite filter_cons_False by done. reflexivity.
Qed.

Lemma marks_le_length (v : list bool) : (marks v <= length v)%nat.
Proof. unfold marks. apply length_filter. Qed.

Lemma marks_replicate_false (n : nat) : marks (replicate n false) = O.
Proof.
  induction n as [|n IH]; [reflexivity|].
  simpl replicate. rewrite marks_cons, IH. reflexivity.
Qed.

Lemma marks_insert (v : list bool) (i : nat) :
  v !! i = Some false -> marks (<[i := true]> v) = S (marks v).
Proof.
  revert i. induction v as [|b v IH]; intros [|i] H; simplify_eq/=.
  - rewrite !marks_cons. reflexivity.
  - rewrite !marks_cons, (IH i H). destruct b; lia.
Qed.

(* ===================================================================== *)
(** * The range loop *)
(* ===================================================================== *)

Lemma check_indices_cases (size : N) (nodes : list Node) :
  (check_indices size nodes = Throw IndexOutOfRange /\
   Exists (child_above size) nodes) \/
  (check_indices size nodes = Ok tt /\
   Forall (fun node => ~ child_above size node) nodes).
Proof.
  induction nodes as [|node rest IH]; simpl.
  - right. split; [done | constructor].
  - destruct ((0 <=? feature node)
              && ((size <? yes node)%N || (size <? no node)%N
                  || (size <? missing node)%N)) eqn:E.
    + left. split; [done|]. apply Exists_cons_hd.
      apply andb_true_iff in E as [Ef E].
      rewrite !orb_true_iff, !N.ltb_lt in E. apply Z.leb_le in Ef.
      split; [done | tauto].
    + assert (~ child_above size node) as Hnode.
      { rewrite andb_false_iff, !orb_false_iff, !N.ltb_ge, Z.leb_gt in E.
        unfold child_above. lia. }
      destruct IH as [[-> H] | [-> H]]; [left | right]; split; try done.
      * by apply Exists_cons_tl.
      * by constructor.
Qed.

(* ===================================================================== *)
(** * The cycle walk *)
(* ===================================================================== *)

Lemma check_cycles_unfold (fuel : nat) (tree : Tree) (idx : N)
    (visited : list bool) :
  check_cycles (S fuel) tree idx visited =
  do node <- index tree idx;
  if 0 <=? feature node then
    do seen <- index visited idx;
    if (seen : bool) then Throw CycleInTree
    else
      do v1 <- check_cycles fuel tree (yes node)
                 (<[N.to_nat idx := true]> visited);
      do v2 <- guarded_walk fuel tree (negb (no node =? yes node)%N)
                 (no node) v1;
      guarded_walk fuel tree
        (negb (missing node =? yes node)%N && negb (missing node =? no node)%N)
        (missing node) v2
  else Ok visited.
Proof. reflexivity. Qed.

(** What a successful call did. *)
Lemma check_cycles_Ok_inv (fuel : nat) (tree : Tree) (idx : N)
    (visited visited' : list bool) :
  check_cycles (S fuel) tree idx visited = Ok visited' ->
  exists node, tree !! N.to_nat idx = Some node /\
    ((feature node < 0 /\ visited' = visited) \/
     (0 <= feature node /\ visited !! N.to_nat idx = Some false /\
      exists v1 v2,
        check_cycles fuel tree (yes node) (<[N.to_nat idx := true]> visited)
          = Ok v1 /\
        guarded_walk fuel tree (negb (no node =? yes node)%N) (no node) v1
          = Ok v2 /\
        guarded_walk fuel tree
          (negb (missing node =? yes node)%N
           && negb (missing node =? no node)%N) (missing node) v2
          = Ok visited')).
Proof.
  rewrite check_cycles_unfold. intros H.
  apply bind_Ok_inv in H as (node & Hn & H). apply index_Ok in Hn.
  exists node. split; [done|].
  destruct (0 <=? feature node) eqn:Ef.
  - right. apply bind_Ok_inv in H as (seen & Hs & H). apply index_Ok in Hs.
    destruct seen; [discriminate|].
    apply bind_Ok_inv in H as (v1 & H1 & H).
    apply bind_Ok_inv in H as (v2 & H2 & H3).
    split; [lia|]. split; [done|]. eauto.
  - left. split; [lia | congruence].
Qed.

(** Invariants of a successful, possibly guarded, call follow from those of
    the unguarded one. *)
Lemma guarded_walk_Ok (P : list bool -> list bool -> Prop) (fuel : nat)
    (tree : Tree) (go : bool) (idx : N) (v v' : list bool) :
  (forall w, P w w) ->
  (forall w w', check_cycles fuel tree idx w = Ok w' -> P w w') ->
  guarded_walk fuel tree go idx v = Ok v' -> P v v'.
Proof.
  intros Hrefl Hwalk. destruct go; simpl; [apply Hwalk|].
  intros [= ->]. apply Hrefl.
Qed.

Lemma check_cycles_length (fuel : nat) (tree : Tree) (idx : N)
    (v v' : list bool) :
  check_cycles fuel tree idx v = Ok v' -> length v' = length v.
Proof.
  revert idx v v'. induction fuel as [|fuel IH]; intros idx v v' H;
    [discriminate|].
  apply check_cycles_Ok_inv in H
    as (node & Hn & [[_ ->] | (_ & _ & v1 & v2 & H1 & H2 & H3)]); [done|].
  apply IH in H1. rewrite length_insert in H1.
  apply (guarded_walk_Ok (fun w w' => length w' = length w)) in H2;
    [|done|apply IH].
  apply (guarded_walk_Ok (fun w w' => length w' = length w)) in H3;
    [|done|apply IH].
  congruence.
Qed.

Lemma check_cycles_marks (fuel : nat) (tree : Tree) (idx : N)
    (v v' : list bool) :
  check_cycles fuel tree idx v = Ok v' -> (marks v <= marks v')%nat.
Proof.
  revert idx v v'. induction fuel as [|fuel IH]; intros idx v v' H;
    [discriminate|].
  apply check_cycles_Ok_inv in H
    as (node & Hn & [[_ ->] | (_ & Hv & v1 & v2 & H1 & H2 & H3)]); [done|].
  apply IH in H1. rewrite (marks_insert _ _ Hv) in H1.
  apply (guarded_walk_Ok (fun w w' => (marks w <= marks w')%nat)) in H2;
    [|done|apply IH].
  apply (guarded_walk_Ok (fun w w' => (marks w <= marks w')%nat)) in H3;
    [|done|apply IH].
  lia.
Qed.

Lemma guarded_walk_length (fuel : nat) (tree : Tree) (go : bool) (idx : N)
    (v v' : list bool) :
  guarded_walk fuel tree go idx v = Ok v' -> length v' = length v.
Proof.
  apply (guarded_walk_Ok (fun w w' => length w' = length w)); [done|].
  apply check_cycles_length.
Qed.

Lemma guarded_walk_marks (fuel : nat) (tree : Tree) (go : bool) (idx : N)
    (v v' : list bool) :
  guarded_walk fuel tree go idx v = Ok v' -> (marks v <= marks v')%nat.
Proof.
  apply (guarded_walk_Ok (fun w w' => (marks w <= marks w')%nat)); [done|].
  apply check_cycles_marks.
Qed.

(** A successful call keeps every mark it found. *)
Lemma check_cycles_keeps (fuel : nat) (tree : Tree) (idx : N)
    (v v' : list bool) (j : nat) :
  check_cycles fuel tree idx v = Ok v' ->
  v !! j = Some true -> v' !! j = Some true.
Proof.
  revert idx v v'. induction fuel as [|fuel IH]; intros idx v v' H;
    [discriminate|].
  apply check_cycles_Ok_inv in H
    as (node & Hn & [[_ ->] | (_ & Hv & v1 & v2 & H1 & H2 & H3)]); [done|].
  intros Hj.
  assert (<[N.to_nat idx := true]> v !! j = Some true) as Hj0.
  { destruct (decide (N.to_nat idx = j)) as [<-|Hne].
    - apply list_lookup_insert_eq. by eapply lookup_lt_Some.
    - by rewrite list_lookup_insert_ne. }
  apply (IH _ _ _ H1) in Hj0.
  pose proof (guarded_walk_Ok
                (fun w w' => w !! j = Some true -> w' !! j = Some true)
                _ _ _ _ _ _ (fun w H => H) (IH _) H2) as K2.
  pose proof (guarded_walk_Ok
                (fun w w' => w !! j = Some true -> w' !! j = Some true)
                _ _ _ _ _ _ (fun w H => H) (IH _) H3) as K3.
  auto.
Qed.

(** A successful call on a decision node found it unmarked and leaves it
    marked. *)
Lemma check_cycles_marks_node (fuel : nat) (tree : Tree) (idx : N)
    (v v' : list bool) :
  decision_at tree idx -> check_cycles fuel tree idx v = Ok v' ->
  v !! N.to_nat idx = Some false /\ v' !! N.to_nat idx = Some true.
Proof.
  intros (node & Hn & Hf) H. destruct fuel as [|fuel]; [discriminate|].
  apply check_cycles_Ok_inv in H
    as (node' & Hn' & [[Hf' _] | (_ & Hv & v1 & v2 & H1 & H2 & H3)]);
    simplify_eq; [lia|].
  split; [done|].
  assert (<[N.to_nat idx := true]> v !! N.to_nat idx = Some true) as Hj
    by (apply list_lookup_insert_eq; by eapply lookup_lt_Some).
  apply (check_cycles_keeps _ _ _ _ _ _ H1) in Hj.
  pose proof (guarded_walk_Ok
                (fun w w' => w !! N.to_nat idx = Some true ->
                             w' !! N.to_nat idx = Some true)
                _ _ _ _ _ _ (fun w H => H)
                (fun w w' => check_cycles_keeps _ _ _ w w' _) H2) as K2.
  pose proof (guarded_walk_Ok
                (fun w w' => w !! N.to_nat idx = Some true ->
                             w' !! N.to_nat idx = Some true)
                _ _ _ _ _ _ (fun w H => H)
                (fun w w' => check_cycles_keeps _ _ _ w w' _) H3) as K3.
  auto.
Qed.

(** The walk throws nothing but the cycle error. *)
Lemma check_cycles_Throw (fuel : nat) (tree : Tree) (idx : N)
    (v : list bool) (e : error) :
  check_cycles fuel tree idx v = Throw e -> e = CycleInTree.
Proof.
  revert idx v. induction fuel as [|fuel IH]; intros idx v; [discriminate|].
  rewrite check_cycles_unfold.
  destruct (index_cases tree idx) as [(node & _ & ->) | [_ ->]];
    [simpl | discriminate].
  destruct (0 <=? feature node); [|discriminate].
  destruct (index_cases v idx) as [(seen & _ & ->) | [_ ->]];
    [simpl | discriminate].
  destruct seen; [congruence|].
  destruct (check_cycles fuel tree (yes node) _) as [v1| | |] eqn:E1; simpl;
    try discriminate; [|intros [= <-]; eauto].
  unfold guarded_walk at 2.
  destruct (negb (no node =? yes node)%N); simpl.
  - destruct (check_cycles fuel tree (no node) v1) as [v2| | |] eqn:E2; simpl;
      try discriminate; [|intros [= <-]; eauto].
    unfold guarded_walk. destruct (_ && _); [apply IH | discriminate].
  - unfold guarded_walk. destruct (_ && _); [apply IH | discriminate].
Qed.

(** The recursion never needs more frames than there are unmarked nodes,
    plus one. *)
Lemma check_cycles_fuel (fuel : nat) (tree : Tree) (idx : N) (v : list bool) :
  (length v - marks v < fuel)%nat ->
  check_cycles fuel tree idx v <> OutOfFuel.
Proof.
  revert idx v. induction fuel as [|fuel IH]; intros idx v Hf; [lia|].
  rewrite check_cycles_unfold.
  destruct (index_cases tree idx) as [(node & _ & ->) | [_ ->]];
    [simpl | discriminate].
  destruct (0 <=? feature node); [|discriminate].
  destruct (index_cases v idx) as [(seen & Hs & ->) | [_ ->]];
    [simpl | discriminate].
  destruct seen; [discriminate|].
  pose proof (marks_insert _ _ Hs) as Hm.
  pose proof (marks_le_length (<[N.to_nat idx := true]> v)) as Hle.
  rewrite length_insert in Hle.
  assert (forall go c w, length w = length v -> (S (marks v) <= marks w)%nat ->
            guarded_walk fuel tree go c w <> OutOfFuel) as Hguard.
  { intros [] c w Hl Hw; simpl; [|discriminate]. apply IH. lia. }
  destruct (check_cycles fuel tree (yes node) _) as [v1| | |] eqn:E1; simpl;
    try discriminate.
  - pose proof (check_cycles_length _ _ _ _ _ E1) as L1.
    pose proof (check_cycles_marks _ _ _ _ _ E1) as M1.
    rewrite length_insert in L1.
    destruct (guarded_walk fuel tree _ (no node) v1) as [v2| | |] eqn:E2;
      simpl; try discriminate.
    + apply Hguard.
      * apply guarded_walk_length in E2. congruence.
      * apply guarded_walk_marks in E2. lia.
    + exfalso. revert E2. apply Hguard; [done | lia].
  - exfalso. revert E1. apply IH. rewrite length_insert. lia.
Qed.

(** More fuel does not change a result that was reached. *)
Lemma check_cycles_stable (fuel : nat) (tree : Tree) (idx : N)
    (v : list bool) :
  check_cycles fuel tree idx v <> OutOfFuel ->
  check_cycles (S fuel) tree idx v = check_cycles fuel tree idx v.
Proof.
  revert idx v. induction fuel as [|fuel IH]; intros idx v H; [done|].
  rewrite (check_cycles_unfold (S fuel)), (check_cycles_unfold fuel).
  rewrite check_cycles_unfold in H.
  destruct (index tree idx) as [node| | |]; cbn [bind] in *; try done.
  destruct (0 <=? feature node); [|done].
  destruct (index v idx) as [seen| | |]; cbn [bind] in *; try done.
  destruct seen; [done|].
  assert (forall go c w, guarded_walk fuel tree go c w <> OutOfFuel ->
            guarded_walk (S fuel) tree go c w = guarded_walk fuel tree go c w)
    as Hguard.
  { intros [] c w Hw; unfold guarded_walk in *; [by apply IH | done]. }
  destruct (check_cycles fuel tree (yes node) _) as [v1| | |] eqn:E1;
    cbn [bind] in H; [| | |done];
    (rewrite IH, E1 by (rewrite E1; discriminate)); cbn [bind]; [|done|done].
  destruct (guarded_walk fuel tree _ (no node) v1) as [v2| | |] eqn:E2;
    cbn [bind] in H; [| | |done];
    (rewrite Hguard, E2 by (rewrite E2; discriminate)); cbn [bind];
    [|done|done].
  by apply Hguard.
Qed.

Lemma check_cycles_enough (fuel : nat) (tree : Tree) (idx : N)
    (v : list bool) (extra : nat) :
  (length v - marks v < fuel)%nat ->
  check_cycles (extra + fuel) tree idx v = check_cycles fuel tree idx v.
Proof.
  intros Hf. induction extra as [|extra IH]; [done|].
  simpl Nat.add. rewrite check_cycles_stable; [done|].
  rewrite IH. by apply check_cycles_fuel.
Qed.

(** Induction over the nodes a successful walk went through.  [Q c k] is a
    property of the index [c] with a budget [k]; the budget of a call is the
    number of marks it set. *)
Lemma check_cycles_budget (tree : Tree) (Q : N -> nat -> Prop) :
  (forall c k k', Q c k -> (k <= k')%nat -> Q c k') ->
  (forall c node, tree !! N.to_nat c = Some node -> feature node < 0 ->
     Q c O) ->
  (forall c node k, tree !! N.to_nat c = Some node -> 0 <= feature node ->
     Q (yes node) k -> Q (no node) k -> Q (missing node) k -> Q c (S k)) ->
  forall fuel idx v v',
    check_cycles fuel tree idx v = Ok v' -> Q idx (marks v' - marks v)%nat.
Proof.
  intros Hmono Hleaf Hnode.
  induction fuel as [|fuel IH]; intros idx v v' H; [discriminate|].
  apply check_cycles_Ok_inv in H
    as (node & Hn & [[Hf ->] | (Hf & Hv & v1 & v2 & H1 & H2 & H3)]).
  { rewrite Nat.sub_diag. by eapply Hleaf. }
  pose proof (marks_insert _ _ Hv) as M0.
  pose proof (check_cycles_marks _ _ _ _ _ H1) as M1.
  pose proof (guarded_walk_marks _ _ _ _ _ _ H2) as M2.
  pose proof (guarded_walk_marks _ _ _ _ _ _ H3) as M3.
  set (k := (marks v' - S (marks v))%nat).
  replace (marks v' - marks v)%nat with (S k) by lia.
  assert (Q (yes node) k) as Qyes.
  { apply IH in H1. eapply Hmono; [exact H1 | lia]. }
  assert (Q (no node) k) as Qno.
  { destruct (negb (no node =? yes node)%N) eqn:E; simpl in H2.
    - apply IH in H2. eapply Hmono; [exact H2 | lia].
    - apply negb_false_iff, N.eqb_eq in E. by rewrite E. }
  assert (Q (missing node) k) as Qmissing.
  { destruct (negb (missing node =? yes node)%N) eqn:Ey;
      destruct (negb (missing node =? no node)%N) eqn:En; simpl in H3.
    - apply IH in H3. eapply Hmono; [exact H3 | lia].
    - apply negb_false_iff, N.eqb_eq in En. by rewrite En.
    - apply negb_false_iff, N.eqb_eq in Ey. by rewrite Ey.
    - apply negb_false_iff, N.eqb_eq in Ey. by rewrite Ey. }
  by eapply Hnode.
Qed.

(** Chains of child edges out of a walked index are no longer than the
    number of marks the walk set. *)
Lemma check_cycles_chain (fuel : nat) (tree : Tree) (idx : N)
    (v v' : list bool) (n : nat) (j : N) :
  check_cycles fuel tree idx v = Ok v' ->
  chain tree idx n j -> (n <= marks v' - marks v)%nat.
Proof.
  intros H. revert n j.
  apply (check_cycles_budget tree
           (fun c k => forall n j, chain tree c n j -> (n <= k)%nat))
    with (fuel := fuel) (idx := idx) (v := v) (v' := v'); [| | |exact H].
  - intros c k k' Hq Hk n j Hc. specialize (Hq n j Hc). lia.
  - intros c node Hn Hf n j Hc. inversion Hc as [|? ? ? ? Hch]; subst; [lia|].
    destruct Hch as (node' & Hn' & Hf' & _). simplify_eq. lia.
  - intros c node k Hn Hf Qy Qn Qm n j Hc.
    inversion Hc as [|? c' ? n' Hch Hrest]; subst; [lia|].
    destruct Hch as (node' & Hn' & _ & Hc'). simplify_eq.
    destruct Hc' as [-> | [-> | ->]];
      [specialize (Qy _ _ Hrest) | specialize (Qn _ _ Hrest)
       | specialize (Qm _ _ Hrest)]; lia.
Qed.

(** From a walked index the descent reaches a leaf, whatever the data. *)
Lemma check_cycles_descent (fuel : nat) (tree : Tree) (idx : N)
    (v v' : list bool) (data : Data) :
  check_cycles fuel tree idx v = Ok v' ->
  exists n x, (n <= S (marks v' - marks v))%nat /\
    tree_loop n data tree idx = Ok x.
Proof.
  intros H.
  apply (check_cycles_budget tree
           (fun c k => exists n x, (n <= S k)%nat /\
                         tree_loop n data tree c = Ok x))
    with (fuel := fuel) (idx := idx) (v := v) (v' := v'); [| | |exact H].
  - intros c k k' (n & x & Hn & Hx) Hk. exists n, x. split; [lia | done].
  - intros c node Hn Hf. exists 1%nat, (value node). split; [lia|].
    simpl. apply index_Ok in Hn. rewrite Hn. simpl.
    by destruct (Z.ltb_spec (feature node) 0); [|lia].
  - intros c node k Hn Hf Qy Qn Qm.
    assert (exists n x, (n <= S k)%nat /\
              tree_loop n data tree (next_index data node) = Ok x)
      as (n & x & Hle & Hx)
      by (rewrite next_index_branch; by destruct (branch data node)).
    exists (S n), x. split; [lia|].
    simpl. apply index_Ok in Hn. rewrite Hn. simpl.
    by destruct (Z.ltb_spec (feature node) 0); [lia|].
Qed.

(** More fuel does not change a leaf that was reached. *)
Lemma tree_loop_stable (fuel extra : nat) (data : Data) (tree : Tree)
    (idx : N) (x : float) :
  tree_loop fuel data tree idx = Ok x ->
  tree_loop (fuel + extra) data tree idx = Ok x.
Proof.
  revert idx. induction fuel as [|fuel IH]; intros idx; [discriminate|].
  simpl. destruct (index tree idx) as [node| | |]; simpl; try done.
  destruct (feature node <? 0); [done | apply IH].
Qed.

(** Strictly bounded child indices keep every access inside the tree. *)
Lemma strict_children_lookup (tree : Tree) (i : nat) (node : Node) :
  strict_children tree = true -> tree !! i = Some node ->
  0 <= feature node ->
  (N.to_nat (yes node) < length tree)%nat /\
  (N.to_nat (no node) < length tree)%nat /\
  (N.to_nat (missing node) < length tree)%nat.
Proof.
  unfold strict_children. rewrite forallb_forall. intros Hall Hn Hf.
  apply list_elem_of_lookup_2, list_elem_of_In, Hall in Hn.
  unfold is_decision in Hn.
  apply orb_true_iff in Hn as [Hn | Hn].
  - apply negb_true_iff, Z.leb_gt in Hn. lia.
  - rewrite !andb_true_iff, !N.ltb_lt in Hn. lia.
Qed.

Lemma check_cycles_in_bounds (fuel : nat) (tree : Tree) (idx : N)
    (v : list bool) :
  strict_children tree = true ->
  (N.to_nat idx < length tree)%nat -> length v = length tree ->
  check_cycles fuel tree idx v <> OutOfBounds.
Proof.
  intros Hstrict. revert idx v.
  induction fuel as [|fuel IH]; intros idx v Hi Hv; [discriminate|].
  rewrite check_cycles_unfold.
  destruct (index_cases tree idx) as [(node & Hn & ->) | [Hge _]]; [|lia].
  cbn [bind]. destruct (Z.leb_spec 0 (feature node)) as [Hf|Hf];
    [|discriminate].
  destruct (index_cases v idx) as [(seen & _ & ->) | [Hge _]]; [|lia].
  cbn [bind]. destruct seen; [discriminate|].
  destruct (strict_children_lookup _ _ _ Hstrict Hn Hf) as (Hy & Hno & Hm).
  assert (forall go c w, (N.to_nat c < length tree)%nat ->
            length w = length tree ->
            guarded_walk fuel tree go c w <> OutOfBounds) as Hguard.
  { intros [] c w Hc Hw; simpl; [by apply IH | discriminate]. }
  destruct (check_cycles fuel tree (yes node) _) as [v1| | |] eqn:E1;
    cbn [bind]; try discriminate.
  - apply check_cycles_length in E1. rewrite length_insert in E1.
    destruct (guarded_walk fuel tree _ (no node) v1) as [v2| | |] eqn:E2;
      cbn [bind]; try discriminate.
    + apply Hguard; [done|]. apply guarded_walk_length in E2. congruence.
    + exfalso. revert E2. apply Hguard; [done | congruence].
  - exfalso. revert E1. apply IH; [done | by rewrite length_insert].
Qed.

Lemma tree_loop_in_bounds (fuel : nat) (data : Data) (tree : Tree) (idx : N) :
  strict_children tree = true -> (N.to_nat idx < length tree)%nat ->
  tree_loop fuel data tree idx <> OutOfBounds.
Proof.
  intros Hstrict. revert idx.
  induction fuel as [|fuel IH]; intros idx Hi; [discriminate|].
  simpl. destruct (index_cases tree idx) as [(node & Hn & ->) | [Hge _]];
    [|lia].
  cbn [bind]. destruct (Z.ltb_spec (feature node) 0) as [Hf|Hf];
    [discriminate|].
  destruct (strict_children_lookup _ _ _ Hstrict Hn Hf) as (Hy & Hno & Hm).
  apply IH. rewrite next_index_branch. by destruct (branch data node).
Qed.

(* ===================================================================== *)
(** * The logged walk *)
(* ===================================================================== *)

Lemma tbind_snd {A B : Type} (m : traced A) (k : A -> traced B) :
  (tbind m k).2 = bind m.2 (fun a => (k a).2).
Proof. unfold tbind. by destruct m as [calls []]. Qed.

Lemma guarded_traced_erase (fuel : nat)
    (tree : Tree) (go : bool) (idx : N) (v : list bool) :
  (forall c w, (check_cycles_traced fuel tree c w).2
               = check_cycles fuel tree c w) ->
  (guarded_traced fuel tree go idx v).2 = guarded_walk fuel tree go idx v.
Proof. intros H. destruct go; simpl; [apply H | done]. Qed.

(** One frame of the logged walk. *)
Lemma check_cycles_traced_frame (fuel : nat) (tree : Tree) (idx : N)
    (v : list bool) :
  check_cycles_traced (S fuel) tree idx v =
  let here := (idx, v !! N.to_nat idx) in
  match tree !! N.to_nat idx with
  | None => ([here], OutOfBounds)
  | Some node =>
      if 0 <=? feature node then
        match v !! N.to_nat idx with
        | None => ([here], OutOfBounds)
        | Some true => ([here], Throw CycleInTree)
        | Some false =>
            let rest :=
              tdo v1 <- check_cycles_traced fuel tree (yes node)
                          (<[N.to_nat idx := true]> v);
              tdo v2 <- guarded_traced fuel tree
                          (negb (no node =? yes node)%N) (no node) v1;
              guarded_traced fuel tree
                (negb (missing node =? yes node)%N
                 && negb (missing node =? no node)%N) (missing node) v2 in
            (here :: rest.1, rest.2)
        end
      else ([here], Ok v)
  end.
Proof.
  simpl. unfold index.
  destruct (tree !! N.to_nat idx) as [node|]; [|reflexivity].
  unfold tbind at 1 2; simpl.
  destruct (0 <=? feature node); [|reflexivity].
  destruct (v !! N.to_nat idx) as [[]|]; reflexivity.
Qed.

(** Erasing the log gives the walk of the source. *)
Lemma check_cycles_traced_erase (fuel : nat) (tree : Tree) (idx : N)
    (v : list bool) :
  (check_cycles_traced fuel tree idx v).2 = check_cycles fuel tree idx v.
Proof.
  revert idx v. induction fuel as [|fuel IH]; intros idx v; [reflexivity|].
  rewrite check_cycles_traced_frame, check_cycles_unfold. unfold index.
  destruct (tree !! N.to_nat idx) as [node|]; [|reflexivity].
  cbn [bind]. destruct (0 <=? feature node); [|reflexivity].
  destruct (v !! N.to_nat idx) as [[]|]; try reflexivity.
  cbn [bind snd]. rewrite tbind_snd, IH.
  destruct (check_cycles fuel tree (yes node) _) as [v1| | |];
    try reflexivity.
  cbn [bind]. rewrite tbind_snd, (guarded_traced_erase _ _ _ _ _ IH).
  destruct (guarded_walk fuel tree _ (no node) v1) as [v2| | |];
    try reflexivity.
  cbn [bind]. apply (guarded_traced_erase _ _ _ _ _ IH).
Qed.

(** A failure and the call that caused it: composition. *)
Lemma tbind_agrees {A B : Type} (bad : Call -> Prop) (r0 : outcome unit)
    (m : traced A) (k : A -> traced B) :
  (failure_of m.2 = Some r0 <-> Exists bad m.1) ->
  (forall a, m.2 = Ok a ->
     (failure_of (k a).2 = Some r0 <-> Exists bad (k a).1)) ->
  (failure_of (tbind m k).2 = Some r0 <-> Exists bad (tbind m k).1).
Proof.
  intros Hm Hk. unfold tbind. destruct m as [calls [a| | |]]; simpl in *;
    try done.
  specialize (Hk a eq_refl). rewrite Exists_app. split.
  - intros H. right. by apply Hk.
  - intros [H | H]; [|by apply Hk]. apply Hm in H. discriminate.
Qed.

Lemma lift_Ok_agrees {A : Type} (bad : Call -> Prop) (r0 : outcome unit)
    (a : A) :
  failure_of (lift (Ok a)).2 = Some r0 <-> Exists bad (lift (Ok a)).1.
Proof. simpl. split; [discriminate | by intros ?%Exists_nil]. Qed.

(** The walk throws the cycle error exactly when one of its calls lands on
    a decision node that is already marked. *)
Lemma check_cycles_traced_cycle (fuel : nat) (tree : Tree) (idx : N)
    (v : list bool) :
  failure_of (check_cycles_traced fuel tree idx v).2 = Some (Throw CycleInTree)
  <-> Exists (reaches_marked tree) (check_cycles_traced fuel tree idx v).1.
Proof.
  revert idx v. induction fuel as [|fuel IH]; intros idx v.
  { simpl. split; [discriminate | by intros ?%Exists_nil]. }
  assert (forall go c w,
            failure_of (guarded_traced fuel tree go c w).2
              = Some (Throw CycleInTree)
            <-> Exists (reaches_marked tree) (guarded_traced fuel tree go c w).1)
    as Hguard.
  { intros [] c w; [apply IH | apply lift_Ok_agrees]. }
  rewrite check_cycles_traced_frame. cbv zeta.
  destruct (tree !! N.to_nat idx) as [node|] eqn:En.
  2:{ simpl. split; [discriminate|]. rewrite Exists_cons, Exists_nil.
      intros [[(node & Hn & _) _] | []]. simpl in Hn. congruence. }
  destruct (Z.leb_spec 0 (feature node)) as [Hf|Hf].
  2:{ simpl. split; [discriminate|]. rewrite Exists_cons, Exists_nil.
      intros [[(node' & Hn & Hf') _] | []]. simpl in Hn. simplify_eq. lia. }
  destruct (v !! N.to_nat idx) as [[]|] eqn:Ev.
  - simpl. split; [|done]. intros _. apply Exists_cons_hd.
    split; [by exists node | done].
  - cbn [fst snd]. rewrite Exists_cons.
    rewrite (tbind_agrees (reaches_marked tree) (Throw CycleInTree));
      [| apply IH | intros v1 _; apply tbind_agrees; [apply Hguard|];
         intros v2 _; apply Hguard].
    split; [tauto|]. intros [[_ Hmark] | H]; [|done].
    simpl in Hmark. congruence.
  - simpl. split; [discriminate|]. rewrite Exists_cons, Exists_nil.
    intros [[_ Hmark] | []]. simpl in Hmark. congruence.
Qed.

(** The walk indexes past the end exactly when one of its calls is on an
    index that is not below [tree.size()]. *)
Lemma check_cycles_traced_past_end (fuel : nat) (tree : Tree) (idx : N)
    (v : list bool) :
  length v = length tree ->
  failure_of (check_cycles_traced fuel tree idx v).2 = Some OutOfBounds
  <-> Exists (reaches_past_end tree) (check_cycles_traced fuel tree idx v).1.
Proof.
  revert idx v. induction fuel as [|fuel IH]; intros idx v Hv.
  { simpl. split; [discriminate | by intros ?%Exists_nil]. }
  assert (forall go c w, length w = length tree ->
            failure_of (guarded_traced fuel tree go c w).2 = Some OutOfBounds
            <-> Exists (reaches_past_end tree)
                  (guarded_traced fuel tree go c w).1)
    as Hguard.
  { intros [] c w Hw; [by apply IH | apply lift_Ok_agrees]. }
  assert (forall go c w w', length w = length tree ->
            (guarded_traced fuel tree go c w).2 = Ok w' ->
            length w' = length tree) as Hlen.
  { intros go c w w' Hw. rewrite (guarded_traced_erase _ _ _ _ _
      (check_cycles_traced_erase fuel tree)). intros H.
    apply guarded_walk_length in H. congruence. }
  rewrite check_cycles_traced_frame. cbv zeta.
  destruct (tree !! N.to_nat idx) as [node|] eqn:En.
  2:{ simpl. split; [|done]. intros _. apply Exists_cons_hd.
      unfold reaches_past_end. simpl. apply lookup_ge_None in En. lia. }
  apply lookup_lt_Some in En as Hlt.
  destruct (0 <=? feature node).
  2:{ simpl. split; [discriminate|]. rewrite Exists_cons, Exists_nil.
      unfold reaches_past_end. simpl. lia. }
  destruct (v !! N.to_nat idx) as [[]|] eqn:Ev.
  - simpl. split; [discriminate|]. rewrite Exists_cons, Exists_nil.
    unfold reaches_past_end. simpl. lia.
  - cbn [fst snd]. rewrite Exists_cons.
    rewrite (tbind_agrees (reaches_past_end tree) OutOfBounds).
    + unfold reaches_past_end. simpl. split; [tauto|].
      intros [H | H]; [lia | done].
    + apply IH. by rewrite length_insert.
    + intros v1 H1. rewrite check_cycles_traced_erase in H1.
      apply check_cycles_length in H1. rewrite length_insert in H1.
      apply tbind_agrees; [apply Hguard; congruence|].
      intros v2 H2. apply Hguard. eapply Hlen; [|exact H2]. congruence.
  - apply lookup_ge_None in Ev. lia.
Qed.

(* ===================================================================== *)
(** * Chains of child edges *)
(* ===================================================================== *)

Lemma chain_app (tree : Tree) (i j k : N) (n m : nat) :
  chain tree i n j -> chain tree j m k -> chain tree i (n + m) k.
Proof.
  induction 1 as [|i c j n Hc _ IH]; intros H; [done|].
  simpl. econstructor; [exact Hc | by apply IH].
Qed.

Lemma chain_iter (tree : Tree) (j : N) (m k : nat) :
  chain tree j m j -> chain tree j (k * m) j.
Proof.
  intros H. induction k as [|k IH]; simpl; [constructor|].
  by eapply chain_app.
Qed.

(** A leaf that the descent returns is the end of a chain from its start. *)
Lemma tree_loop_Ok_leaf (fuel : nat) (data : Data) (tree : Tree) (idx : N)
    (x : float) :
  tree_loop fuel data tree idx = Ok x ->
  exists steps j node,
    (steps < fuel)%nat /\ chain tree idx steps j /\
    tree !! N.to_nat j = Some node /\ feature node < 0 /\ x = value node /\
    tree_loop (S steps) data tree idx = Ok x.
Proof.
  revert idx. induction fuel as [|fuel IH]; intros idx H; [discriminate|].
  simpl in H. apply bind_Ok_inv in H as (node & Hn & H).
  pose proof Hn as Hn'. apply index_Ok in Hn'.
  destruct (Z.ltb_spec (feature node) 0) as [Hf|Hf].
  - injection H as <-. exists O, idx, node.
    repeat split; try done; [lia | constructor|].
    simpl. rewrite Hn. simpl.
    by destruct (Z.ltb_spec (feature node) 0); [|lia].
  - apply IH in H as (steps & j & leaf & Hs & Hc & Hl & Hlf & -> & Hrun).
    exists (S steps), j, leaf. repeat split; try done; [lia | |].
    + econstructor; [|exact Hc]. exists node. split; [done|]. split; [done|].
      rewrite next_index_branch. destruct (branch data node); simpl; tauto.
    + remember (S steps) as fuel' eqn:Efuel. simpl. rewrite Hn. simpl.
      by destruct (Z.ltb_spec (feature node) 0); [lia|].
Qed.

(* ===================================================================== *)
(** * The validator as a whole *)
(* ===================================================================== *)

Lemma check_empty : check [] = Throw EmptyTree.
Proof. reflexivity. Qed.

Lemma check_nonempty (tree : Tree) :
  tree <> [] ->
  check tree =
  do _ <- check_indices (N.of_nat (length tree)) tree;
  do _ <- check_cycles (check_fuel tree) tree 0%N
            (replicate (length tree) false);
  Ok tt.
Proof. by destruct tree. Qed.

(** The walk of [check] always comes back: its fuel is never exhausted. *)
Lemma check_walk_returns (tree : Tree) :
  check_cycles (check_fuel tree) tree 0%N (replicate (length tree) false)
  <> OutOfFuel.
Proof.
  apply check_cycles_fuel. rewrite length_replicate, marks_replicate_false.
  unfold check_fuel. lia.
Qed.

(** Any larger recursion budget gives the same verdict. *)
Lemma check_walk_any_fuel (tree : Tree) (extra : nat) :
  check_cycles (extra + check_fuel tree) tree 0%N
    (replicate (length tree) false)
  = check_cycles (check_fuel tree) tree 0%N (replicate (length tree) false).
Proof.
  apply check_cycles_enough. rewrite length_replicate, marks_replicate_false.
  unfold check_fuel. lia.
Qed.

Lemma check_Ok_inv (tree : Tree) :
  check tree = Ok tt ->
  tree <> [] /\
  check_indices (N.of_nat (length tree)) tree = Ok tt /\
  exists v', check_cycles (check_fuel tree) tree 0%N
               (replicate (length tree) false) = Ok v'.
Proof.
  destruct tree as [|node rest]; [discriminate|]. intros H.
  rewrite check_nonempty in H by done.
  apply bind_Ok_inv in H as ([] & Hi & H).
  apply bind_Ok_inv in H as (v' & Hc & _). eauto.
Qed.

Lemma strict_children_indices (tree : Tree) :
  strict_children tree = true ->
  check_indices (N.of_nat (length tree)) tree = Ok tt.
Proof.
  intros Hstrict.
  destruct (check_indices_cases (N.of_nat (length tree)) tree)
    as [[_ Hex] | [H _]]; [exfalso | done].
  apply Exists_exists in Hex as (node & Hin & Hf & Habove).
  apply list_elem_of_lookup in Hin as (i & Hi).
  destruct (strict_children_lookup _ _ _ Hstrict Hi Hf). lia.
Qed.

(** An accepted tree has no chain from the root longer than the tree. *)
Lemma check_Ok_chain (tree : Tree) (n : nat) (j : N) :
  check tree = Ok tt -> chain tree 0%N n j -> (n <= length tree)%nat.
Proof.
  intros H Hc. apply check_Ok_inv in H as (_ & _ & v' & Hw).
  pose proof (check_cycles_chain _ _ _ _ _ _ _ Hw Hc) as Hn.
  pose proof (marks_le_length v') as Hm.
  apply check_cycles_length in Hw. rewrite length_replicate in Hw. lia.
Qed.

(** An accepted tree has no cycle that the root can reach. *)
Lemma check_Ok_acyclic (tree : Tree) (n m : nat) (j : N) :
  check tree = Ok tt -> chain tree 0%N n j -> ~ chain tree j (S m) j.
Proof.
  intros H Hroot Hloop.
  pose proof (chain_app _ _ _ _ _ _ Hroot
                (chain_iter _ _ _ (S (length tree)) Hloop)) as Hlong.
  apply (check_Ok_chain _ _ _ H) in Hlong. simpl in Hlong. nia.
Qed.

Lemma forallb_false_elem {A : Type} (f : A -> bool) (l : list A) :
  forallb f l = false -> exists x, x ∈ l /\ f x = false.
Proof.
  induction l as [|a l IH]; simpl; [discriminate|].
  destruct (f a) eqn:Ea; simpl.
  - intros (x & Hx & Hfx)%IH. exists x. split; [by right | done].
  - intros _. exists a. split; [by left | done].
Qed.

Lemma check_traced_failure (tree : Tree) (r0 : outcome unit) :
  tree <> [] -> check_indices (N.of_nat (length tree)) tree = Ok tt ->
  (forall a : unit, r0 <> Ok a) ->
  check tree = r0 <->
  failure_of (check_cycles_traced (check_fuel tree) tree 0%N
                (replicate (length tree) false)).2 = Some r0.
Proof.
  intros Hne Hi Hr0. rewrite check_nonempty, Hi, check_cycles_traced_erase
    by done.
  cbn [bind].
  destruct (check_cycles _ tree 0%N _) as [v'| | |]; simpl;
    (split; [intros <- | intros H]); try done; try congruence.
Qed.

(** The descent of an accepted tree returns within [tree.size() + 1]
    turns of the loop. *)
Lemma checked_tree_returns (tree : Tree) (data : Data) (fuel : nat) :
  check tree = Ok tt -> (length tree < fuel)%nat ->
  exists x, predict_tree fuel data tree = Ok x.
Proof.
  intros (_ & _ & v' & Hw)%check_Ok_inv Hfuel.
  destruct (check_cycles_descent _ _ _ _ _ data Hw) as (n & x & Hn & Hrun).
  pose proof (marks_le_length v') as Hm.
  apply check_cycles_length in Hw. rewrite length_replicate in Hw.
  exists x. unfold predict_tree.
  replace fuel with (n + (fuel - n))%nat by lia.
  by apply tree_loop_stable.
Qed.

(** Validation indexes past the end only in a tree that has a decision node
    with a child index equal to [tree.size()]. *)
Lemma check_OutOfBounds_child (tree : Tree) :
  check tree = OutOfBounds ->
  one_past_end_child tree /\ strict_children tree = false.
Proof.
  intros Hoob.
  assert (tree <> []) as Hne by (intros ->; done).
  destruct (check_indices_cases (N.of_nat (length tree)) tree)
    as [[Hi _] | [Hi Hall]].
  { rewrite check_nonempty, Hi in Hoob by done. discriminate. }
  destruct (strict_children tree) eqn:Hs.
  { exfalso. rewrite check_nonempty, Hi in Hoob by done. cbn [bind] in Hoob.
    assert (N.to_nat 0 < length tree)%nat as Hroot
      by (destruct tree; [done | simpl; lia]).
    pose proof (check_cycles_in_bounds (check_fuel tree) tree 0%N
                  (replicate (length tree) false) Hs Hroot
                  (length_replicate _ _)) as Hin.
    destruct (check_cycles _ tree 0%N _); cbn [bind] in Hoob; done. }
  split; [|done].
  apply forallb_false_elem in Hs as (node & Hin & Hnode).
  rewrite Forall_forall in Hall. specialize (Hall node Hin).
  apply list_elem_of_lookup in Hin as (i & Hi').
  unfold is_decision in Hnode.
  rewrite orb_false_iff, negb_false_iff, !andb_false_iff, !N.ltb_ge,
    Z.leb_le in Hnode.
  destruct Hnode as [Hf Hge]. unfold child_above in Hall.
  exists (N.of_nat i), node. rewrite Nat2N.id.
  split; [done|]. split; [done|]. lia.
Qed.

(** A validation that does not throw has returned, or has indexed past the
    end of the tree. *)
Lemma check_not_thrown (tree : Tree) :
  not_thrown (check tree) -> check tree = Ok tt \/ check tree = OutOfBounds.
Proof.
  intros Hno. destruct (check tree) as [[]|e| |] eqn:Ec; [by left | | by right |].
  - by destruct (Hno e).
  - exfalso. destruct tree as [|n0 rest] eqn:Et; [done|]. rewrite <- Et in *.
    rewrite check_nonempty in Ec by congruence.
    destruct (check_indices _ tree) as [[]| | |] eqn:Ei; cbn [bind] in Ec;
      try discriminate.
    + pose proof (check_walk_returns tree) as Hfuel.
      destruct (check_cycles _ tree 0%N _); cbn [bind] in Ec; done.
    + destruct (check_indices_cases (N.of_nat (length tree)) tree)
        as [[Hi _] | [Hi _]]; congruence.
Qed.

(* ===================================================================== *)
(** * Properties of the validator *)
(* ===================================================================== *)

(** C3. The range loop of the validator throws "index out of range" exactly
    when some decision node has a yes, no or missing index strictly greater
    than the node count of the tree; the loop lets a tree through exactly
    when every decision node's indices are at most the node count, so an
    index equal to [tree.size()] passes. *)
Theorem check_index_range (tree : Tree) :
  let size := N.of_nat (length tree) in
  (check tree = Throw IndexOutOfRange <->
   exists node, node ∈ tree /\ child_above size node) /\
  (check_indices size tree = Ok tt <->
   forall node, node ∈ tree -> 0 <= feature node ->
     (yes node <= size /\ no node <= size /\ missing node <= size)%N).
Proof.
  intros size. subst size.
  destruct (check_indices_cases (N.of_nat (length tree)) tree)
    as [[Hi Hex] | [Hi Hall]].
  - apply Exists_exists in Hex as (node & Hin & Hnode).
    assert (tree <> []) as Hne by (intros ->; by apply elem_of_nil in Hin).
    split.
    + rewrite check_nonempty, Hi by done. simpl. split; [eauto | done].
    + rewrite Hi. split; [discriminate|]. intros H.
      destruct Hnode as [Hf Habove]. specialize (H node Hin Hf). lia.
  - rewrite Forall_forall in Hall. split.
    + split.
      * destruct tree as [|n0 rest]; [discriminate|].
        rewrite check_nonempty, Hi by done. cbn [bind].
        destruct (check_cycles _ _ 0%N _) as [v'|e| |] eqn:Ew; simpl;
          try discriminate.
        apply check_cycles_Throw in Ew. congruence.
      * intros (node & Hin & Hnode). by destruct (Hall node Hin).
    + split; [|done]. intros _ node Hin Hf.
      specialize (Hall node Hin). unfold child_above in Hall. lia.
Qed.

(** C4, as amended.  Validation throws the cycle error exactly when a call
    of its depth-first walk lands on a decision node that is already marked;
    a call that returns from a decision node found it unmarked and leaves it
    marked; a call on a leaf returns at once and marks nothing; a tree in
    which the root reaches, through child edges, a decision node that leads
    back to itself (a self reference or a mutual reference) is never
    accepted, and is rejected with the cycle error when all child indices
    are below [tree.size()]; two decision nodes may share a leaf child in an
    accepted tree. *)
Theorem check_cycle_detection :
  (forall tree : Tree,
     check tree = Throw CycleInTree <->
     Exists (reaches_marked tree) (check_calls tree)) /\
  (forall (fuel : nat) (tree : Tree) (idx : N) (v v' : list bool),
     decision_at tree idx -> check_cycles fuel tree idx v = Ok v' ->
     v !! N.to_nat idx = Some false /\ v' !! N.to_nat idx = Some true) /\
  (forall (fuel : nat) (tree : Tree) (idx : N) (v : list bool),
     leaf_at tree idx -> check_cycles (S fuel) tree idx v = Ok v) /\
  (forall (tree : Tree) (n m : nat) (j : N),
     chain tree 0%N n j -> chain tree j (S m) j ->
     check tree <> Ok tt /\
     (strict_children tree = true -> check tree = Throw CycleInTree)) /\
  (exists (tree : Tree) (a b l : N),
     a <> b /\ decision_at tree a /\ decision_at tree b /\
     child_of tree a l /\ child_of tree b l /\ leaf_at tree l /\
     check tree = Ok tt).
Proof.
  split; [|split; [apply check_cycles_marks_node|split; [|split]]].
  - intros tree. unfold check_calls.
    destruct tree as [|n0 rest] eqn:Et.
    { simpl. split; [discriminate | by intros ?%Exists_nil]. }
    rewrite <- Et. assert (tree <> []) as Hne by congruence.
    destruct (check_indices_cases (N.of_nat (length tree)) tree)
      as [[Hi _] | [Hi _]]; rewrite Hi.
    + rewrite check_nonempty, Hi by done. simpl.
      split; [discriminate | by intros ?%Exists_nil].
    + rewrite check_traced_failure by done.
      apply check_cycles_traced_cycle.
  - intros fuel tree idx v (node & Hn & Hf).
    rewrite check_cycles_unfold. apply index_Ok in Hn. rewrite Hn.
    cbn [bind]. by destruct (Z.leb_spec 0 (feature node)); [lia|].
  - intros tree n m j Hroot Hloop.
    assert (check tree <> Ok tt) as Hno.
    { intros H. by eapply check_Ok_acyclic. }
    split; [done|]. intros Hstrict.
    assert (tree <> []) as Hne.
    { intros ->. inversion Hloop as [|? ? ? ? (node & Hn & _)]; subst.
      by rewrite lookup_nil in Hn. }
    pose proof (check_walk_returns tree) as Hfuel.
    assert (check_cycles (check_fuel tree) tree 0%N
              (replicate (length tree) false) <> OutOfBounds) as Hin.
    { apply check_cycles_in_bounds; [done| |by rewrite length_replicate].
      destruct tree; [done | simpl; lia]. }
    rewrite check_nonempty, (strict_children_indices _ Hstrict) in Hno |- *
      by done.
    cbn [bind] in *.
    destruct (check_cycles _ tree 0%N _) as [v'|e| |] eqn:Ew; cbn [bind] in *;
      try done.
    apply check_cycles_Throw in Ew. by subst.
  - exists shared_leaf_tree, 1%N, 2%N, 3%N.
    split; [done|].
    split; [by eexists; split; [reflexivity | simpl; lia]|].
    split; [by eexists; split; [reflexivity | simpl; lia]|].
    split; [eexists; split; [reflexivity | simpl; split; [lia | tauto]]|].
    split; [eexists; split; [reflexivity | simpl; split; [lia | tauto]]|].
    split; [by eexists; split; [reflexivity | simpl; lia]|].
    reflexivity.
Qed.

(** C8, with the input where the code departs from it.  When validation
    returns without indexing past the end of the tree, the descent reaches a
    leaf after at most [tree.size()] steps, for any feature vector: every
    run with more fuel than that number of steps returns the value of that
    leaf.  But a validation that does not throw need not have stayed inside
    the tree: the range loop lets a child index equal to [tree.size()]
    through, and the walk then reads [tree[tree.size()]].  The loader builds
    such a tree from the tree object with left children [3, -1, -1]: no
    exception rejects it, and the descent on it reads past the end as soon
    as feature 0 is missing or below the threshold, so no leaf of the tree
    is reached. *)
Theorem validated_descent_terminates :
  (forall (tree : Tree) (data : Data),
     check tree = Ok tt ->
     exists (steps : nat) (j : N) (node : Node),
       (steps <= length tree)%nat /\ chain tree 0%N steps j /\
       tree !! N.to_nat j = Some node /\ feature node < 0 /\
       forall fuel, (steps < fuel)%nat ->
         predict_tree fuel data tree = Ok (value node)) /\
  (forall tree : Tree,
     not_thrown (check tree) -> check tree <> Ok tt ->
     check tree = OutOfBounds /\ one_past_end_child tree) /\
  build_nodes past_end_json (seq 0 3) [] = Ok past_end_child_tree /\
  check_indices 3 past_end_child_tree = Ok tt /\
  check past_end_child_tree = OutOfBounds /\
  parse_tree past_end_json = OutOfBounds /\
  not_thrown (parse_tree past_end_json) /\
  (forall fuel, (1 < fuel)%nat ->
     predict_tree fuel [] past_end_child_tree = OutOfBounds /\
     predict_tree fuel sample_data past_end_child_tree = OutOfBounds).
Proof.
  split; [|split].
  - intros tree data Hcheck. pose proof Hcheck as Hinv.
    apply check_Ok_inv in Hinv as (_ & _ & v' & Hw).
    destruct (check_cycles_descent _ _ _ _ _ data Hw) as (n & x & _ & Hrun).
    apply tree_loop_Ok_leaf in Hrun
      as (steps & j & node & _ & Hc & Hn & Hf & -> & Hrun).
    exists steps, j, node. repeat split; try done.
    + by eapply check_Ok_chain.
    + intros fuel Hfuel. unfold predict_tree.
      replace fuel with (S steps + (fuel - S steps))%nat by lia.
      by apply tree_loop_stable.
  - intros tree Hno Hnot.
    destruct (check_not_thrown tree Hno) as [H | H]; [done|].
    split; [done|]. by apply check_OutOfBounds_child.
  - split; [reflexivity|]. split; [reflexivity|].
    split; [reflexivity|]. split; [reflexivity|].
    split; [intros e; discriminate|].
    intros fuel Hfuel. destruct fuel as [|[|fuel]]; [lia | lia |].
    split; reflexivity.
Qed.

(** C10, as amended.  The walk indexes [tree] and [visited] without a bounds
    guard: validation indexes past the end exactly when a call of its walk is
    on an index that is not below [tree.size()]; a call on the index
    [tree.size()] does so at once, hence a tree whose root has a yes child
    equal to [tree.size()] and that passes the range loop is neither rejected
    nor accepted; such an access only happens in a tree with a child index
    equal to [tree.size()]; and in a non-empty tree whose decision nodes all
    have child indices strictly below [tree.size()], neither validation nor
    the descent ever indexes past the end. *)
Theorem check_past_end_access :
  (forall tree : Tree,
     check tree = OutOfBounds <->
     Exists (reaches_past_end tree) (check_calls tree)) /\
  (forall (fuel : nat) (tree : Tree) (v : list bool),
     check_cycles (S fuel) tree (N.of_nat (length tree)) v = OutOfBounds) /\
  (forall (tree : Tree) (root : Node),
     tree !! O = Some root -> 0 <= feature root ->
     yes root = N.of_nat (length tree) ->
     check_indices (N.of_nat (length tree)) tree = Ok tt ->
     check tree = OutOfBounds) /\
  (forall tree : Tree, check tree = OutOfBounds -> one_past_end_child tree) /\
  (forall tree : Tree,
     tree <> [] -> strict_children tree = true ->
     check tree <> OutOfBounds /\
     forall (fuel : nat) (data : Data),
       predict_tree fuel data tree <> OutOfBounds).
Proof.
  assert (forall tree : Tree,
            tree <> [] -> strict_children tree = true ->
            check tree <> OutOfBounds /\
            forall (fuel : nat) (data : Data),
              predict_tree fuel data tree <> OutOfBounds) as Hstrict.
  { intros tree Hne Hstrict.
    assert (N.to_nat 0 < length tree)%nat as Hroot
      by (destruct tree; [done | simpl; lia]).
    split.
    - rewrite check_nonempty, (strict_children_indices _ Hstrict) by done.
      cbn [bind].
      pose proof (check_cycles_in_bounds (check_fuel tree) tree 0%N
                    (replicate (length tree) false) Hstrict Hroot
                    (length_replicate _ _)) as Hin.
      destruct (check_cycles _ tree 0%N _); cbn [bind]; done.
    - intros fuel data. by apply tree_loop_in_bounds. }
  split; [|split; [|split; [|split]]]; [| | | |exact Hstrict].
  - intros tree. unfold check_calls.
    destruct tree as [|n0 rest] eqn:Et.
    { simpl. split; [discriminate | by intros ?%Exists_nil]. }
    rewrite <- Et. assert (tree <> []) as Hne by congruence.
    destruct (check_indices_cases (N.of_nat (length tree)) tree)
      as [[Hi _] | [Hi _]]; rewrite Hi.
    + rewrite check_nonempty, Hi by done. simpl.
      split; [discriminate | by intros ?%Exists_nil].
    + rewrite check_traced_failure by done.
      apply check_cycles_traced_past_end, length_replicate.
  - intros fuel tree v. rewrite check_cycles_unfold.
    destruct (index_cases tree (N.of_nat (length tree)))
      as [(node & Hn & _) | [_ ->]]; [|done].
    apply lookup_lt_Some in Hn. lia.
  - intros tree root Hroot Hf Hyes Hi.
    assert (tree <> []) as Hne by (intros ->; done).
    rewrite check_nonempty, Hi by done. cbn [bind].
    unfold check_fuel. rewrite check_cycles_unfold.
    unfold index at 1. change (N.to_nat 0) with O. rewrite Hroot.
    cbn [bind]. destruct (Z.leb_spec 0 (feature root)); [|lia].
    unfold index at 1. change (N.to_nat 0) with O.
    destruct tree as [|n0 rest]; [done|]. simpl length. simpl replicate.
    cbn [lookup list_lookup bind]. rewrite check_cycles_unfold.
    rewrite Hyes. unfold index at 1.
    rewrite (proj2 (lookup_ge_None (n0 :: rest) _)) by (simpl; lia).
    reflexivity.
  - intros tree Hoob.
    assert (tree <> []) as Hne by (intros ->; done).
    destruct (check_indices_cases (N.of_nat (length tree)) tree)
      as [[Hi _] | [Hi Hall]].
    { rewrite check_nonempty, Hi in Hoob by done. discriminate. }
    destruct (strict_children tree) eqn:Hs.
    { by destruct (Hstrict tree Hne Hs). }
    apply forallb_false_elem in Hs as (node & Hin & Hnode).
    rewrite Forall_forall in Hall. specialize (Hall node Hin).
    apply list_elem_of_lookup in Hin as (i & Hi').
    unfold is_decision in Hnode.
    rewrite orb_false_iff, negb_false_iff, !andb_false_iff, !N.ltb_ge,
      Z.leb_le in Hnode.
    destruct Hnode as [Hf Hge]. unfold child_above in Hall.
    exists (N.of_nat i), node. rewrite Nat2N.id.
    split; [done|]. split; [done|]. lia.
Qed.

(** C2. At a decision node the descent branches by the feature the node
    names.  One turn of the loop goes on at the yes child when the feature
    index is within the vector, the slot holds a value and that value is
    strictly less than the threshold; at the no child when the slot holds a
    value that is not strictly less; at the missing child when the index is
    out of range or the slot is marked missing.  The assignment executed is
    the yes one, the no one, the missing one exactly under these conditions,
    and the next turn reads the node at the index so chosen: when that node
    is a leaf the descent returns its value, and when the index is past the
    end the next turn indexes past the end. *)
Theorem tree_branching (fuel : nat) (data : Data) (tree : Tree) (idx : N)
    (node : Node) :
  tree !! N.to_nat idx = Some node ->
  0 <= feature node -> is_int (feature node) ->
  let f := Z.to_nat (feature node) in
  tree_loop (S fuel) data tree idx
    = tree_loop fuel data tree (next_index data node) /\
  next_index data node = child node (branch data node) /\
  (branch data node = TakeYes <->
   exists x, (f < length data)%nat /\ data !! f = Some (Some x) /\
             F32.ltb x (value node) = true) /\
  (branch data node = TakeNo <->
   exists x, (f < length data)%nat /\ data !! f = Some (Some x) /\
             F32.ltb x (value node) = false) /\
  (branch data node = TakeMissing <->
   (length data <= f)%nat \/ data !! f = Some None) /\
  (forall x, (f < length data)%nat -> data !! f = Some (Some x) ->
     F32.ltb x (value node) = true ->
     tree_loop (S fuel) data tree idx
       = tree_loop fuel data tree (yes node)) /\
  (forall x, (f < length data)%nat -> data !! f = Some (Some x) ->
     F32.ltb x (value node) = false ->
     tree_loop (S fuel) data tree idx
       = tree_loop fuel data tree (no node)) /\
  ((length data <= f)%nat \/ data !! f = Some None ->
   tree_loop (S fuel) data tree idx
     = tree_loop fuel data tree (missing node)) /\
  (forall taken,
     tree !! N.to_nat (child node (branch data node)) = Some taken ->
     feature taken < 0 ->
     tree_loop (S (S fuel)) data tree idx = Ok (value taken)) /\
  (tree !! N.to_nat (child node (branch data node)) = None ->
   tree_loop (S (S fuel)) data tree idx = OutOfBounds).
Proof.
  intros Hn Hf Hint f.
  assert (forall k, tree_loop (S k) data tree idx
                    = tree_loop k data tree (next_index data node)) as Hstep.
  { intros k. simpl. rewrite (proj2 (index_Ok tree idx node) Hn). cbn [bind].
    by destruct (Z.ltb_spec (feature node) 0); [lia|]. }
  assert ((branch data node = TakeYes <->
           exists x, (f < length data)%nat /\ data !! f = Some (Some x) /\
                     F32.ltb x (value node) = true) /\
          (branch data node = TakeNo <->
           exists x, (f < length data)%nat /\ data !! f = Some (Some x) /\
                     F32.ltb x (value node) = false) /\
          (branch data node = TakeMissing <->
           (length data <= f)%nat \/ data !! f = Some None))
    as (Hyes & Hno & Hmiss).
  { unfold branch, uint_of_int. unfold is_int in Hint.
    rewrite Z.mod_small by lia. fold f.
    destruct (N.ltb_spec (Z.to_N (feature node)) (N.of_nat (length data)))
      as [Hlt|Hge].
    - assert (f < length data)%nat as Hlt' by lia.
      destruct (data !! f) as [[x|]|] eqn:Ed.
      + destruct (F32.ltb x (value node)) eqn:Ex.
        * split; [|split].
          -- split; [eauto|done].
          -- split; [done|]. intros (y & _ & [= <-] & Hy). congruence.
          -- split; [done|]. intros [H | H]; [lia | done].
        * split; [|split].
          -- split; [done|]. intros (y & _ & [= <-] & Hy). congruence.
          -- split; [eauto|done].
          -- split; [done|]. intros [H | H]; [lia | done].
      + split; [|split].
        * split; [done|]. by intros (y & _ & ? & _).
        * split; [done|]. by intros (y & _ & ? & _).
        * split; [by right | done].
      + apply lookup_ge_None in Ed. lia.
    - assert (length data <= f)%nat as Hge' by lia.
      split; [|split].
      + split; [done|]. intros (y & ? & _). lia.
      + split; [done|]. intros (y & ? & _). lia.
      + split; [by left | done]. }
  pose proof (next_index_branch data node) as Hnext.
  split; [apply Hstep|]. split; [exact Hnext|].
  split; [exact Hyes|]. split; [exact Hno|]. split; [exact Hmiss|].
  split; [|split; [|split; [|split]]].
  - intros x Hlt Hx Hcmp. rewrite Hstep, Hnext.
    by rewrite (proj2 Hyes (ex_intro _ x (conj Hlt (conj Hx Hcmp)))).
  - intros x Hlt Hx Hcmp. rewrite Hstep, Hnext.
    by rewrite (proj2 Hno (ex_intro _ x (conj Hlt (conj Hx Hcmp)))).
  - intros Habsent. rewrite Hstep, Hnext. by rewrite (proj2 Hmiss Habsent).
  - intros taken Htaken Hleaf. rewrite Hstep, Hnext. simpl.
    rewrite (proj2 (index_Ok tree _ taken) Htaken). cbn [bind].
    by destruct (Z.ltb_spec (feature taken) 0); [|lia].
  - intros Hnone. rewrite Hstep, Hnext. simpl. unfold index.
    by rewrite Hnone.
Qed.

(* ===================================================================== *)
(** * Group assembly *)
(* ===================================================================== *)

Lemma max_group_lower (info : list Z) : -1 <= max_group info.
Proof. induction info as [|g info IH]; simpl; lia. Qed.

Lemma max_group_elem (info : list Z) (g : Z) :
  g ∈ info -> g <= max_group info.
Proof.
  induction 1 as [g info | g g' info _ IH]; simpl; lia.
Qed.

Lemma max_group_snoc (info : list Z) (g : Z) :
  max_group (info ++ [g]) = Z.max (max_group info) g.
Proof.
  unfold max_group.
  induction info as [|g' info IH]; cbn [app foldr]; [lia | rewrite IH; lia].
Qed.

Lemma trees_of_group_absent (predictor : Predictor) (info : list Z) (g : Z) :
  g ∉ info -> trees_of_group predictor info g = [].
Proof.
  intros Hg. unfold trees_of_group.
  destruct (omap _ (zip predictor info)) as [|tree rest] eqn:E; [done|].
  assert (tree ∈ omap
            (fun p : list Node * Z => if decide (p.2 = g) then Some p.1 else None)
            (zip predictor info)) as Hin by (rewrite E; left).
  apply list_elem_of_omap in Hin as ([t gi] & Hin & Hsome).
  simpl in Hsome. destruct (decide (gi = g)) as [->|]; [|done].
  by apply elem_of_zip_r in Hin.
Qed.

Lemma trees_of_group_snoc (predictor : Predictor) (info : list Z) (g k : Z)
    (tree : list Node) :
  predictor !! length info = Some tree ->
  trees_of_group predictor (info ++ [g]) k
  = trees_of_group predictor info k ++ (if decide (g = k) then [tree] else []).
Proof.
  unfold trees_of_group. revert predictor.
  induction info as [|d info IH]; intros [|p predictor] H; simplify_eq/=.
  - destruct predictor; simpl; by destruct (decide (g = k)).
  - rewrite (IH predictor H). by destruct (decide (d = k)).
Qed.

Lemma grouped_length (predictor : Predictor) (info : list Z) :
  Z.of_nat (length (grouped predictor info)) = 1 + max_group info.
Proof.
  unfold grouped. rewrite length_fmap, length_seq.
  pose proof (max_group_lower info). lia.
Qed.

Lemma grouped_lookup (predictor : Predictor) (info : list Z) (k : nat) :
  grouped predictor info !! k =
  if decide (Z.of_nat k <= max_group info)
  then Some (trees_of_group predictor info (Z.of_nat k)) else None.
Proof.
  unfold grouped. rewrite list_lookup_fmap.
  pose proof (max_group_lower info).
  destruct (decide (Z.of_nat k <= max_group info)).
  - rewrite lookup_seq_lt by lia. reflexivity.
  - rewrite lookup_seq_ge by lia. reflexivity.
Qed.

(** One turn of the loop extends the grouping by one entry. *)
Lemma grouped_snoc (predictor : Predictor) (info : list Z) (g : Z)
    (tree : Tree) (slot : Predictor) (n : nat) :
  0 <= g ->
  predictor !! length info = Some tree ->
  n = Nat.max (length (grouped predictor info)) (S (Z.to_nat g)) ->
  resize n [] (grouped predictor info) !! Z.to_nat g = Some slot ->
  <[Z.to_nat g := slot ++ [tree]]> (resize n [] (grouped predictor info))
  = grouped predictor (info ++ [g]).
Proof.
  intros Hg Htree -> Hslot.
  pose proof (grouped_length predictor info) as Hlen.
  pose proof (max_group_lower info) as Hlow.
  apply list_eq. intros k.
  rewrite grouped_lookup, max_group_snoc.
  rewrite (trees_of_group_snoc _ _ _ _ _ Htree).
  assert (forall j, (j < Nat.max (length (grouped predictor info))
                                 (S (Z.to_nat g)))%nat ->
            resize (Nat.max (length (grouped predictor info)) (S (Z.to_nat g)))
              [] (grouped predictor info) !! j
            = Some (trees_of_group predictor info (Z.of_nat j))) as Hres.
  { intros j Hj.
    destruct (decide (j < length (grouped predictor info))%nat) as [Hin|Hout].
    - rewrite lookup_resize by lia. rewrite grouped_lookup.
      by destruct (decide (Z.of_nat j <= max_group info)); [|lia].
    - rewrite lookup_resize_new by lia. rewrite trees_of_group_absent; [done|].
      intros Hin%max_group_elem. lia. }
  destruct (decide (k = Z.to_nat g)) as [->|Hk].
  - rewrite list_lookup_insert_eq by (rewrite length_resize; lia).
    rewrite Hres in Hslot by lia. injection Hslot as <-.
    rewrite Z2Nat.id by lia.
    destruct (decide (g <= Z.max (max_group info) g)); [|lia].
    by destruct (decide (g = g)).
  - rewrite list_lookup_insert_ne by done.
    destruct (decide (Z.of_nat k <= Z.max (max_group info) g)) as [Hle|Hgt].
    + rewrite Hres by lia.
      destruct (decide (g = Z.of_nat k)); [lia|]. by rewrite app_nil_r.
    + apply lookup_resize_old. lia.
Qed.

(** The size the loop resizes to. *)
Lemma resize_target (g : Z) (size : nat) :
  0 <= g -> is_int g ->
  N.to_nat (if (N.of_nat size <? uint_add (uint_of_int g) 1)%N
            then uint_add (uint_of_int g) 1 else N.of_nat size)
  = Nat.max size (S (Z.to_nat g)).
Proof.
  unfold is_int, uint_add, uint_of_int. intros Hg Hint.
  rewrite Z.mod_small by lia.
  assert ((Z.to_N g + 1) mod 2 ^ 32 = Z.to_N g + 1)%N as ->.
  { apply N.mod_small. assert (2 ^ 32 = 4294967296)%N as -> by reflexivity.
    lia. }
  destruct (N.ltb_spec (N.of_nat size) (Z.to_N g + 1)); lia.
Qed.

Lemma build_predictors_loop_Ok (predictor : Predictor) (done rest : list Z) :
  Forall is_int rest -> Forall (fun g => 0 <= g) rest ->
  (length done + length rest <= length predictor)%nat ->
  build_predictors_loop predictor (length done) rest (grouped predictor done)
  = Ok (grouped predictor (done ++ rest)).
Proof.
  revert done. induction rest as [|g rest IH]; intros done Hint Hpos Hlen.
  { by rewrite app_nil_r. }
  apply Forall_cons in Hint as [Hg Hint]. apply Forall_cons in Hpos as [Hg0 Hpos].
  simpl in Hlen. cbn [build_predictors_loop].
  destruct (Z.ltb_spec g 0) as [|_]; [lia|].
  rewrite resize_target by done.
  destruct (index_in_range predictor (N.of_nat (length done)))
    as (tree & Htree); [lia|].
  rewrite Htree. cbn [bind]. apply index_Ok in Htree.
  rewrite Nat2N.id in Htree.
  destruct (index_in_range
              (resize (Nat.max (length (grouped predictor done))
                         (S (Z.to_nat g))) [] (grouped predictor done))
              (Z.to_N g)) as (slot & Hslot).
  { rewrite length_resize. lia. }
  rewrite Hslot. cbn [bind]. apply index_Ok in Hslot.
  rewrite Z_N_nat in Hslot.
  rewrite (grouped_snoc _ _ _ tree slot _ Hg0 Htree eq_refl Hslot).
  replace (S (length done)) with (length (done ++ [g]))
    by (rewrite length_app; simpl; lia).
  rewrite IH; [by rewrite <- app_assoc | done | done |].
  rewrite length_app. simpl. lia.
Qed.

Lemma build_predictors_loop_negative (predictor : Predictor) (i : nat)
    (rest : list Z) (acc : list Predictor) :
  Forall is_int rest -> Exists (fun g => g < 0) rest ->
  (i + length rest <= length predictor)%nat ->
  build_predictors_loop predictor i rest acc = Throw TreeInfoGroup.
Proof.
  revert i acc. induction rest as [|g rest IH]; intros i acc Hint Hneg Hlen.
  { by apply Exists_nil in Hneg. }
  apply Forall_cons in Hint as [Hg Hint]. simpl in Hlen.
  cbn [build_predictors_loop].
  destruct (Z.ltb_spec g 0) as [|Hg0]; [done|].
  apply Exists_cons in Hneg as [|Hneg]; [lia|].
  rewrite resize_target by done.
  destruct (index_in_range predictor (N.of_nat i)) as (tree & ->); [lia|].
  cbn [bind].
  destruct (index_in_range
              (resize (Nat.max (length acc) (S (Z.to_nat g))) [] acc)
              (Z.to_N g)) as (slot & ->).
  { rewrite length_resize. lia. }
  cbn [bind]. apply IH; [done | done | lia].
Qed.

(** The three ways the assembly can end. *)
Lemma build_predictors_cases (predictor : Predictor) (info : list Z) :
  Forall is_int info ->
  (length info <> length predictor /\
   build_predictors predictor info = Throw TreeInfoSize) \/
  (length info = length predictor /\ Exists (fun g => g < 0) info /\
   build_predictors predictor info = Throw TreeInfoGroup) \/
  (length info = length predictor /\ Forall (fun g => 0 <= g) info /\
   build_predictors predictor info = Ok (grouped predictor info)).
Proof.
  intros Hint. unfold build_predictors.
  destruct (Nat.eqb_spec (length info) (length predictor)) as [Hlen|Hlen];
    simpl; [right | by left].
  destruct (decide (Forall (fun g => 0 <= g) info)) as [Hpos|Hneg].
  - right. split; [done|]. split; [done|].
    by apply (build_predictors_loop_Ok predictor [] info); [| |simpl; lia].
  - left. apply not_Forall_Exists in Hneg; [|apply _].
    assert (Exists (fun g => g < 0) info) as Hex.
    { eapply Exists_impl; [exact Hneg|]. simpl. intros g Hg. lia. }
    split; [done|]. split; [done|].
    by apply build_predictors_loop_negative; [| |simpl; lia].
Qed.

(** C9. Assembling the groups fails exactly when the length of [tree_info]
    differs from the number of trees or some entry is negative (with the
    size error in the first case, the group error otherwise); when it
    succeeds, there are one plus the largest group id predictors (none for
    an empty [tree_info]), the predictor at index [g] holds, in file order,
    the trees whose entry is [g], and a group id that no entry names is an
    empty predictor. *)
Theorem build_predictors_groups (predictor : Predictor) (info : list Z) :
  Forall is_int info ->
  (succeeded (build_predictors predictor info) = false <->
   length info <> length predictor \/ Exists (fun g => g < 0) info) /\
  (build_predictors predictor info = Throw TreeInfoSize <->
   length info <> length predictor) /\
  (build_predictors predictor info = Throw TreeInfoGroup <->
   length info = length predictor /\ Exists (fun g => g < 0) info) /\
  (forall groups, build_predictors predictor info = Ok groups ->
     Z.of_nat (length groups) = 1 + max_group info /\
     (forall g, (g < length groups)%nat ->
        groups !! g = Some (trees_of_group predictor info (Z.of_nat g))) /\
     (forall g, (g < length groups)%nat -> Z.of_nat g ∉ info ->
        groups !! g = Some [])).
Proof.
  intros Hint.
  assert (forall l : list Z,
            Forall (fun g => 0 <= g) l -> ~ Exists (fun g => g < 0) l) as Hsign.
  { intros l Hpos (g & Hin & Hg)%Exists_exists.
    rewrite Forall_forall in Hpos. specialize (Hpos g Hin). lia. }
  destruct (build_predictors_cases predictor info Hint)
    as [(Hlen & ->) | [(Hlen & Hneg & ->) | (Hlen & Hpos & ->)]]; simpl.
  - repeat split; try done; try tauto; try (intros [? _]; done).
  - repeat split; try done; try tauto.
  - apply Hsign in Hpos.
    split; [split; [done | tauto]|]. split; [done|].
    split; [split; [done | tauto]|].
    intros groups [= <-].
    pose proof (grouped_length predictor info) as Hl.
    split; [done|].
    assert (forall g, (g < length (grouped predictor info))%nat ->
              grouped predictor info !! g
              = Some (trees_of_group predictor info (Z.of_nat g))) as Hlook.
    { intros g Hg. rewrite grouped_lookup.
      by destruct (decide (Z.of_nat g <= max_group info)); [|lia]. }
    split; [done|]. intros g Hg Habsent.
    by rewrite Hlook, trees_of_group_absent.
Qed.

(* ===================================================================== *)
(** * Prediction *)
(* ===================================================================== *)

Lemma Forall_exists_Forall2 {A B : Type} (R : A -> B -> Prop) (l : list A) :
  Forall (fun a => exists b, R a b) l -> exists k, Forall2 R l k.
Proof.
  induction 1 as [|a l (b & Hb) _ (k & Hk)]; [by exists [] |].
  exists (b :: k). by constructor.
Qed.

Lemma model_fuel_tree (m : Model) (group : Predictor) (tree : Tree) :
  group ∈ predictors m -> tree ∈ group -> (length tree < model_fuel m)%nat.
Proof.
  intros Hg Ht. unfold model_fuel.
  assert (length tree <= max_list (length <$> group))%nat as H1.
  { apply max_list_elem_of_le, list_elem_of_fmap. eauto. }
  assert (max_list (length <$> group)
          <= max_list ((fun g => max_list (length <$> g)) <$> predictors m))%nat
    as H2.
  { apply max_list_elem_of_le, list_elem_of_fmap. eauto. }
  lia.
Qed.

(** With enough fuel every tree of a checked model returns a leaf. *)
Lemma checked_model_leaves (m : Model) (fuel : nat) (data : Data) :
  checked_model m -> (model_fuel m <= fuel)%nat ->
  exists leaves : list (list float),
    Forall2 (Forall2 (fun tree x => predict_tree fuel data tree = Ok x))
      (predictors m) leaves.
Proof.
  intros Hchecked Hfuel. apply Forall_exists_Forall2.
  unfold checked_model in Hchecked. rewrite Forall_forall in Hchecked |- *.
  intros group Hg. apply Forall_exists_Forall2.
  specialize (Hchecked group Hg). rewrite Forall_forall in Hchecked |- *.
  intros tree Ht. apply checked_tree_returns; [by apply Hchecked|].
  pose proof (model_fuel_tree m group tree Hg Ht). lia.
Qed.

Lemma sum_trees_Ok (fuel : nat) (data : Data) (group : Predictor)
    (leaves : list float) (acc : float) :
  Forall2 (fun tree x => predict_tree fuel data tree = Ok x) group leaves ->
  sum_trees fuel data group acc = Ok (fold_left F32.add leaves acc).
Proof.
  intros H. revert acc.
  induction H as [|tree x group leaves Hx _ IH]; intros acc; [done|].
  simpl. rewrite Hx. cbn [bind]. apply IH.
Qed.

Lemma predict_predictor_Ok (fuel : nat) (m : Model) (data : Data)
    (group : Predictor) (leaves : list float) :
  Forall2 (fun tree x => predict_tree fuel data tree = Ok x) group leaves ->
  predict_predictor fuel m data group
  = Ok (F32.add (float_sum leaves) (base_score m)).
Proof.
  intros H. unfold predict_predictor. by rewrite (sum_trees_Ok _ _ _ _ _ H).
Qed.

Lemma predict_groups_Ok (fuel : nat) (m : Model) (data : Data)
    (groups : list Predictor) (leaves : list (list float))
    (acc : list float) :
  Forall2 (Forall2 (fun tree x => predict_tree fuel data tree = Ok x))
    groups leaves ->
  predict_groups fuel m data groups acc
  = Ok (acc ++ ((fun xs => F32.add (float_sum xs) (base_score m)) <$> leaves)).
Proof.
  intros H. revert acc.
  induction H as [|group xs groups leaves Hxs _ IH]; intros acc.
  { simpl. by rewrite app_nil_r. }
  simpl. rewrite (predict_predictor_Ok _ _ _ _ _ Hxs). cbn [bind].
  rewrite IH, <- app_assoc. reflexivity.
Qed.

Lemma predict_instances_Ok (fuel : nat) (m : Model) (group : Predictor)
    (data : list Data) (margins acc : list float) :
  Forall2 (fun d s => predict_predictor fuel m d group = Ok s) data margins ->
  predict_instances fuel m group data acc = Ok (acc ++ margins).
Proof.
  intros H. revert acc.
  induction H as [|d s data margins Hs _ IH]; intros acc.
  { simpl. by rewrite app_nil_r. }
  simpl. rewrite Hs. cbn [bind]. rewrite IH, <- app_assoc. reflexivity.
Qed.

Section LibmFacts.

Variable expf : float -> float.

Lemma softmax_exp_length (max : float) (predictions : list float)
    (sum : double) :
  length (softmax_exp expf max predictions sum).1 = length predictions.
Proof.
  revert sum. induction predictions as [|p rest IH]; intros sum; [done|].
  simpl. specialize (IH (F64.add sum (F64.of_float (expf (F32.sub p max))))).
  destruct (softmax_exp expf max rest _). simpl in *. by rewrite IH.
Qed.

(** [transform] works in place: the size of the vector is unchanged. *)
Lemma transform_length (predictions : list float) (t : Transformation) :
  length (transform expf predictions t) = length predictions.
Proof.
  unfold transform. destruct predictions as [|p rest]; [done|].
  destruct t; [done | apply length_map |].
  unfold transformSoftmax.
  pose proof (softmax_exp_length (softmax_max (p :: rest)) (p :: rest)
                F64.zero) as H.
  destruct (softmax_exp expf _ (p :: rest) F64.zero) as [es sum].
  by rewrite length_map.
Qed.

End LibmFacts.

(** The trees that the assembly files into the groups are trees of the
    input. *)
Lemma build_predictors_loop_elem (P : list Node -> Prop)
    (predictor : Predictor) (i : nat) (info : list Z)
    (acc groups : list Predictor) :
  Forall P predictor -> Forall (Forall P) acc ->
  build_predictors_loop predictor i info acc = Ok groups ->
  Forall (Forall P) groups.
Proof.
  intros Hp. revert i acc.
  induction info as [|g info IH]; intros i acc Hacc H; simpl in H.
  { by injection H as <-. }
  destruct (g <? 0); [discriminate|].
  apply bind_Ok_inv in H as (tree & Htree & H).
  apply bind_Ok_inv in H as (slot & Hslot & H).
  apply index_Ok in Htree, Hslot.
  assert (Forall (Forall P)
            (resize (N.to_nat
                       (if (N.of_nat (length acc)
                            <? uint_add (uint_of_int g) 1)%N
                        then uint_add (uint_of_int g) 1
                        else N.of_nat (length acc))) [] acc)) as Hres.
  { rewrite resize_spec. apply Forall_app_2.
    - by apply Forall_take.
    - by apply Forall_replicate. }
  apply (IH _ _) in H; [done|].
  apply Forall_insert; [done|]. apply Forall_app_2.
  - rewrite Forall_forall in Hres. eapply Hres, list_elem_of_lookup_2, Hslot.
  - constructor; [|done].
    rewrite Forall_forall in Hp. eapply Hp, list_elem_of_lookup_2, Htree.
Qed.

Lemma parse_trees_checked (json_trees : list JsonTree)
    (acc predictor : Predictor) :
  Forall (fun tree => check tree = Ok tt) acc ->
  parse_trees json_trees acc = Ok predictor ->
  Forall (fun tree => check tree = Ok tt) predictor.
Proof.
  revert acc. induction json_trees as [|jt rest IH]; intros acc Hacc H;
    simpl in H.
  { by injection H as <-. }
  apply bind_Ok_inv in H as (tree & Htree & H).
  apply IH in H; [done|]. apply Forall_app_2; [done|].
  constructor; [|done]. unfold parse_tree in Htree.
  apply bind_Ok_inv in Htree as (? & _ & Htree).
  apply bind_Ok_inv in Htree as (nodes & _ & Htree).
  apply bind_Ok_inv in Htree as ([] & Hcheck & [= <-]). done.
Qed.

(** Every model that [parse] returns is checked. *)
Lemma parse_checked (logf : float -> float) (j : JsonModel) (m : Model) :
  parse logf j = Ok m -> checked_model m.
Proof.
  unfold parse. intros H.
  apply bind_Ok_inv in H as (predictor & Htrees & H).
  apply bind_Ok_inv in H as (groups & Hgroups & H).
  apply bind_Ok_inv in H as (base & _ & [= <-]).
  unfold checked_model. simpl.
  apply parse_trees_checked in Htrees; [|done].
  unfold build_predictors in Hgroups.
  destruct (negb _); [discriminate|].
  by eapply build_predictors_loop_elem in Hgroups.
Qed.

(** C7. On a checked model and with enough fuel, the single-instance
    [predict] returns one entry per output group; entry [g] is the float sum
    (left to right, from [0.0f]) of the leaf values of the trees of group
    [g], plus the remapped base score, added once; and [transform] with the
    kind of the model is applied to that vector exactly when [outputMargin]
    is false. *)
Theorem predict_margins (expf : float -> float) (m : Model) (data : Data)
    (outputMargin : bool) (fuel : nat) :
  checked_model m -> (model_fuel m <= fuel)%nat ->
  exists leaves : list (list float),
    Forall2 (Forall2 (fun tree x => predict_tree fuel data tree = Ok x))
      (predictors m) leaves /\
    let margins :=
      (fun xs => F32.add (float_sum xs) (base_score m)) <$> leaves in
    let result :=
      if outputMargin then margins
      else transform expf margins (transformation m) in
    predict expf fuel m data outputMargin = Ok result /\
    length result = length (predictors m).
Proof.
  intros Hchecked Hfuel.
  destruct (checked_model_leaves m fuel data Hchecked Hfuel) as (leaves & Hl).
  exists leaves. split; [done|]. cbv zeta. split.
  - unfold predict. rewrite (predict_groups_Ok _ _ _ _ _ [] Hl). cbn [bind].
    rewrite app_nil_l. by destruct outputMargin.
  - apply Forall2_length in Hl.
    destruct outputMargin; [|rewrite transform_length];
      by rewrite length_fmap.
Qed.

(** C5. On a checked model and with enough fuel, the batch [predict] throws
    "incompatible model size" exactly when the number of output groups is
    not one, and fails in no other way; with a single group it returns one
    score per instance, in input order, each the margin of that instance in
    the sole group, transformed as a vector unless [outputMargin] is set. *)
Theorem predict_batch_single_group (expf : float -> float) (m : Model)
    (data : list Data) (outputMargin : bool) (fuel : nat) :
  checked_model m -> (model_fuel m <= fuel)%nat ->
  (predict_batch expf fuel m data outputMargin = Throw IncompatibleModelSize
   <-> length (predictors m) <> 1%nat) /\
  (succeeded (predict_batch expf fuel m data outputMargin) = false
   <-> length (predictors m) <> 1%nat) /\
  (forall group, predictors m = [group] ->
     exists margins : list float,
       Forall2 (fun d s => predict_predictor fuel m d group = Ok s)
         data margins /\
       let scores :=
         if outputMargin then margins
         else transform expf margins (transformation m) in
       predict_batch expf fuel m data outputMargin = Ok scores /\
       length scores = length data).
Proof.
  intros Hchecked Hfuel.
  assert (forall group, predictors m = [group] ->
     exists margins : list float,
       Forall2 (fun d s => predict_predictor fuel m d group = Ok s)
         data margins /\
       predict_batch expf fuel m data outputMargin
       = Ok (if outputMargin then margins
             else transform expf margins (transformation m)) /\
       length (if outputMargin then margins
               else transform expf margins (transformation m))
       = length data) as Hsole.
  { intros group Hgroup.
    assert (exists margins,
              Forall2 (fun d s => predict_predictor fuel m d group = Ok s)
                data margins) as (margins & Hm).
    { apply Forall_exists_Forall2, Forall_forall. intros d _.
      destruct (checked_model_leaves m fuel d Hchecked Hfuel) as (leaves & Hl).
      rewrite Hgroup in Hl.
      apply Forall2_cons_inv_l in Hl as (xs & rest & Hxs & _ & _).
      eexists. by apply predict_predictor_Ok. }
    exists margins. split; [done|]. split.
    - unfold predict_batch. rewrite Hgroup. simpl length. cbn [Nat.eqb negb].
      unfold index. simpl. rewrite (predict_instances_Ok _ _ _ _ _ [] Hm).
      cbn [bind]. by destruct outputMargin.
    - apply Forall2_length in Hm.
      by destruct outputMargin; [|rewrite transform_length]. }
  destruct (predictors m) as [|group [|group' rest]] eqn:Ep.
  - unfold predict_batch. rewrite Ep. simpl. repeat split; try done.
  - destruct (Hsole group eq_refl) as (margins & Hm & Hrun & Hlen).
    split; [|split].
    + rewrite Hrun. simpl. split; [done | lia].
    + rewrite Hrun. simpl. split; [done | lia].
    + intros g [= <-]. by exists margins.
  - unfold predict_batch. rewrite Ep. simpl. repeat split; try done.
Qed.

(* ===================================================================== *)
(** * Base score and softmax *)
(* ===================================================================== *)

Lemma SFcompare_swap (a b : float) :
  SFcompare b a = option_map CompOpp (SFcompare a b).
Proof.
  destruct a as [sa|sa| |sa ma ea], b as [sb|sb| |sb mb eb]; simpl;
    try reflexivity; try (by destruct sa); try (by destruct sb);
    try (by destruct sa, sb).
  destruct sa, sb; simpl; try reflexivity;
    rewrite (Z.compare_antisym ea eb); destruct (ea ?= eb); simpl;
    try reflexivity;
    rewrite <- (Pos.compare_cont_antisym _ _ Eq); simpl;
    by destruct (Pos.compare_cont Eq ma mb).
Qed.

Lemma leb_negb_ltb (a b : float) :
  F32.is_nan a = false -> F32.is_nan b = false ->
  F32.leb a b = negb (F32.ltb b a).
Proof.
  intros Ha Hb. unfold F32.leb, F32.ltb, SFleb, SFltb.
  rewrite (SFcompare_swap a b).
  destruct a as [sa|sa| |sa ma ea], b as [sb|sb| |sb mb eb];
    try discriminate; simpl;
    try (by destruct sa); try (by destruct sb); try (by destruct sa, sb).
  destruct sa, sb; simpl; try reflexivity;
    destruct (ea ?= eb); simpl; try reflexivity;
    by destruct (Pos.compare_cont Eq ma mb).
Qed.

(** On a base score that is a number, the logistic family throws exactly
    outside the open unit interval and stores the logit inside it. *)
Lemma transformBaseScore_logistic (logf : float -> float) (objective : string)
    (base : float) :
  logistic_objective objective = true -> F32.is_nan base = false ->
  (transformBaseScore logf objective base = Throw InvalidBaseScore <->
   strictly_inside_unit base = false) /\
  (strictly_inside_unit base = true ->
   transformBaseScore logf objective base
   = Ok (F32.opp (logf (F32.sub (F32.div F32.one base) F32.one)))).
Proof.
  intros Hobj Hnan. unfold transformBaseScore, strictly_inside_unit.
  rewrite Hobj. unfold F32.geb. fold (F32.leb F32.one base).
  rewrite (leb_negb_ltb base F32.zero), (leb_negb_ltb F32.one base) by done.
  destruct (F32.ltb F32.zero base), (F32.ltb base F32.one); simpl;
    split; try done.
Qed.

(** C6, at the input where the code departs from it.  A base score that is
    not a number is not strictly between 0 and 1, yet for each objective of
    the logistic family the remapping does not throw: both comparisons of
    the guard are false and the logit of the NaN is stored. *)
Theorem transformBaseScore_nan_accepted (logf : float -> float) :
  strictly_inside_unit S754_nan = false /\
  transformBaseScore logf "reg:logistic" S754_nan
    = Ok (F32.opp (logf S754_nan)) /\
  transformBaseScore logf "binary:logistic" S754_nan
    = Ok (F32.opp (logf S754_nan)) /\
  transformBaseScore logf "binary:logitraw" S754_nan
    = Ok (F32.opp (logf S754_nan)).
Proof. repeat split. Qed.

Lemma negative_not_above_min (x : float) :
  negative x -> F32.ltb F32.numeric_limits_min x = false.
Proof.
  unfold negative, F32.ltb, SFltb.
  destruct x as [s|s| |s m e]; simpl; try discriminate.
  - by destruct s.
  - by destruct s.
Qed.

Lemma max_negative (a b : float) :
  negative a -> negative b -> negative (F32.max a b).
Proof. intros Ha Hb. unfold F32.max. by destruct (F32.ltb a b). Qed.

(** On a vector of negative scores the running maximum never leaves its
    initial value [2^-126], while the maximum of the vector is negative. *)
Lemma softmax_max_negative (predictions : list float) :
  Forall negative predictions ->
  softmax_max predictions = F32.numeric_limits_min /\
  forall x, true_max predictions = Some x -> negative x.
Proof.
  intros Hneg. split.
  - unfold softmax_max. induction Hneg as [|p rest Hp _ IH]; [done|].
    simpl. unfold F32.max at 2. by rewrite (negative_not_above_min p Hp).
  - destruct Hneg as [|p rest Hp Hrest]; [done|]. simpl.
    intros x [= <-]. revert p Hp.
    induction Hrest as [|q rest Hq _ IH]; intros p Hp; [done|].
    simpl. apply IH. by apply max_negative.
Qed.

(** C1, at an input where the code departs from it.  For the scores
    [-1, -2], both negative, the maximum is [-1], but the running maximum,
    which starts from [std::numeric_limits<float>::min()], the positive
    [2^-126], ends at [2^-126]; subtracting it leaves each score unchanged,
    so nothing is subtracted before exponentiating.  Started from
    [std::numeric_limits<float>::lowest()], the same loop finds [-1]. *)
Theorem softmax_max_all_negative :
  negative minus_one /\ negative minus_two /\
  true_max [minus_one; minus_two] = Some minus_one /\
  softmax_max [minus_one; minus_two] = F32.numeric_limits_min /\
  F32.numeric_limits_min <> minus_one /\
  F32.sub minus_one (softmax_max [minus_one; minus_two]) = minus_one /\
  F32.sub minus_two (softmax_max [minus_one; minus_two]) = minus_two /\
  fold_left F32.max [minus_one; minus_two] F32.numeric_limits_lowest
    = minus_one.
Proof. repeat split; try reflexivity. discriminate. Qed.

(** What the slip costs: when the exponential of every score underflows to
    zero, the sum is zero and every output is [0/0]. *)
Lemma softmax_underflow (expf : float -> float) :
  expf minus_200 = F32.zero ->
  transformSoftmax expf [minus_200; minus_200] = [S754_nan; S754_nan].
Proof.
  intros Hexp. unfold transformSoftmax.
  assert (softmax_max [minus_200; minus_200] = F32.numeric_limits_min) as ->
    by reflexivity.
  cbn [softmax_exp].
  assert (F32.sub minus_200 F32.numeric_limits_min = minus_200) as ->
    by reflexivity.
  rewrite Hexp. reflexivity.
Qed.

(* ===================================================================== *)
(** * The unit tests of the repository, on the model *)
(* ===================================================================== *)

Section TransformTests.

Variable expf : float -> float.

(** [e^0 = 1], also at [-0.0f] and at the tiny [-2^-126]. *)
Hypothesis expf_zero : expf F32.zero = F32.one.
Hypothesis expf_neg_zero : expf (F32.opp F32.zero) = F32.one.
Hypothesis expf_tiny : expf (F32.opp F32.numeric_limits_min) = F32.one.

Lemma transform_empty (t : Transformation) : transform expf [] t = [].
Proof. reflexivity. Qed.

Lemma transform_sigmoid_zero : transform expf [F32.zero] SIGMOID = [half].
Proof.
  cbn [transform]. unfold transformSigmoid. cbn [map].
  rewrite expf_neg_zero. reflexivity.
Qed.

Lemma transform_softmax_zeros :
  transform expf [F32.zero; F32.zero] SOFTMAX = [half; half].
Proof.
  cbn [transform]. unfold transformSoftmax.
  assert (softmax_max [F32.zero; F32.zero] = F32.numeric_limits_min) as ->
    by reflexivity.
  cbn [softmax_exp].
  assert (F32.sub F32.zero F32.numeric_limits_min
          = F32.opp F32.numeric_limits_min) as -> by reflexivity.
  rewrite expf_tiny. reflexivity.
Qed.

Lemma transform_softmax_elevens :
  transform expf [eleven; eleven] SOFTMAX = [half; half].
Proof.
  cbn [transform]. unfold transformSoftmax.
  assert (softmax_max [eleven; eleven] = eleven) as -> by reflexivity.
  cbn [softmax_exp].
  assert (F32.sub eleven eleven = F32.zero) as -> by reflexivity.
  rewrite expf_zero. reflexivity.
Qed.

End TransformTests.

(* ===================================================================== *)
(** * The properties at sample inputs *)
(* ===================================================================== *)

Lemma tree_branching_witness :
  stump !! N.to_nat 0 = Some (decision 0 5 1 2 1) /\
  0 <= feature (decision 0 5 1 2 1) /\
  is_int (feature (decision 0 5 1 2 1)) /\
  branch sample_data (decision 0 5 1 2 1) = TakeYes /\
  tree_loop 2 sample_data stump 0%N = Ok (value (leaf 10)).
Proof.
  assert (stump !! N.to_nat 0 = Some (decision 0 5 1 2 1)) as H1
    by reflexivity.
  assert (0 <= feature (decision 0 5 1 2 1)) as H2 by (simpl; lia).
  assert (is_int (feature (decision 0 5 1 2 1))) as H3
    by (unfold is_int; simpl; lia).
  split; [exact H1|]. split; [exact H2|]. split; [exact H3|].
  destruct (tree_branching 0 sample_data stump 0%N _ H1 H2 H3)
    as (_ & _ & Hyes & _ & _ & _ & _ & _ & Hleaf & _).
  split.
  - apply Hyes. exists (F32.of_int 3).
    split; [simpl; lia|]. split; reflexivity.
  - apply (Hleaf (leaf 10)); [reflexivity | simpl; lia].
Defined.

Lemma check_index_range_witness :
  check_indices (N.of_nat (length past_end_tree)) past_end_tree = Ok tt.
Proof.
  apply (check_index_range past_end_tree). intros node Hin Hf.
  apply list_elem_of_In in Hin. destruct Hin as [<- | []]. simpl. lia.
Defined.

Lemma check_cycle_detection_witness :
  chain self_loop_tree 0%N 0 0%N /\ chain self_loop_tree 0%N 1 0%N /\
  strict_children self_loop_tree = true /\
  check self_loop_tree = Throw CycleInTree.
Proof.
  assert (chain self_loop_tree 0%N 0 0%N) as H1 by constructor.
  assert (chain self_loop_tree 0%N 1 0%N) as H2.
  { econstructor; [|constructor]. exists (decision 0 5 0 0 0).
    split; [reflexivity|]. split; [simpl; lia | by left]. }
  split; [exact H1|]. split; [exact H2|]. split; [reflexivity|].
  destruct check_cycle_detection as (_ & _ & _ & Hloop & _).
  apply (Hloop self_loop_tree O O 0%N H1 H2). reflexivity.
Defined.

(** A self reference that the walk never reaches is accepted. *)
Lemma check_accepts_detached_loop :
  decision_at detached_loop_tree 1%N /\
  child_of detached_loop_tree 1%N 1%N /\
  check detached_loop_tree = Ok tt.
Proof.
  split; [|split]; [| |reflexivity].
  - exists (decision 0 5 1 1 1). split; [reflexivity | simpl; lia].
  - exists (decision 0 5 1 1 1).
    split; [reflexivity|]. split; [simpl; lia | by left].
Qed.

Lemma validated_descent_terminates_witness :
  check stump = Ok tt /\
  exists (steps : nat) (j : N) (node : Node),
    (steps <= length stump)%nat /\ chain stump 0%N steps j /\
    stump !! N.to_nat j = Some node /\ feature node < 0 /\
    forall fuel, (steps < fuel)%nat ->
      predict_tree fuel sample_data stump = Ok (value node).
Proof.
  split; [reflexivity|].
  apply (proj1 validated_descent_terminates stump sample_data). reflexivity.
Defined.

Lemma check_past_end_access_witness :
  past_end_tree !! O = Some (decision 0 5 1 1 1) /\
  yes (decision 0 5 1 1 1) = N.of_nat (length past_end_tree) /\
  stump <> [] /\ strict_children stump = true /\
  check past_end_tree = OutOfBounds /\ check stump <> OutOfBounds.
Proof.
  destruct check_past_end_access as (_ & _ & Hroot & _ & Hstrict).
  split; [reflexivity|]. split; [reflexivity|].
  split; [discriminate|]. split; [reflexivity|]. split.
  - apply (Hroot past_end_tree (decision 0 5 1 1 1));
      [reflexivity | simpl; lia | reflexivity | reflexivity].
  - apply (Hstrict stump); [discriminate | reflexivity].
Defined.

(** A one-past-the-end child index does not always make validation index
    past the end: the tree is accepted when the walk never calls that index,
    and rejected with the cycle error when the walk throws first; and the
    empty tree, whose decision nodes vacuously have bounded children, makes
    the descent index past the end. *)
Lemma check_past_end_not_reached :
  one_past_end_child detached_past_end_tree /\
  check detached_past_end_tree = Ok tt /\
  one_past_end_child loop_then_past_end_tree /\
  check loop_then_past_end_tree = Throw CycleInTree /\
  strict_children [] = true /\
  predict_tree 1 sample_data [] = OutOfBounds.
Proof.
  repeat split.
  - exists 1%N, (decision 0 5 2 2 2).
    split; [reflexivity|]. split; [simpl; lia | by left].
  - exists 0%N, (decision 0 5 0 1 1).
    split; [reflexivity|]. split; [simpl; lia | right; by left].
Qed.

Lemma build_predictors_groups_witness :
  Forall is_int [2; 0; 2] /\
  exists groups,
    build_predictors [stump; shared_leaf_tree; stump] [2; 0; 2] = Ok groups /\
    Z.of_nat (length groups) = 1 + max_group [2; 0; 2] /\
    groups !! 1%nat = Some [].
Proof.
  assert (Forall is_int [2; 0; 2]) as Hint
    by (repeat constructor; unfold is_int; lia).
  split; [exact Hint|].
  destruct (build_predictors_groups [stump; shared_leaf_tree; stump]
              [2; 0; 2] Hint) as (_ & _ & _ & Hok).
  eexists. split; [reflexivity|].
  destruct (Hok _ eq_refl) as (Hlen & _ & Hempty).
  split; [exact Hlen|]. apply Hempty; [simpl; lia|].
  intros Hin. apply list_elem_of_In in Hin. simpl in Hin.
  destruct Hin as [H | [H | [H | []]]]; discriminate H.
Defined.

Lemma predict_margins_witness :
  checked_model sample_model /\ (model_fuel sample_model <= 4)%nat /\
  exists leaves : list (list float),
    Forall2 (Forall2 (fun tree x => predict_tree 4 sample_data tree = Ok x))
      (predictors sample_model) leaves /\
    predict (fun x => x) 4 sample_model sample_data true
    = Ok ((fun xs => F32.add (float_sum xs) (base_score sample_model))
            <$> leaves).
Proof.
  assert (checked_model sample_model) as H1 by (repeat constructor).
  assert (model_fuel sample_model <= 4)%nat as H2 by (vm_compute; lia).
  split; [exact H1|]. split; [exact H2|].
  destruct (predict_margins (fun x => x) sample_model sample_data true 4 H1 H2)
    as (leaves & Hl & Hrun & _).
  exists leaves. split; [exact Hl | exact Hrun].
Defined.

Lemma predict_batch_single_group_witness :
  checked_model sample_model /\ (model_fuel sample_model <= 4)%nat /\
  succeeded (predict_batch (fun x => x) 4 sample_model
               [sample_data; []] true) = true.
Proof.
  assert (checked_model sample_model) as H1 by (repeat constructor).
  assert (model_fuel sample_model <= 4)%nat as H2 by (vm_compute; lia).
  split; [exact H1|]. split; [exact H2|].
  destruct (predict_batch_single_group (fun x => x) sample_model
              [sample_data; []] true 4 H1 H2) as (_ & _ & Hsole).
  destruct (Hsole [stump] eq_refl) as (margins & _ & Hrun & _).
  simpl in Hrun. rewrite Hrun. reflexivity.
Defined.

(* ===================================================================== *)
(** * Further properties: the tree objects *)
(* ===================================================================== *)

Lemma checkSizes_loop_cases (s : nat) (args : list nat) :
  (Forall (fun a => a = s) args /\ checkSizes_loop (Some s) args = Ok tt) \/
  (Exists (fun a => a <> s) args /\
   checkSizes_loop (Some s) args = Throw JsonArraySizes).
Proof.
  induction args as [|a args IH]; simpl; [by left|].
  destruct (Nat.eqb_spec s a) as [<-|Hne]; simpl.
  - destruct IH as [[Hall ->] | [Hex ->]]; [left | right]; split; try done.
    + by constructor.
    + by apply Exists_cons_tl.
  - right. split; [|done]. apply Exists_cons_hd. congruence.
Qed.

(** X1. [checkSizes] returns normally exactly when all the sizes it is
    given are equal, and otherwise throws "json array sizes do not match";
    it has no other outcome. *)
Theorem checkSizes_equal (sizes : list nat) :
  (checkSizes sizes = Ok tt <->
   forall a b, a ∈ sizes -> b ∈ sizes -> a = b) /\
  (checkSizes sizes <> Ok tt -> checkSizes sizes = Throw JsonArraySizes).
Proof.
  unfold checkSizes. destruct sizes as [|s rest]; simpl.
  { split; [|done]. split; [|done]. intros _ a b Ha. by apply elem_of_nil in Ha. }
  destruct (checkSizes_loop_cases s rest) as [[Hall ->] | [Hex ->]].
  - split; [|done]. split; [|done]. intros _ a b Ha Hb.
    rewrite Forall_forall in Hall.
    apply elem_of_cons in Ha as [->|Ha]; apply elem_of_cons in Hb as [->|Hb];
      try done.
    + symmetry. by apply Hall.
    + by apply Hall.
    + rewrite (Hall a Ha). symmetry. by apply Hall.
  - split; [|done]. split; [done|]. intros Heq.
    apply Exists_exists in Hex as (a & Ha & Hne). destruct Hne.
    apply Heq; [by right | by left].
Qed.

Lemma checkSizes_aligned (jt : JsonTree) :
  (aligned jt /\
   checkSizes [length (default_left jt); length (left_children jt);
               length (right_children jt); length (split_indices jt);
               length (split_conditions jt)] = Ok tt) \/
  (~ aligned jt /\
   checkSizes [length (default_left jt); length (left_children jt);
               length (right_children jt); length (split_indices jt);
               length (split_conditions jt)] = Throw JsonArraySizes).
Proof.
  unfold aligned, checkSizes. cbn [checkSizes_loop].
  destruct (Nat.eqb_spec (length (default_left jt))
              (length (left_children jt))); simpl; [|right; split; [lia|done]].
  destruct (Nat.eqb_spec (length (default_left jt))
              (length (right_children jt))); simpl;
    [|right; split; [lia|done]].
  destruct (Nat.eqb_spec (length (default_left jt))
              (length (split_indices jt))); simpl;
    [|right; split; [lia|done]].
  destruct (Nat.eqb_spec (length (default_left jt))
              (length (split_conditions jt))); simpl;
    [|right; split; [lia|done]].
  left. split; [lia | done].
Qed.

Lemma node_at_aligned (jt : JsonTree) (i : nat) :
  aligned jt -> (i < length (default_left jt))%nat ->
  exists dl lc rc si sc,
    default_left jt !! i = Some dl /\ left_children jt !! i = Some lc /\
    right_children jt !! i = Some rc /\ split_indices jt !! i = Some si /\
    split_conditions jt !! i = Some sc /\
    node_at jt i = Some (make_node dl lc rc si sc).
Proof.
  intros (H1 & H2 & H3 & H4) Hi. unfold node_at.
  destruct (lookup_lt_is_Some_2 (default_left jt) i) as [dl Hdl]; [lia|].
  destruct (lookup_lt_is_Some_2 (left_children jt) i) as [lc Hlc]; [lia|].
  destruct (lookup_lt_is_Some_2 (right_children jt) i) as [rc Hrc]; [lia|].
  destruct (lookup_lt_is_Some_2 (split_indices jt) i) as [si Hsi]; [lia|].
  destruct (lookup_lt_is_Some_2 (split_conditions jt) i) as [sc Hsc]; [lia|].
  exists dl, lc, rc, si, sc. rewrite Hdl, Hlc, Hrc, Hsi, Hsc. done.
Qed.

(** With aligned arrays the node loop stays inside them and appends one
    node per position. *)
Lemma build_nodes_aligned (jt : JsonTree) (positions : list nat)
    (acc : list Node) :
  aligned jt ->
  Forall (fun i => (i < length (default_left jt))%nat) positions ->
  exists nodes,
    build_nodes jt positions acc = Ok (acc ++ nodes) /\
    Forall2 (fun i node => node_at jt i = Some node) positions nodes.
Proof.
  intros Hal Hpos. revert acc.
  induction Hpos as [|i positions Hi _ IH]; intros acc.
  { exists []. by rewrite app_nil_r. }
  destruct (node_at_aligned jt i Hal Hi)
    as (dl & lc & rc & si & sc & Hdl & Hlc & Hrc & Hsi & Hsc & Hnode).
  destruct (IH (acc ++ [make_node dl lc rc si sc])) as (nodes & Hrun & Hall).
  exists (make_node dl lc rc si sc :: nodes). split; [|by constructor].
  cbn [build_nodes]. unfold index. rewrite !Nat2N.id.
  rewrite Hdl, Hlc, Hrc, Hsi, Hsc. cbn [bind].
  rewrite Hrun, <- app_assoc. reflexivity.
Qed.

Lemma build_nodes_tree (jt : JsonTree) :
  aligned jt ->
  exists tree,
    build_nodes jt (seq 0 (length (default_left jt))) [] = Ok tree /\
    length tree = length (default_left jt) /\
    forall i, tree !! i = node_at jt i.
Proof.
  intros Hal.
  destruct (build_nodes_aligned jt (seq 0 (length (default_left jt))) [] Hal)
    as (tree & Hrun & Hall).
  { apply Forall_forall. intros i Hi. apply elem_of_seq in Hi. lia. }
  exists tree. split; [done|].
  pose proof (Forall2_length _ _ _ Hall) as Hlen. rewrite length_seq in Hlen.
  split; [done|]. intros i.
  destruct (decide (i < length (default_left jt))%nat) as [Hi|Hi].
  - destruct (lookup_lt_is_Some_2 tree i) as [node Hnode]; [lia|].
    rewrite Hnode. symmetry.
    eapply (Forall2_lookup_lr _ _ _ _ _ _ Hall); [|exact Hnode].
    by apply lookup_seq_lt.
  - rewrite (proj2 (lookup_ge_None tree i)) by lia.
    unfold node_at. by rewrite (proj2 (lookup_ge_None (default_left jt) i))
      by lia.
Qed.

(** What [check] can throw. *)
Lemma check_Throw (tree : Tree) (e : error) :
  check tree = Throw e ->
  e = EmptyTree \/ e = IndexOutOfRange \/ e = CycleInTree.
Proof.
  destruct tree as [|n0 rest] eqn:Et; [intros [= <-]; by left|].
  rewrite <- Et. rewrite check_nonempty by congruence.
  destruct (check_indices_cases (N.of_nat (length tree)) tree)
    as [[-> _] | [-> _]]; cbn [bind]; [intros [= <-]; tauto|].
  destruct (check_cycles _ tree 0%N _) as [v'|e'| |] eqn:Ew; cbn [bind];
    try discriminate.
  intros [= <-]. apply check_cycles_Throw in Ew. tauto.
Qed.

Lemma make_node_missing (dl : bool) (lc rc si : Z) (sc : float) :
  missing (make_node dl lc rc si sc)
  = if dl then yes (make_node dl lc rc si sc)
    else no (make_node dl lc rc si sc).
Proof. by destruct dl. Qed.

(** X2. A tree object is turned into a tree exactly as its arrays say: it
    is refused with the size error exactly when the five arrays differ in
    length; when it is accepted the tree has one node per position, node [i]
    is built from the five entries at [i], the tree has passed [check], and
    the missing index of every node is its yes index or its no index. *)
Theorem parse_tree_nodes (jt : JsonTree) :
  (parse_tree jt = Throw JsonArraySizes <-> ~ aligned jt) /\
  (forall tree, parse_tree jt = Ok tree ->
     aligned jt /\ length tree = length (default_left jt) /\
     (forall i, tree !! i = node_at jt i) /\
     check tree = Ok tt /\
     Forall (fun node => missing node = yes node \/ missing node = no node)
       tree).
Proof.
  unfold parse_tree.
  destruct (checkSizes_aligned jt) as [[Hal ->] | [Hal ->]]; cbn [bind].
  2:{ split; [done|]. discriminate. }
  destruct (build_nodes_tree jt Hal) as (tree & -> & Hlen & Hnodes).
  cbn [bind]. split.
  - split; [|done]. destruct (check tree) as [[]|e| |] eqn:Ec; cbn [bind];
      try discriminate.
    intros [= ->]. apply check_Throw in Ec.
    destruct Ec as [? | [? | ?]]; discriminate.
  - intros tree' H. apply bind_Ok_inv in H as ([] & Hc & [= <-]).
    split; [done|]. split; [done|]. split; [done|]. split; [done|].
    apply Forall_forall. intros node Hin.
    apply list_elem_of_lookup in Hin as (i & Hi). rewrite Hnodes in Hi.
    unfold node_at in Hi. repeat case_match; simplify_eq.
    rewrite make_node_missing. destruct b; tauto.
Qed.

Lemma parse_tree_nodes_witness :
  parse_tree stump_json = Ok stump /\ aligned stump_json /\
  check stump = Ok tt.
Proof.
  assert (parse_tree stump_json = Ok stump) as H by reflexivity.
  split; [exact H|].
  destruct (parse_tree_nodes stump_json) as (_ & Hok).
  destruct (Hok stump H) as (Hal & _ & _ & Hc & _). by split.
Defined.

(** X3. A negative right child does not pass for an index: converted to
    [unsigned int] it wraps to at least [2^31], so a tree object of fewer
    than [2^31] nodes in which some position has a non-negative left child,
    a non-negative split index and a negative right child is refused with
    "index out of range". *)
Theorem parse_tree_negative_right (jt : JsonTree) (i : nat) (lc rc si : Z) :
  aligned jt -> (Z.of_nat (length (default_left jt)) < 2 ^ 31) ->
  left_children jt !! i = Some lc -> right_children jt !! i = Some rc ->
  split_indices jt !! i = Some si ->
  0 <= lc -> 0 <= si -> is_int rc -> rc < 0 ->
  parse_tree jt = Throw IndexOutOfRange.
Proof.
  intros Hal Hsize Hlc Hrc Hsi Hlc0 Hsi0 Hint Hneg.
  unfold parse_tree.
  destruct (checkSizes_aligned jt) as [[_ ->] | [? _]]; [|done].
  cbn [bind].
  destruct (build_nodes_tree jt Hal) as (tree & -> & Hlen & Hnodes).
  cbn [bind].
  assert (i < length (default_left jt))%nat as Hi.
  { apply lookup_lt_Some in Hlc. destruct Hal as (H1 & _). lia. }
  destruct (node_at_aligned jt i Hal Hi)
    as (dl & lc' & rc' & si' & sc & _ & Hlc' & Hrc' & Hsi' & _ & Hnode).
  simplify_eq. rewrite <- Hnodes in Hnode.
  assert (tree <> []) as Hne by (intros ->; by rewrite lookup_nil in Hnode).
  rewrite check_nonempty by done.
  destruct (check_indices_cases (N.of_nat (length tree)) tree)
    as [[-> _] | [_ Hall]]; [done|].
  rewrite Forall_forall in Hall.
  destruct (Hall _ (list_elem_of_lookup_2 _ _ _ Hnode)).
  unfold child_above, make_node. simpl.
  destruct (Z.leb_spec 0 lc); [|lia]. split; [done|].
  right. left. unfold uint_of_int. unfold is_int in Hint.
  assert (rc mod 2 ^ 32 = rc + 2 ^ 32) as ->.
  { symmetry. apply (Z.mod_unique rc (2 ^ 32) (-1)); lia. }
  lia.
Qed.

Lemma parse_tree_negative_right_witness :
  aligned negative_child_json /\
  parse_tree negative_child_json = Throw IndexOutOfRange.
Proof.
  assert (aligned negative_child_json) as Hal by (repeat split).
  split; [exact Hal|].
  apply (parse_tree_negative_right negative_child_json 0 1 (-1) 0 Hal);
    try reflexivity; try (simpl; lia); unfold is_int; lia.
Defined.

Lemma parse_trees_app (json_trees : list JsonTree) (acc : Predictor) :
  (exists ts, Forall2 (fun jt t => parse_tree jt = Ok t) json_trees ts /\
              parse_trees json_trees acc = Ok (acc ++ ts)) \/
  (exists good bad rest ts,
     json_trees = good ++ bad :: rest /\
     Forall2 (fun jt t => parse_tree jt = Ok t) good ts /\
     succeeded (parse_tree bad) = false /\
     failure_of (parse_trees json_trees acc) = failure_of (parse_tree bad)).
Proof.
  revert acc. induction json_trees as [|jt rest IH]; intros acc.
  { left. exists []. split; [constructor|]. simpl. by rewrite app_nil_r. }
  simpl. destruct (parse_tree jt) as [t| | |] eqn:Et; cbn [bind].
  - destruct (IH (acc ++ [t])) as [(ts & Hts & ->) |
      (good & bad & rest' & ts & -> & Hgood & Hbad & ->)].
    + left. exists (t :: ts). split; [by constructor|].
      by rewrite <- app_assoc.
    + right. exists (jt :: good), bad, rest', (t :: ts).
      repeat split; try done. by constructor.
  - right. exists [], jt, rest, []. rewrite Et. repeat split; constructor.
  - right. exists [], jt, rest, []. rewrite Et. repeat split; constructor.
  - right. exists [], jt, rest, []. rewrite Et. repeat split; constructor.
Qed.

(** X4. The tree objects are parsed in file order: the load returns the
    list of their trees, in the same order and of the same number, exactly
    when every object parses, and otherwise it ends with the failure of the
    first object that does not. *)
Theorem parse_trees_in_order (json_trees : list JsonTree) :
  (forall predictor,
     parse_trees json_trees [] = Ok predictor <->
     Forall2 (fun jt t => parse_tree jt = Ok t) json_trees predictor) /\
  (forall good bad rest ts,
     json_trees = good ++ bad :: rest ->
     Forall2 (fun jt t => parse_tree jt = Ok t) good ts ->
     succeeded (parse_tree bad) = false ->
     failure_of (parse_trees json_trees []) = failure_of (parse_tree bad)).
Proof.
  assert (forall (l : list JsonTree) (p q : Predictor),
            Forall2 (fun jt t => parse_tree jt = Ok t) l p ->
            Forall2 (fun jt t => parse_tree jt = Ok t) l q -> p = q) as Hdet.
  { intros l p q Hp. revert q.
    induction Hp as [|jt t l p Ht _ IH]; intros q Hq;
      inversion Hq; simplify_eq; [done|].
    f_equal; [congruence | by apply IH]. }
  destruct (parse_trees_app json_trees []) as [(ts & Hts & Hrun) |
    (good & bad & rest & ts & -> & Hgood & Hbad & Hfail)].
  - split.
    + intros predictor. rewrite Hrun. simpl. split.
      * by intros [= <-].
      * intros Hp. f_equal. by eapply Hdet.
    + intros good bad rest ts' -> Hgood Hbad.
      apply Forall2_app_inv_l in Hts as (p1 & p2 & _ & Hbad' & _).
      apply Forall2_cons_inv_l in Hbad' as (t & ? & Ht & _).
      rewrite Ht in Hbad. discriminate.
  - split.
    + intros predictor. split.
      * intros Hrun. rewrite Hrun in Hfail. simpl in Hfail.
        destruct (parse_tree bad); simpl in *; discriminate.
      * intros Hp. apply Forall2_app_inv_l in Hp as (p1 & p2 & _ & Hp & _).
        apply Forall2_cons_inv_l in Hp as (t & ? & Ht & _).
        rewrite Ht in Hbad. discriminate.
    + intros good' bad' rest' ts' Heq Hgood' Hbad'.
      assert (length good = length good') as Hlen.
      { destruct (Nat.lt_trichotomy (length good) (length good'))
          as [Hlt | [Heq' | Hgt]]; [exfalso | done | exfalso].
        - assert (good' !! length good = Some bad) as Hl.
          { assert ((good ++ bad :: rest) !! length good = Some bad) as Hl
              by (rewrite lookup_app_r, Nat.sub_diag by lia; done).
            rewrite Heq, lookup_app_l in Hl by lia. done. }
          destruct (Forall2_lookup_l _ _ _ _ _ Hgood' Hl) as (t & _ & Ht).
          rewrite Ht in Hbad. discriminate.
        - assert (good !! length good' = Some bad') as Hl.
          { assert ((good' ++ bad' :: rest') !! length good' = Some bad')
              as Hl by (rewrite lookup_app_r, Nat.sub_diag by lia; done).
            rewrite <- Heq, lookup_app_l in Hl by lia. done. }
          destruct (Forall2_lookup_l _ _ _ _ _ Hgood Hl) as (t & _ & Ht).
          rewrite Ht in Hbad'. discriminate. }
      assert (bad = bad') as <-.
      { assert ((good ++ bad :: rest) !! length good = Some bad) as Hl
          by (rewrite lookup_app_r, Nat.sub_diag by lia; done).
        rewrite Heq, Hlen, lookup_app_r, Nat.sub_diag in Hl by lia.
        simpl in Hl. congruence. }
      done.
Qed.

Lemma parse_trees_in_order_witness :
  Forall2 (fun jt t => parse_tree jt = Ok t) [stump_json; stump_json]
    [stump; stump] /\
  parse_trees [stump_json; stump_json] [] = Ok [stump; stump].
Proof.
  assert (Forall2 (fun jt t => parse_tree jt = Ok t) [stump_json; stump_json]
            [stump; stump]) as H by (repeat constructor).
  split; [exact H|].
  by apply (parse_trees_in_order [stump_json; stump_json]).
Defined.

Lemma checkSizes_equal_witness :
  (forall a b, a ∈ [3; 3; 3]%nat -> b ∈ [3; 3; 3]%nat -> a = b) /\
  checkSizes [3; 3; 3]%nat = Ok tt.
Proof.
  assert (forall a b, a ∈ [3; 3; 3]%nat -> b ∈ [3; 3; 3]%nat -> a = b) as H.
  { intros a b Ha Hb. apply list_elem_of_In in Ha, Hb. simpl in Ha, Hb. lia. }
  split; [exact H|]. by apply (checkSizes_equal [3; 3; 3]%nat).
Defined.

(* ===================================================================== *)
(** * Further properties: tree evaluation *)
(* ===================================================================== *)

(** The turn of the loop reads the feature vector through [slot] only. *)
Lemma next_index_slot (data : Data) (node : Node) :
  0 <= feature node ->
  next_index data node =
  match slot data (feature node) with
  | Some x => if F32.ltb x (value node) then yes node else no node
  | None => missing node
  end.
Proof.
  intros Hf. unfold next_index, slot, uint_of_int.
  destruct (N.ltb_spec (Z.to_N (feature node mod 2 ^ 32))
              (N.of_nat (length data))) as [Hlt|Hge].
  - by destruct (data !! Z.to_nat (feature node)) as [[x|]|].
  - destruct (data !! Z.to_nat (feature node)) as [[x|]|] eqn:Ed; try done.
    apply lookup_lt_Some in Ed.
    pose proof (Z.mod_le (feature node) (2 ^ 32) Hf ltac:(lia)). lia.
Qed.

Lemma tree_loop_slots (fuel : nat) (data data' : Data) (tree : Tree)
    (idx : N) :
  (forall node, node ∈ tree -> 0 <= feature node ->
     slot data (feature node) = slot data' (feature node)) ->
  tree_loop fuel data tree idx = tree_loop fuel data' tree idx.
Proof.
  intros Hsame. revert idx. induction fuel as [|fuel IH]; intros idx; [done|].
  simpl. destruct (index_cases tree idx) as [(node & Hn & ->) | [_ ->]];
    [|done].
  cbn [bind]. destruct (Z.ltb_spec (feature node) 0) as [|Hf]; [done|].
  rewrite !next_index_slot by done.
  rewrite (Hsame node (list_elem_of_lookup_2 _ _ _ Hn) Hf). apply IH.
Qed.

Lemma slot_padding (data : Data) (k : nat) (f : Z) :
  slot (data ++ replicate k None) f = slot data f.
Proof.
  unfold slot.
  destruct (decide (Z.to_nat f < length data)%nat) as [Hlt|Hge].
  - by rewrite lookup_app_l.
  - rewrite lookup_app_r by lia.
    rewrite (proj2 (lookup_ge_None data _)) by lia.
    destruct (replicate k None !! _) as [o|] eqn:E; [|done].
    apply lookup_replicate in E as [-> _]. done.
Qed.

(** X5. The leaf that a tree returns depends on the feature vector only
    through the values of the features that its decision nodes test, and a
    slot past the end counts as a missing one: two vectors that agree on
    these features give the same outcome at every fuel, and so does a vector
    extended by missing slots. *)
Theorem predict_tree_tested_features (fuel : nat) (tree : Tree)
    (data data' : Data) :
  ((forall node, node ∈ tree -> 0 <= feature node ->
      slot data (feature node) = slot data' (feature node)) ->
   predict_tree fuel data tree = predict_tree fuel data' tree) /\
  (forall k, predict_tree fuel (data ++ replicate k None) tree
             = predict_tree fuel data tree).
Proof.
  split.
  - intros Hsame. by apply tree_loop_slots.
  - intros k. apply tree_loop_slots. intros node _ _. apply slot_padding.
Qed.

Lemma predict_tree_tested_features_witness :
  (forall node, node ∈ stump -> 0 <= feature node ->
     slot sample_data (feature node)
     = slot [Some (F32.of_int 3); Some (F32.of_int 99)] (feature node)) /\
  predict_tree 2 sample_data stump
  = predict_tree 2 [Some (F32.of_int 3); Some (F32.of_int 99)] stump.
Proof.
  assert (forall node, node ∈ stump -> 0 <= feature node ->
            slot sample_data (feature node)
            = slot [Some (F32.of_int 3); Some (F32.of_int 99)] (feature node))
    as H.
  { intros node Hin Hf. apply list_elem_of_In in Hin. simpl in Hin.
    destruct Hin as [<- | [<- | [<- | []]]]; simpl in *; [reflexivity|lia|lia]. }
  split; [exact H|].
  by apply (predict_tree_tested_features 2 stump sample_data).
Defined.

(** X6. When the node array holds a decision tree at an index, in whatever
    layout, the loop started there returns the value of the function the
    tree denotes: at each test the left subtree when the feature is present
    and strictly below the threshold, the right one when it is present and
    not below, and the default side when it is absent; it needs as many
    turns as the tree is deep. *)
Theorem tree_loop_denotes (tree : Tree) (idx : N) (t : dtree) (data : Data)
    (fuel : nat) :
  represents tree idx t -> (depth t <= fuel)%nat ->
  tree_loop fuel data tree idx = Ok (eval data t).
Proof.
  intros Hrep. revert fuel.
  induction Hrep as [i node Hn Hf | i node dl l r Hn Hf Hm _ IHl _ IHr];
    intros fuel Hfuel; simpl in Hfuel.
  - destruct fuel as [|fuel]; [lia|]. simpl.
    apply index_Ok in Hn. rewrite Hn. cbn [bind].
    by destruct (Z.ltb_spec (feature node) 0); [|lia].
  - destruct fuel as [|fuel]; [lia|]. simpl.
    apply index_Ok in Hn. rewrite Hn. cbn [bind].
    destruct (Z.ltb_spec (feature node) 0); [lia|].
    rewrite next_index_slot by done.
    destruct (slot data (feature node)) as [x|].
    + destruct (F32.ltb x (value node)); [apply IHl | apply IHr]; lia.
    + rewrite Hm. destruct dl; [apply IHl | apply IHr]; lia.
Qed.

Lemma tree_loop_denotes_witness :
  represents stump 0%N stump_dtree /\ (depth stump_dtree <= 2)%nat /\
  tree_loop 2 sample_data stump 0%N = Ok (eval sample_data stump_dtree).
Proof.
  assert (represents stump 0%N stump_dtree) as H.
  { apply (represents_node stump 0%N (decision 0 5 1 2 1) true);
      [reflexivity | simpl; lia | reflexivity | |].
    - by apply (represents_leaf stump 1%N (leaf 10)).
    - by apply (represents_leaf stump 2%N (leaf 20)). }
  assert (depth stump_dtree <= 2)%nat as Hd by (simpl; lia).
  split; [exact H|]. split; [exact Hd|].
  exact (tree_loop_denotes stump 0%N stump_dtree sample_data 2 H Hd).
Defined.

(* ===================================================================== *)
(** * Further properties: the shape of an accepted tree *)
(* ===================================================================== *)

Lemma chain_snoc (tree : Tree) (i j k : N) (n : nat) :
  chain tree i n j -> child_of tree j k -> chain tree i (S n) k.
Proof.
  intros H Hk. replace (S n) with (n + 1)%nat by lia.
  eapply chain_app; [exact H|]. econstructor; [exact Hk | constructor].
Qed.

Lemma chain_snoc_inv (tree : Tree) (i j : N) (n : nat) :
  chain tree i (S n) j -> exists p, chain tree i n p /\ child_of tree p j.
Proof.
  revert i. induction n as [|n IH]; intros i H.
  - inversion H as [|? c ? ? Hc Hrest]; subst.
    inversion Hrest; subst. exists i. split; [constructor | done].
  - inversion H as [|? c ? ? Hc Hrest]; subst.
    apply IH in Hrest as (p & Hp & Hpj). exists p. split; [|done].
    by econstructor.
Qed.

Lemma height_bound_no_cycle (tree : Tree) (c j : N) (bound n m : nat) :
  height_bound tree c bound -> chain tree c n j -> ~ chain tree j (S m) j.
Proof.
  intros Hb Hroot Hloop.
  pose proof (chain_app _ _ _ _ _ _ Hroot
                (chain_iter _ _ _ (S bound) Hloop)) as Hlong.
  apply Hb in Hlong. simpl in Hlong. nia.
Qed.

Lemma height_bound_child (tree : Tree) (c x : N) (bound : nat) :
  height_bound tree c bound -> child_of tree c x ->
  exists bound', bound = S bound' /\ height_bound tree x bound'.
Proof.
  intros Hb Hx.
  assert (1 <= bound)%nat as H1.
  { apply (Hb 1%nat x). econstructor; [exact Hx | constructor]. }
  exists (bound - 1)%nat. split; [lia|]. intros n j Hc.
  assert (S n <= bound)%nat; [|lia].
  apply (Hb (S n) j). by econstructor.
Qed.

Lemma desc_child (tree : Tree) (c x j : N) :
  child_of tree c x -> desc tree x j -> desc tree c j.
Proof.
  intros Hx [(n & Hc) Hj]. split; [|done]. exists (S n). by econstructor.
Qed.

Lemma desc_self (tree : Tree) (c : N) : decision_at tree c -> desc tree c c.
Proof. intros Hc. split; [|done]. exists O. constructor. Qed.

(** A decision node below [c] is [c] or lies below a child of [c]. *)
Lemma desc_inv (tree : Tree) (c j : N) :
  desc tree c j ->
  j = c \/ exists node x, tree !! N.to_nat c = Some node /\
             0 <= feature node /\ child_index node x /\ desc tree x j.
Proof.
  intros [(n & Hc) Hj]. inversion Hc as [|? x ? n' Hx Hrest]; subst;
    [by left | right].
  destruct Hx as (node & Hn & Hf & Hx). exists node, x.
  repeat split; try done. by exists n'.
Qed.

Lemma marks_incl_refl (w : list bool) : marks_incl w w.
Proof. by intros j. Qed.

Lemma marks_incl_trans (w1 w2 w3 : list bool) :
  marks_incl w1 w2 -> marks_incl w2 w3 -> marks_incl w1 w3.
Proof. intros H12 H23 j Hj. by apply H23, H12. Qed.

Lemma check_cycles_incl (fuel : nat) (tree : Tree) (idx : N)
    (v v' : list bool) :
  check_cycles fuel tree idx v = Ok v' -> marks_incl v v'.
Proof. intros H j. by eapply check_cycles_keeps. Qed.

Lemma guarded_walk_incl (fuel : nat) (tree : Tree) (go : bool) (idx : N)
    (v v' : list bool) :
  guarded_walk fuel tree go idx v = Ok v' -> marks_incl v v'.
Proof.
  apply (guarded_walk_Ok marks_incl); [apply marks_incl_refl|].
  apply check_cycles_incl.
Qed.

(** The calls that a frame of the walk makes on the children of its node:
    each child index is walked once, between the state left by the frame
    and the state it returns, and two different children one after the
    other. *)
Lemma check_cycles_frame_walks (fuel : nat) (tree : Tree) (c : N)
    (v v' : list bool) (node : Node) :
  check_cycles (S fuel) tree c v = Ok v' ->
  tree !! N.to_nat c = Some node -> 0 <= feature node ->
  v !! N.to_nat c = Some false /\
  exists W : N -> list bool * list bool,
    (forall x, child_index node x ->
       check_cycles fuel tree x (W x).1 = Ok (W x).2 /\
       marks_incl (<[N.to_nat c := true]> v) (W x).1 /\
       marks_incl (W x).2 v' /\ length (W x).1 = length v) /\
    (forall x x', child_index node x -> child_index node x' -> x <> x' ->
       marks_incl (W x).2 (W x').1 \/ marks_incl (W x').2 (W x).1).
Proof.
  intros H Hn Hf.
  apply check_cycles_Ok_inv in H as (node' & Hn' & Hcases).
  assert (node' = node) as -> by congruence.
  destruct Hcases as [[Hf' _] | (_ & Hv & v1 & v2 & H1 & H2 & H3)]; [lia|].
  split; [done|].
  pose proof (check_cycles_incl _ _ _ _ _ H1) as I1.
  pose proof (guarded_walk_incl _ _ _ _ _ _ H2) as I2.
  pose proof (guarded_walk_incl _ _ _ _ _ _ H3) as I3.
  pose proof (check_cycles_length _ _ _ _ _ H1) as L1.
  rewrite length_insert in L1.
  pose proof (guarded_walk_length _ _ _ _ _ _ H2) as L2.
  exists (fun x => if decide (x = yes node)
                   then (<[N.to_nat c := true]> v, v1)
                   else if decide (x = no node) then (v1, v2) else (v2, v')).
  split.
  - intros x Hx. destruct (decide (x = yes node)) as [->|Hy]; simpl.
    { repeat split; [done | apply marks_incl_refl | | by rewrite length_insert].
      eapply marks_incl_trans; [exact I2 | exact I3]. }
    destruct (decide (x = no node)) as [->|Hno]; simpl.
    { destruct (N.eqb_spec (no node) (yes node)) as [|_]; [done|].
      simpl in H2. repeat split; [done | done | done | congruence]. }
    destruct Hx as [-> | [-> | ->]]; try done.
    destruct (N.eqb_spec (missing node) (yes node)) as [|_]; [done|].
    destruct (N.eqb_spec (missing node) (no node)) as [|_]; [done|].
    simpl in H3. repeat split; [done | | apply marks_incl_refl | congruence].
    eapply marks_incl_trans; [exact I1 | exact I2].
  - intros x x' Hx Hx' Hne.
    destruct (decide (x = yes node)) as [->|Hy];
      destruct (decide (x' = yes node)) as [->|Hy']; simpl; try done.
    + left. destruct (decide (x' = no node)); simpl;
        [apply marks_incl_refl | exact I2].
    + right. destruct (decide (x = no node)); simpl;
        [apply marks_incl_refl | exact I2].
    + destruct (decide (x = no node)) as [->|Hno];
        destruct (decide (x' = no node)) as [->|Hno']; simpl; try done.
      * left. apply marks_incl_refl.
      * right. apply marks_incl_refl.
      * destruct Hx as [? | [? | ?]], Hx' as [? | [? | ?]]; congruence.
Qed.

(** A successful walk from [c] finds every decision node below [c] unmarked
    and leaves it marked. *)
Lemma check_cycles_desc_marks (fuel : nat) (tree : Tree) (c : N)
    (v v' : list bool) (j : N) :
  check_cycles fuel tree c v = Ok v' -> desc tree c j ->
  v !! N.to_nat j = Some false /\ v' !! N.to_nat j = Some true.
Proof.
  revert c v v'. induction fuel as [|fuel IH]; intros c v v' H Hj;
    [discriminate|].
  apply desc_inv in Hj as Hcases.
  destruct Hcases as [-> | (node & x & Hn & Hf & Hx & Hxj)].
  { eapply check_cycles_marks_node; [apply Hj | exact H]. }
  destruct (check_cycles_frame_walks _ _ _ _ _ _ H Hn Hf) as (Hv & W & HW & _).
  destruct (HW x Hx) as (Hwalk & Hlo & Hhi & Hlen).
  destruct (IH _ _ _ Hwalk Hxj) as [Hbefore Hafter].
  split; [|by apply Hhi].
  assert (N.to_nat j < length v)%nat as Hlt
    by (apply lookup_lt_Some in Hbefore; lia).
  destruct (lookup_lt_is_Some_2 (<[N.to_nat c := true]> v) (N.to_nat j))
    as [b Hb]; [by rewrite length_insert|].
  destruct b; [apply Hlo in Hb; congruence|].
  destruct (decide (N.to_nat c = N.to_nat j)) as [Heq|Hne].
  - rewrite <- Heq, list_lookup_insert_eq in Hb; [done|].
    by eapply lookup_lt_Some.
  - by rewrite list_lookup_insert_ne in Hb.
Qed.

Lemma desc_snoc (tree : Tree) (y b x : N) :
  desc tree y b -> child_of tree b x -> decision_at tree x -> desc tree y x.
Proof.
  intros [(n & Hc) _] Hx Hdx. split; [|done]. exists (S n).
  by eapply chain_snoc.
Qed.

(** Two walks that both found [x] unmarked and left it marked did not
    follow one another. *)
Lemma marked_twice (w1 w1' w2 w2' : list bool) (x : nat) :
  w1 !! x = Some false -> w1' !! x = Some true ->
  w2 !! x = Some false -> w2' !! x = Some true ->
  marks_incl w1' w2 \/ marks_incl w2' w1 -> False.
Proof.
  intros H1 H1' H2 H2' [Hi | Hi].
  - apply Hi in H1'. congruence.
  - apply Hi in H2'. congruence.
Qed.

(** Below a walked index a decision node has one parent. *)
Lemma check_cycles_single_parent (fuel : nat) (tree : Tree) (c : N)
    (v v' : list bool) :
  check_cycles fuel tree c v = Ok v' -> single_parent tree c.
Proof.
  revert c v v'. induction fuel as [|fuel IH]; intros c v v' H;
    [discriminate|].
  (* [x], a child of [c], is not the child of a node below a child of [c] *)
  assert (forall node x y b,
            tree !! N.to_nat c = Some node -> 0 <= feature node ->
            child_index node x -> child_index node y ->
            desc tree y b -> child_of tree b x -> decision_at tree x ->
            False) as Hback.
  { intros node x y b Hn Hf Hx Hy Hyb Hbx Hdx.
    destruct (check_cycles_frame_walks _ _ _ _ _ _ H Hn Hf)
      as (_ & W & HW & Hord).
    destruct (HW x Hx) as (Hwx & _ & _ & _).
    destruct (HW y Hy) as (Hwy & _ & _ & _).
    destruct (decide (x = y)) as [->|Hne].
    - destruct Hyb as [(n & Hc) _].
      pose proof (chain_snoc _ _ _ _ _ Hc Hbx) as Hloop.
      pose proof (check_cycles_chain _ _ _ _ _ _ _ Hwy
                    (chain_iter _ _ _ (S (length (W y).2)) Hloop)) as Hlong.
      pose proof (marks_le_length (W y).2). simpl in Hlong. nia.
    - destruct (check_cycles_desc_marks _ _ _ _ _ _ Hwx (desc_self _ _ Hdx))
        as [Hx0 Hx1].
      destruct (check_cycles_desc_marks _ _ _ _ _ _ Hwy
                  (desc_snoc _ _ _ _ Hyb Hbx Hdx)) as [Hy0 Hy1].
      exact (marked_twice _ _ _ _ _ Hx0 Hx1 Hy0 Hy1 (Hord x y Hx Hy Hne)). }
  intros a b x Ha Hb Hax Hbx Hdx.
  apply desc_inv in Ha as Ha'. apply desc_inv in Hb as Hb'.
  destruct Ha' as [-> | (node & xa & Hn & Hf & Hxa & Hda)];
    destruct Hb' as [-> | (node' & xb & Hn' & Hf' & Hxb & Hdb)]; [done| | |].
  - exfalso. pose proof Hax as (node & Hn & Hf & Hx).
    assert (node' = node) as -> by congruence.
    exact (Hback node x xb b Hn Hf Hx Hxb Hdb Hbx Hdx).
  - exfalso. pose proof Hbx as (node' & Hn' & Hf' & Hx).
    assert (node' = node) as -> by congruence.
    exact (Hback node x xa a Hn Hf Hx Hxa Hda Hax Hdx).
  - assert (node' = node) as -> by congruence.
    destruct (check_cycles_frame_walks _ _ _ _ _ _ H Hn Hf)
      as (_ & W & HW & Hord).
    destruct (HW xa Hxa) as (Hwa & _ & _ & _).
    destruct (HW xb Hxb) as (Hwb & _ & _ & _).
    destruct (decide (xa = xb)) as [->|Hne].
    + by apply (IH _ _ _ Hwb a b x).
    + exfalso.
      destruct (check_cycles_desc_marks _ _ _ _ _ _ Hwa
                  (desc_snoc _ _ _ _ Hda Hax Hdx)) as [Ha0 Ha1].
      destruct (check_cycles_desc_marks _ _ _ _ _ _ Hwb
                  (desc_snoc _ _ _ _ Hdb Hbx Hdx)) as [Hb0 Hb1].
      exact (marked_twice _ _ _ _ _ Ha0 Ha1 Hb0 Hb1 (Hord xa xb Hxa Hxb Hne)).
Qed.

(** X7. In a tree that the validator accepts, a decision node that the root
    reaches has one parent among the decision nodes that the root reaches:
    two different nodes never share a decision node as a child, so a
    well-formed acyclic graph with a shared decision subtree is refused. *)
Theorem check_Ok_single_parent (tree : Tree) :
  check tree = Ok tt -> single_parent tree 0%N.
Proof.
  intros (_ & _ & v' & Hw)%check_Ok_inv.
  by eapply check_cycles_single_parent.
Qed.

Lemma check_Ok_single_parent_witness :
  check stump = Ok tt /\ single_parent stump 0%N.
Proof.
  split; [reflexivity|]. apply (check_Ok_single_parent stump). reflexivity.
Defined.

Lemma chain_zero (tree : Tree) (i j : N) : chain tree i O j -> i = j.
Proof. by inversion 1. Qed.

(** In a tree-shaped part, the subtrees of two different children of a node
    have no decision node in common. *)
Lemma desc_disjoint (tree : Tree) (c x y j : N) (bound : nat) :
  height_bound tree c bound -> single_parent tree c ->
  child_of tree c x -> child_of tree c y -> x <> y ->
  desc tree x j -> desc tree y j -> False.
Proof.
  intros Hb Hsp Hx Hy Hne [(k & Hxk) Hj] [(l & Hyl) _].
  assert (decision_at tree c) as Hc
    by (destruct Hx as (node & ? & ? & _); by exists node).
  assert (forall z n, child_of tree c z -> chain tree z n c -> False)
    as Hcycle.
  { intros z n Hz Hzc.
    apply (height_bound_no_cycle tree c c bound O n Hb (chain_here _ _)).
    exact (chain_step _ _ _ _ _ Hz Hzc). }
  assert (forall z n p, child_of tree c z -> chain tree z n p ->
            decision_at tree p -> desc tree c p) as Hbelow.
  { intros z n p Hz Hzp Hp. split; [|done]. exists (S n).
    exact (chain_step _ _ _ _ _ Hz Hzp). }
  revert l j Hj Hxk Hyl. induction k as [|k IH]; intros l j Hj Hxk Hyl.
  - apply chain_zero in Hxk as <-. destruct l as [|l].
    + apply chain_zero in Hyl. congruence.
    + apply chain_snoc_inv in Hyl as (p & Hyp & Hpx).
      assert (decision_at tree p) as Hp
        by (destruct Hpx as (node & ? & ? & _); by exists node).
      assert (c = p) as <-
        by exact (Hsp c p x (desc_self _ _ Hc) (Hbelow _ _ _ Hy Hyp Hp)
                    Hx Hpx Hj).
      exact (Hcycle _ _ Hy Hyp).
  - apply chain_snoc_inv in Hxk as (p & Hxp & Hpj).
    assert (decision_at tree p) as Hp
      by (destruct Hpj as (node & ? & ? & _); by exists node).
    destruct l as [|l].
    + apply chain_zero in Hyl as <-.
      assert (c = p) as <-
        by exact (Hsp c p y (desc_self _ _ Hc) (Hbelow _ _ _ Hx Hxp Hp)
                    Hy Hpj Hj).
      exact (Hcycle _ _ Hx Hxp).
    + apply chain_snoc_inv in Hyl as (q & Hyq & Hqj).
      assert (decision_at tree q) as Hq
        by (destruct Hqj as (node & ? & ? & _); by exists node).
      assert (p = q) as <-
        by exact (Hsp p q j (Hbelow _ _ _ Hx Hxp Hp) (Hbelow _ _ _ Hy Hyq Hq)
                    Hpj Hqj Hj).
      exact (IH l p Hp Hxp Hyq).
Qed.

(** On a tree-shaped part with bounded child indices the walk comes back
    normally, having marked nothing but the decision nodes of that part. *)
Lemma check_cycles_complete (tree : Tree) (fuel bound : nat) (c : N)
    (v : list bool) :
  strict_children tree = true ->
  (N.to_nat c < length tree)%nat -> length v = length tree ->
  height_bound tree c bound -> (bound < fuel)%nat ->
  (forall j, desc tree c j -> v !! N.to_nat j = Some false) ->
  single_parent tree c ->
  exists v', check_cycles fuel tree c v = Ok v' /\ length v' = length tree /\
    forall j : N, v' !! N.to_nat j = Some true ->
      v !! N.to_nat j = Some true \/ desc tree c j.
Proof.
  intros Hstrict. revert bound c v.
  induction fuel as [|fuel IH]; intros bound c v Hc Hlen Hb Hfuel Hfresh Hsp;
    [lia|].
  rewrite check_cycles_unfold.
  destruct (index_cases tree c) as [(node & Hn & ->) | [Hge _]]; [|lia].
  cbn [bind]. destruct (Z.leb_spec 0 (feature node)) as [Hf|Hf].
  2:{ exists v. split; [done|]. split; [done|]. tauto. }
  assert (decision_at tree c) as Hdc by (by exists node).
  pose proof (Hfresh c (desc_self _ _ Hdc)) as Hv.
  unfold index at 1. rewrite Hv. cbn [bind].
  destruct (strict_children_lookup _ _ _ Hstrict Hn Hf) as (By & Bn & Bm).
  assert (forall x, child_index node x -> child_of tree c x) as Hchild
    by (intros x Hx; by exists node).
  assert (forall x, child_index node x -> (N.to_nat x < length tree)%nat)
    as Hin by (intros x [-> | [-> | ->]]; done).
  (* one call, guarded or not, on a child not yet walked *)
  assert (forall (go : bool) (walked : list N) (w : list bool) (x : N),
            child_index node x -> Forall (child_index node) walked ->
            (go = true -> x ∉ walked) ->
            between_calls tree c v walked w ->
            exists w' walked',
              guarded_walk fuel tree go x w = Ok w' /\
              between_calls tree c v walked' w' /\
              Forall (child_index node) walked' /\
              forall z, z ∈ walked' -> z ∈ walked \/ z = x) as Hstep.
  { intros go walked w x Hx Hwalked Hnew [Hlw Hmarks].
    destruct go.
    2:{ exists w, walked. split; [done|]. split; [by split|].
        split; [done|]. intros z Hz. by left. }
    specialize (Hnew eq_refl).
    destruct (height_bound_child _ _ _ _ Hb (Hchild x Hx))
      as (bound' & -> & Hbx).
    destruct (IH bound' x w) as (w' & Hrun & Hlw' & Hmarks');
      [by apply Hin | done | done | lia | | |].
    - intros j Hj.
      assert (N.to_nat j < length w)%nat as Hlt.
      { destruct Hj as [_ (nj & Hnj & _)]. apply lookup_lt_Some in Hnj. lia. }
      destruct (lookup_lt_is_Some_2 w (N.to_nat j) Hlt) as [[] Hb']; [|done].
      exfalso. destruct (Hmarks j Hb') as [Hold | [-> | (x' & Hx' & Hdx')]].
      + rewrite (Hfresh j (desc_child _ _ _ _ (Hchild x Hx) Hj)) in Hold.
        discriminate.
      + destruct Hj as [(n & Hc') _].
        apply (height_bound_no_cycle tree c c _ O n Hb (chain_here _ _)).
        exact (chain_step _ _ _ _ _ (Hchild x Hx) Hc').
      + rewrite Forall_forall in Hwalked.
        eapply (desc_disjoint tree c x x' j); try done;
          [by apply Hchild | by apply Hchild, Hwalked | congruence].
    - intros a b z Ha Hb' Haz Hbz Hdz.
      apply (Hsp a b z); try done; by eapply desc_child; [apply Hchild|].
    - exists w', (x :: walked). simpl. split; [done|]. split; [split; [done|]|].
      + intros j Hj. destruct (Hmarks' j Hj) as [Hold | Hnewj].
        * destruct (Hmarks j Hold) as [? | [? | (x' & Hx' & Hdx')]];
            [tauto | tauto | right; right].
          exists x'. split; [by right | done].
        * right. right. exists x. split; [by left | done].
      + split; [by constructor|]. intros z Hz.
        apply elem_of_cons in Hz. tauto. }
  assert (between_calls tree c v [] (<[N.to_nat c := true]> v)) as H0.
  { split; [by rewrite length_insert|]. intros j Hj.
    destruct (decide (N.to_nat c = N.to_nat j)) as [Heq|Hne].
    - right. left. symmetry. by apply N2Nat.inj.
    - left. by rewrite list_lookup_insert_ne in Hj. }
  destruct (Hstep true [] _ (yes node) ltac:(by left) ltac:(constructor)
              ltac:(intros _; apply not_elem_of_nil) H0)
    as (v1 & walked1 & H1 & B1 & C1 & S1).
  simpl in H1. rewrite H1. cbn [bind].
  destruct (Hstep (negb (no node =? yes node)%N) walked1 v1 (no node)
              ltac:(right; by left) C1) as (v2 & walked2 & H2 & B2 & C2 & S2);
    [|done|].
  { intros Hgo Hin'. apply negb_true_iff, N.eqb_neq in Hgo.
    destruct (S1 _ Hin') as [Hnil | Heq]; [by apply elem_of_nil in Hnil|].
    congruence. }
  fold (guarded_walk fuel tree (negb (no node =? yes node)%N) (no node) v1).
  rewrite H2. cbn [bind].
  destruct (Hstep (negb (missing node =? yes node)%N
                   && negb (missing node =? no node)%N) walked2 v2
              (missing node) ltac:(right; by right) C2)
    as (v3 & walked3 & H3 & [L3 M3] & C3 & S3); [|done|].
  { intros Hgo Hin'. apply andb_true_iff in Hgo as [Hg1 Hg2].
    apply negb_true_iff, N.eqb_neq in Hg1, Hg2.
    destruct (S2 _ Hin') as [Hin1 | Heq]; [|congruence].
    destruct (S1 _ Hin1) as [Hnil | Heq]; [by apply elem_of_nil in Hnil|].
    congruence. }
  unfold guarded_walk in H3. exists v3. split; [exact H3|]. split; [done|].
  intros j Hj. destruct (M3 j Hj) as [? | [-> | (x & Hx & Hdx)]];
    [by left | right; by apply desc_self | right].
  rewrite Forall_forall in C3.
  eapply desc_child; [apply Hchild, C3, Hx | done].
Qed.

(** X8. The validator accepts every tree-shaped input: a non-empty tree
    whose decision nodes have child indices below [tree.size()], in which
    the chains of child edges from the root are of bounded length and a
    decision node that the root reaches has one parent, passes [check]. *)
Theorem check_accepts_tree_shaped (tree : Tree) (bound : nat) :
  tree <> [] -> strict_children tree = true ->
  height_bound tree 0%N bound -> single_parent tree 0%N ->
  check tree = Ok tt.
Proof.
  intros Hne Hstrict Hb Hsp.
  rewrite check_nonempty, (strict_children_indices _ Hstrict) by done.
  cbn [bind]. rewrite <- (check_walk_any_fuel tree (S bound)).
  destruct (check_cycles_complete tree (S bound + check_fuel tree) bound 0%N
              (replicate (length tree) false) Hstrict)
    as (v' & -> & _); try done.
  - destruct tree; [done | simpl; lia].
  - apply length_replicate.
  - lia.
  - intros j [_ (node & Hn & _)]. apply lookup_replicate. split; [done|].
    by apply lookup_lt_Some in Hn.
Qed.

Lemma check_accepts_tree_shaped_witness :
  stump <> [] /\ strict_children stump = true /\
  height_bound stump 0%N 1 /\ single_parent stump 0%N /\
  check stump = Ok tt.
Proof.
  assert (forall x node, stump !! N.to_nat x = Some node ->
            0 <= feature node -> x = 0%N /\ node = decision 0 5 1 2 1)
    as Hdec.
  { intros x node Hn Hf.
    assert (N.to_nat x < 3)%nat as Hlt
      by (apply lookup_lt_Some in Hn; simpl in Hn; lia).
    destruct (N.to_nat x) as [|[|[|k]]] eqn:E; simpl in Hn; try lia;
      injection Hn as <-; simpl in Hf; try lia.
    split; [lia | done]. }
  assert (forall a x, child_of stump a x -> ~ decision_at stump x) as Hkids.
  { intros a x (na & Hna & Hfa & Hx) (nx & Hnx & Hfx).
    destruct (Hdec a na Hna Hfa) as [-> ->].
    destruct (Hdec x nx Hnx Hfx) as [-> _].
    simpl in Hx. destruct Hx as [? | [? | ?]]; discriminate. }
  assert (height_bound stump 0%N 1) as Hb.
  { intros n j Hc. inversion Hc as [|? x ? n' Hx Hrest]; subst; [lia|].
    inversion Hrest as [|? y ? n'' (nx & Hnx & Hfx & _) _]; subst; [lia|].
    destruct (Hkids _ _ Hx). by exists nx. }
  assert (single_parent stump 0%N) as Hsp.
  { intros a b x _ _ Hax _ Hdx. destruct (Hkids _ _ Hax Hdx). }
  split; [discriminate|]. split; [reflexivity|]. split; [exact Hb|].
  split; [exact Hsp|].
  exact (check_accepts_tree_shaped stump 1 ltac:(discriminate) eq_refl Hb Hsp).
Defined.

(* ===================================================================== *)
(** * Further properties: the loaded model *)
(* ===================================================================== *)

Lemma total_trees_resize (n : nat) (acc : list Predictor) :
  (length acc <= n)%nat -> total_trees (resize n [] acc) = total_trees acc.
Proof.
  intros Hn. unfold total_trees.
  rewrite resize_spec, take_ge, sum_list_with_app by lia.
  assert (forall k, sum_list_with length (replicate k ([] : Predictor)) = O)
    as -> by (induction k; simpl; done).
  lia.
Qed.

Lemma total_trees_insert (acc : list Predictor) (g : nat)
    (slot : Predictor) (tree : Tree) :
  acc !! g = Some slot ->
  total_trees (<[g := slot ++ [tree]]> acc) = S (total_trees acc).
Proof.
  intros Hslot. unfold total_trees.
  rewrite insert_take_drop by (by eapply lookup_lt_Some).
  rewrite <- (take_drop_middle acc g slot Hslot) at 3.
  rewrite !sum_list_with_app. simpl. rewrite length_app. simpl. lia.
Qed.

Lemma build_predictors_loop_total (predictor : Predictor) (i : nat)
    (info : list Z) (acc groups : list Predictor) :
  build_predictors_loop predictor i info acc = Ok groups ->
  total_trees groups = (total_trees acc + length info)%nat.
Proof.
  revert i acc. induction info as [|g info IH]; intros i acc H; simpl in H.
  { injection H as <-. simpl. lia. }
  destruct (g <? 0); [discriminate|].
  apply bind_Ok_inv in H as (tree & _ & H).
  apply bind_Ok_inv in H as (slot & Hslot & H).
  apply index_Ok in Hslot. rewrite Z_N_nat in Hslot.
  apply IH in H. rewrite H, (total_trees_insert _ _ _ _ Hslot).
  rewrite total_trees_resize; [simpl; lia|].
  destruct (_ <? _)%N eqn:E; [apply N.ltb_lt in E | apply N.ltb_ge in E]; lia.
Qed.

Lemma parse_trees_Ok (json_trees : list JsonTree) (predictor : Predictor) :
  parse_trees json_trees [] = Ok predictor ->
  Forall2 (fun jt t => parse_tree jt = Ok t) json_trees predictor.
Proof.
  intros H.
  destruct (parse_trees_app json_trees []) as [(ts & Hts & Hrun) |
    (good & bad & rest & ts & _ & _ & Hbad & Hfail)].
  - rewrite Hrun in H. by injection H as <-.
  - rewrite H in Hfail. simpl in Hfail.
    destruct (parse_tree bad); simpl in *; discriminate.
Qed.

Lemma concat_resize (n : nat) (acc : list Predictor) :
  (length acc <= n)%nat -> concat (resize n [] acc) = concat acc.
Proof.
  intros Hn. rewrite resize_spec, take_ge, concat_app by lia.
  assert (forall k, concat (replicate k ([] : Predictor)) = []) as ->
    by (induction k; simpl; done).
  by rewrite app_nil_r.
Qed.

Lemma concat_insert_snoc (acc : list Predictor) (g : nat) (slot : Predictor)
    (tree : Tree) :
  acc !! g = Some slot ->
  concat (<[g := slot ++ [tree]]> acc) ≡ₚ tree :: concat acc.
Proof.
  intros Hslot.
  rewrite insert_take_drop by (by eapply lookup_lt_Some).
  rewrite <- (take_drop_middle acc g slot Hslot) at 3.
  rewrite !concat_app. simpl. rewrite <- !app_assoc. simpl.
  rewrite (Permutation_middle (concat (take g acc))).
  apply Permutation_app_head.
  by rewrite (Permutation_middle slot).
Qed.

(** The assembly loses no tree and files none twice: the groups together
    hold the trees consumed, each once. *)
Lemma build_predictors_loop_perm (predictor : Predictor) (i : nat)
    (info : list Z) (acc groups : list Predictor) :
  build_predictors_loop predictor i info acc = Ok groups ->
  concat groups ≡ₚ concat acc ++ take (length info) (drop i predictor).
Proof.
  revert i acc. induction info as [|g info IH]; intros i acc H; simpl in H.
  { injection H as <-. simpl. by rewrite app_nil_r. }
  destruct (g <? 0); [discriminate|].
  apply bind_Ok_inv in H as (tree & Htree & H).
  apply bind_Ok_inv in H as (slot & Hslot & H).
  apply index_Ok in Htree, Hslot.
  rewrite Nat2N.id in Htree. rewrite Z_N_nat in Hslot.
  apply IH in H. rewrite H, (concat_insert_snoc _ _ _ _ Hslot).
  rewrite concat_resize.
  2:{ destruct (_ <? _)%N eqn:E;
        [apply N.ltb_lt in E | apply N.ltb_ge in E]; lia. }
  rewrite (drop_S _ _ _ Htree). simpl.
  by rewrite <- Permutation_middle.
Qed.

(** A tree object that no exception rejects has been turned into a tree,
    or has a child entry equal to its number of nodes and made validation
    index past the end. *)
Lemma parse_tree_not_thrown (jt : JsonTree) :
  not_thrown (parse_tree jt) ->
  (exists t, parse_tree jt = Ok t) \/
  (parse_tree jt = OutOfBounds /\ past_end_entry jt).
Proof.
  unfold parse_tree. intros Hno.
  destruct (checkSizes_aligned jt) as [[Hal Hs] | [_ Hs]]; rewrite Hs in *.
  2:{ by destruct (Hno JsonArraySizes). }
  cbn [bind] in *.
  destruct (build_nodes_tree jt Hal) as (tree & Hb & Hlen & Hnodes).
  rewrite Hb in *. cbn [bind] in *.
  assert (not_thrown (check tree)) as Hcheck.
  { intros e He. apply (Hno e). by rewrite He. }
  destruct (check_not_thrown tree Hcheck) as [Hc | Hc]; rewrite Hc; cbn [bind].
  { left. eauto. }
  right. split; [done|].
  destruct (check_OutOfBounds_child tree Hc) as [(i & node & Hi & Hf & Hch) _].
  exists (N.to_nat i), node. rewrite <- Hnodes, <- Hlen. done.
Qed.

Lemma parse_trees_not_thrown (json_trees : list JsonTree) (acc : Predictor) :
  not_thrown (parse_trees json_trees acc) ->
  (exists predictor, parse_trees json_trees acc = Ok predictor) \/
  (parse_trees json_trees acc = OutOfBounds /\
   exists jt, jt ∈ json_trees /\ past_end_entry jt).
Proof.
  intros Hno.
  destruct (parse_trees_app json_trees acc) as [(ts & _ & Hrun) |
    (good & bad & rest & ts & -> & _ & Hbad & Hfail)]; [left; eauto|].
  right.
  assert (not_thrown (parse_tree bad)) as Hnb.
  { intros e He. rewrite He in Hfail. apply (Hno e).
    destruct (parse_trees _ acc); simpl in Hfail; congruence. }
  destruct (parse_tree_not_thrown bad Hnb) as [(t & Ht) | [Hoob Hentry]].
  { rewrite Ht in Hbad. discriminate. }
  rewrite Hoob in Hfail. split.
  - destruct (parse_trees _ acc); simpl in Hfail; congruence.
  - exists bad. split; [|done]. apply elem_of_app. right. by left.
Qed.

(** A document that no exception rejects has been loaded, or holds a tree
    object with a child entry equal to its number of nodes, on which
    validation indexed past the end. *)
Lemma parse_not_thrown (logf : float -> float) (j : JsonModel) :
  Forall is_int (tree_info j) -> not_thrown (parse logf j) ->
  (exists m, parse logf j = Ok m) \/
  (parse logf j = OutOfBounds /\
   exists jt, jt ∈ trees j /\ past_end_entry jt).
Proof.
  unfold parse. intros Hint Hno.
  assert (not_thrown (parse_trees (trees j) [])) as Hnt.
  { intros e He. apply (Hno e). by rewrite He. }
  destruct (parse_trees_not_thrown (trees j) [] Hnt)
    as [(predictor & Hp) | [Hoob Hentry]].
  2:{ right. by rewrite Hoob. }
  left. rewrite Hp in *. cbn [bind] in *.
  destruct (build_predictors_cases predictor (tree_info j) Hint)
    as [(_ & Hb) | [(_ & _ & Hb) | (_ & _ & Hb)]]; rewrite Hb in *;
    cbn [bind] in *.
  - by destruct (Hno TreeInfoSize).
  - by destruct (Hno TreeInfoGroup).
  - unfold transformBaseScore in *.
    destruct (logistic_objective _).
    + destruct (_ || _); cbn [bind] in *; [|eauto].
      by destruct (Hno InvalidBaseScore).
    + destruct (log_objective _); cbn [bind]; eauto.
Qed.

(** X9. Loading files every tree object exactly once.  For a document that
    no exception rejects, either the load returns a model whose groups are
    the grouping of the parsed trees by their [tree_info] entry, group [g]
    holding in file order the trees whose entry is [g]; the groups taken
    together are a rearrangement of the list of parsed trees, so that no
    tree is lost and none is filed twice; there are as many trees in the
    groups as tree objects in the document, and each has passed [check];
    or some tree object has a child entry equal to its number of nodes, and
    validation indexed past the end of that tree. *)
Theorem parse_keeps_trees (logf : float -> float) (j : JsonModel) :
  Forall is_int (tree_info j) -> not_thrown (parse logf j) ->
  (exists m predictor,
     parse logf j = Ok m /\
     Forall2 (fun jt t => parse_tree jt = Ok t) (trees j) predictor /\
     predictors m = grouped predictor (tree_info j) /\
     concat (predictors m) ≡ₚ predictor /\
     total_trees (predictors m) = length (trees j) /\
     Forall (Forall (fun t => t ∈ predictor /\ check t = Ok tt))
       (predictors m)) \/
  (parse logf j = OutOfBounds /\
   exists jt, jt ∈ trees j /\ past_end_entry jt).
Proof.
  intros Hint Hno.
  destruct (parse_not_thrown logf j Hint Hno) as [(m & H) | Hpast];
    [left | by right].
  exists m. pose proof H as Hm. unfold parse in H.
  apply bind_Ok_inv in H as (predictor & Htrees & H).
  apply bind_Ok_inv in H as (groups & Hgroups & H).
  apply bind_Ok_inv in H as (base & _ & [= <-]). simpl.
  exists predictor. split; [done|].
  pose proof (parse_trees_checked _ _ _ (Forall_nil_2 _) Htrees) as Hchecked.
  apply parse_trees_Ok in Htrees. split; [done|].
  assert (groups = grouped predictor (tree_info j)) as Hgrouped.
  { destruct (build_predictors_cases predictor (tree_info j) Hint)
      as [(_ & Hb) | [(_ & _ & Hb) | (_ & _ & Hb)]]; congruence. }
  split; [done|].
  unfold build_predictors in Hgroups.
  destruct (Nat.eqb_spec (length (tree_info j)) (length predictor))
    as [Hlen|]; [|discriminate].
  simpl in Hgroups. split; [|split].
  - rewrite (build_predictors_loop_perm _ _ _ _ _ Hgroups). simpl.
    by rewrite drop_0, take_ge by lia.
  - apply build_predictors_loop_total in Hgroups. rewrite Hgroups.
    apply Forall2_length in Htrees. unfold total_trees. simpl. lia.
  - eapply build_predictors_loop_elem; [|constructor|exact Hgroups].
    apply Forall_forall. intros t Ht. split; [done|].
    rewrite Forall_forall in Hchecked. by apply Hchecked.
Qed.

Lemma parse_keeps_trees_witness :
  Forall is_int (tree_info crossed_json) /\
  not_thrown (parse (fun x => x) crossed_json) /\
  exists m,
    parse (fun x => x) crossed_json = Ok m /\
    predictors m = [[[leaf 7]]; [stump]] /\
    concat (predictors m) ≡ₚ [stump; [leaf 7]].
Proof.
  assert (Forall is_int (tree_info crossed_json)) as H1
    by (repeat constructor; unfold is_int; lia).
  assert (not_thrown (parse (fun x => x) crossed_json)) as H2
    by (intros e; discriminate).
  split; [exact H1|]. split; [exact H2|].
  destruct (parse_keeps_trees (fun x => x) crossed_json H1 H2)
    as [(m & predictor & Hm & Hp & Hg & Hperm & _) | (Hoob & _)];
    [|discriminate Hoob].
  exists m. split; [exact Hm|].
  assert (predictor = [stump; [leaf 7]]) as Hpred.
  { apply Forall2_cons_inv_l in Hp as (t1 & p1 & Ht1 & Hp & ->).
    apply Forall2_cons_inv_l in Hp as (t2 & p2 & Ht2 & Hp & ->).
    apply Forall2_nil_inv_l in Hp as ->.
    injection Ht1 as <-. injection Ht2 as <-. reflexivity. }
  rewrite Hpred in Hg, Hperm. split; [exact Hg | exact Hperm].
Defined.

(** X10. What the load lets through, predict can evaluate, unless
    validation left the tree.  For a document that no exception rejects,
    either the load returns a model on which the single-instance [predict],
    for every feature vector and either value of [outputMargin], comes back
    with one score per output group (given fuel above the largest tree),
    neither throwing nor indexing past the end nor running forever; or some
    tree object has a child entry equal to its number of nodes, and
    validation indexed past the end of that tree. *)
Theorem parse_then_predict (expf logf : float -> float) (j : JsonModel) :
  Forall is_int (tree_info j) -> not_thrown (parse logf j) ->
  (exists m,
     parse logf j = Ok m /\
     forall (data : Data) (outputMargin : bool) (fuel : nat),
       (model_fuel m <= fuel)%nat ->
       exists out, predict expf fuel m data outputMargin = Ok out /\
                   length out = length (predictors m)) \/
  (parse logf j = OutOfBounds /\
   exists jt, jt ∈ trees j /\ past_end_entry jt).
Proof.
  intros Hint Hno.
  destruct (parse_not_thrown logf j Hint Hno) as [(m & Hparse) | Hpast];
    [left | by right].
  exists m. split; [done|]. intros data outputMargin fuel Hfuel.
  apply parse_checked in Hparse.
  destruct (checked_model_leaves m fuel data Hparse Hfuel) as (leaves & Hl).
  unfold predict. rewrite (predict_groups_Ok _ _ _ _ _ [] Hl). cbn [bind].
  eexists. split; [reflexivity|]. apply Forall2_length in Hl.
  destruct outputMargin; simpl; [|rewrite transform_length];
    by rewrite length_fmap.
Qed.

Lemma parse_then_predict_witness :
  Forall is_int (tree_info crossed_json) /\
  not_thrown (parse (fun x => x) crossed_json) /\
  exists m out,
    parse (fun x => x) crossed_json = Ok m /\
    predict (fun x => x) 4 m sample_data false = Ok out /\
    length out = 2%nat.
Proof.
  assert (Forall is_int (tree_info crossed_json)) as H1
    by (repeat constructor; unfold is_int; lia).
  assert (not_thrown (parse (fun x => x) crossed_json)) as H2
    by (intros e; discriminate).
  split; [exact H1|]. split; [exact H2|].
  destruct (parse_then_predict (fun x => x) (fun x => x) crossed_json H1 H2)
    as [(m & Hm & Hrun) | (Hoob & _)]; [|discriminate Hoob].
  assert (m = {| predictors := [[[leaf 7]]; [stump]]; base_score := F32.zero;
                 transformation := NONE |}) as Heq.
  { assert (parse (fun x => x) crossed_json
            = Ok {| predictors := [[[leaf 7]]; [stump]];
                    base_score := F32.zero; transformation := NONE |})
      as Hval by reflexivity.
    rewrite Hval in Hm. by injection Hm. }
  destruct (Hrun sample_data false 4%nat) as (out & Hout & Hlen).
  { rewrite Heq. vm_compute. lia. }
  exists m, out. split; [exact Hm|]. split; [exact Hout|].
  rewrite Hlen, Heq. reflexivity.
Defined.

(* ===================================================================== *)
(** * Further properties: prediction and transformation *)
(* ===================================================================== *)

Lemma map_fmap {A B : Type} (f : A -> B) (l : list A) : map f l = f <$> l.
Proof. induction l as [|a l IH]; [done|]. simpl. by rewrite IH. Qed.

Lemma transform_pointwise (expf : float -> float) (scores : list float)
    (t : Transformation) :
  t <> SOFTMAX -> transform expf scores t = pointwise expf t <$> scores.
Proof.
  intros Ht. unfold transform. destruct scores as [|p rest]; [done|].
  destruct t; [|apply map_fmap|done].
  symmetry. exact (list_fmap_id (p :: rest)).
Qed.

(** X11. [transform] works in place and never changes the number of
    scores, whatever the kind; for the kinds other than softmax it acts on
    each score separately, so the score at a position depends on the input
    at that position only. *)
Theorem transform_shape (expf : float -> float) (scores : list float)
    (t : Transformation) :
  length (transform expf scores t) = length scores /\
  (t <> SOFTMAX ->
   forall i, transform expf scores t !! i = pointwise expf t <$> scores !! i).
Proof.
  split.
  - unfold transform. destruct scores as [|p rest]; [done|].
    destruct t; [done | apply length_map |].
    unfold transformSoftmax.
    pose proof (softmax_exp_length expf (softmax_max (p :: rest)) (p :: rest)
                  F64.zero) as H.
    destruct (softmax_exp expf _ (p :: rest) F64.zero) as [es sum].
    by rewrite length_map.
  - intros Ht i. rewrite transform_pointwise by done.
    apply list_lookup_fmap.
Qed.

Lemma transform_shape_witness :
  SIGMOID <> SOFTMAX /\
  length (transform (fun x => x) [F32.zero; F32.one] SIGMOID) = 2%nat.
Proof.
  split; [discriminate|].
  exact (proj1 (transform_shape (fun x => x) [F32.zero; F32.one] SIGMOID)).
Defined.

Lemma predict_instances_inv (fuel : nat) (m : Model) (group : Predictor)
    (data : list Data) (acc scores : list float) :
  predict_instances fuel m group data acc = Ok scores ->
  exists margins,
    Forall2 (fun d s => predict_predictor fuel m d group = Ok s) data margins /\
    scores = acc ++ margins.
Proof.
  revert acc. induction data as [|d data IH]; intros acc H; simpl in H.
  { injection H as <-. exists []. split; [constructor | by rewrite app_nil_r]. }
  apply bind_Ok_inv in H as (s & Hs & H).
  apply IH in H as (margins & Hm & ->).
  exists (s :: margins). split; [by constructor | by rewrite <- app_assoc].
Qed.

Lemma predict_sole_group (expf : float -> float) (fuel : nat) (m : Model)
    (group : Predictor) (d : Data) (outputMargin : bool) :
  predictors m = [group] ->
  predict expf fuel m d outputMargin =
  do s <- predict_predictor fuel m d group;
  Ok (if negb outputMargin then transform expf [s] (transformation m)
      else [s]).
Proof.
  intros Hg. unfold predict. rewrite Hg. simpl.
  by destruct (predict_predictor fuel m d group).
Qed.

(** X12. For a model with one output group whose transformation is not
    softmax, the batch [predict] agrees with the single-instance [predict]
    instance by instance: it returns the scores [s_1 .. s_n] exactly when
    the single-instance call on the i-th vector returns the one-element
    vector holding [s_i], for every i. *)
Theorem predict_batch_pointwise (expf : float -> float) (fuel : nat)
    (m : Model) (group : Predictor) (data : list Data) (outputMargin : bool)
    (scores : list float) :
  predictors m = [group] -> transformation m <> SOFTMAX ->
  (predict_batch expf fuel m data outputMargin = Ok scores <->
   Forall2 (fun d s => predict expf fuel m d outputMargin = Ok [s])
     data scores).
Proof.
  intros Hg Ht.
  set (g := fun s : float =>
              if negb outputMargin then pointwise expf (transformation m) s
              else s).
  assert (forall l : list float,
            (if negb outputMargin then transform expf l (transformation m)
             else l) = g <$> l) as Hpost.
  { intros l. unfold g. destruct outputMargin; simpl.
    - by rewrite list_fmap_id.
    - by apply transform_pointwise. }
  assert (forall d s s',
            predict_predictor fuel m d group = Ok s' ->
            (predict expf fuel m d outputMargin = Ok [s] <-> s = g s'))
    as Hone.
  { intros d s s' Hs'. rewrite (predict_sole_group _ _ _ _ _ _ Hg), Hs'.
    cbn [bind]. rewrite (Hpost [s']). simpl. split; [by intros [= ->]|].
    by intros ->. }
  unfold predict_batch. rewrite Hg. simpl length. cbn [Nat.eqb negb].
  unfold index. simpl lookup. cbn [bind]. split.
  - intros H. apply bind_Ok_inv in H as (raw & Hraw & [= <-]).
    apply predict_instances_inv in Hraw as (margins & Hm & ->).
    rewrite app_nil_l, Hpost. apply Forall2_fmap_r.
    eapply Forall2_impl; [exact Hm|]. intros d s Hs. by apply (Hone d _ s).
  - intros H.
    assert (exists margins,
              Forall2 (fun d s => predict_predictor fuel m d group = Ok s)
                data margins /\ scores = g <$> margins) as (margins & Hm & ->).
    { induction H as [|d s data scores Hs _ (margins & Hm & ->)].
      - exists []. split; [constructor | done].
      - rewrite (predict_sole_group _ _ _ _ _ _ Hg) in Hs.
        apply bind_Ok_inv in Hs as (s' & Hs' & Hs).
        exists (s' :: margins). split; [by constructor|].
        rewrite (Hpost [s']) in Hs. simpl in Hs. by injection Hs as <-. }
    rewrite (predict_instances_Ok _ _ _ _ _ [] Hm). cbn [bind].
    by rewrite app_nil_l, Hpost.
Qed.

Lemma predict_batch_pointwise_witness :
  predictors sample_model = [[stump]] /\
  transformation sample_model <> SOFTMAX /\
  Forall2 (fun d s => predict (fun x => x) 4 sample_model d false = Ok [s])
    [sample_data; []] [F32.of_int 10; F32.of_int 10].
Proof.
  assert (predictors sample_model = [[stump]]) as H1 by reflexivity.
  assert (transformation sample_model <> SOFTMAX) as H2 by discriminate.
  split; [exact H1|]. split; [exact H2|].
  by apply (predict_batch_pointwise (fun x => x) 4 sample_model [stump]
              [sample_data; []] false [F32.of_int 10; F32.of_int 10] H1 H2).
Defined.

Lemma tree_loop_no_throw (fuel : nat) (data : Data) (tree : Tree) (idx : N)
    (e : error) :
  tree_loop fuel data tree idx <> Throw e.
Proof.
  revert idx. induction fuel as [|fuel IH]; intros idx; [done|].
  simpl. destruct (index_cases tree idx) as [(node & _ & ->) | [_ ->]];
    [|done].
  cbn [bind]. destruct (feature node <? 0); [done | apply IH].
Qed.

Lemma predict_predictor_no_throw (fuel : nat) (m : Model) (data : Data)
    (group : Predictor) (e : error) :
  predict_predictor fuel m data group <> Throw e.
Proof.
  unfold predict_predictor.
  assert (forall acc, sum_trees fuel data group acc <> Throw e) as H.
  { induction group as [|tree rest IH]; intros acc; [done|]. simpl.
    unfold predict_tree.
    pose proof (tree_loop_no_throw fuel data tree 0%N e) as Ht.
    destruct (tree_loop fuel data tree 0%N); cbn [bind];
      [apply IH | done..]. }
  specialize (H F32.zero).
  destruct (sum_trees fuel data group F32.zero); cbn [bind]; done.
Qed.

(** X13. The single-instance [predict] never throws, on any model, loaded
    or not: its only failures are those of a tree that [check] would not
    have accepted.  The batch [predict] throws nothing but "incompatible
    model size", and throws it only for a model whose number of groups is
    not one. *)
Theorem predict_throws (expf : float -> float) (fuel : nat) (m : Model)
    (e : error) :
  (forall data outputMargin,
     predict expf fuel m data outputMargin <> Throw e) /\
  (forall data outputMargin,
     predict_batch expf fuel m data outputMargin = Throw e ->
     e = IncompatibleModelSize /\ length (predictors m) <> 1%nat).
Proof.
  split.
  - intros data outputMargin. unfold predict.
    assert (forall groups acc,
              predict_groups fuel m data groups acc <> Throw e) as H.
    { induction groups as [|group rest IH]; intros acc; [done|]. simpl.
      pose proof (predict_predictor_no_throw fuel m data group e) as Hp.
      destruct (predict_predictor fuel m data group); cbn [bind];
        [apply IH | intros [= ->]; by destruct Hp | done | done]. }
    specialize (H (predictors m) []).
    destruct (predict_groups fuel m data (predictors m) []); cbn [bind];
      done.
  - intros data outputMargin. unfold predict_batch.
    destruct (Nat.eqb_spec (length (predictors m)) 1) as [Hlen|Hlen]; simpl;
      [|by intros [= <-]].
    destruct (index (predictors m) 0%N) as [front| | |] eqn:Ef; cbn [bind];
      try done.
    + assert (forall ds acc,
                predict_instances fuel m front ds acc <> Throw e) as H.
      { induction ds as [|d rest IH]; intros acc; [done|]. simpl.
        pose proof (predict_predictor_no_throw fuel m d front e) as Hp.
        destruct (predict_predictor fuel m d front); cbn [bind];
          [apply IH | intros [= ->]; by destruct Hp | done | done]. }
      specialize (H data []).
      destruct (predict_instances fuel m front data []); cbn [bind]; done.
    + unfold index in Ef. by destruct (predictors m !! N.to_nat 0).
Qed.

Lemma predict_throws_witness :
  predict_batch (fun x => x) 4
    {| predictors := []; base_score := F32.zero; transformation := NONE |}
    [sample_data] false = Throw IncompatibleModelSize /\
  IncompatibleModelSize = IncompatibleModelSize.
Proof.
  split; [reflexivity|].
  exact (proj1 (proj2 (predict_throws (fun x => x) 4
           {| predictors := []; base_score := F32.zero;
              transformation := NONE |} IncompatibleModelSize)
           [sample_data] false eq_refl)).
Defined.

(** X14. The transformation kind and the stored base score of a loaded
    model go together: the kind is the one the objective selects; when it
    is the sigmoid, the stored base score is the logit of the declared one,
    which passed the guard of the logistic family; when it is the softmax,
    the stored base score is the declared one, unchanged. *)
Theorem parse_kind_and_base (logf : float -> float) (j : JsonModel)
    (m : Model) :
  parse logf j = Ok m ->
  transformation m = select_transformation (objective_name j) /\
  (transformation m = SIGMOID ->
   base_score m = logit logf (base_score_param j) /\
   F32.leb (base_score_param j) F32.zero = false /\
   F32.geb (base_score_param j) F32.one = false) /\
  (transformation m = SOFTMAX -> base_score m = base_score_param j).
Proof.
  unfold parse. intros H.
  apply bind_Ok_inv in H as (predictor & _ & H).
  apply bind_Ok_inv in H as (groups & _ & H).
  apply bind_Ok_inv in H as (base & Hbase & [= <-]). simpl.
  split; [done|]. unfold select_transformation, transformBaseScore in *.
  split.
  - destruct (String.eqb_spec (objective_name j) "multi:softprob");
      [discriminate|].
    destruct (String.eqb (objective_name j) "reg:logistic"
              || String.eqb (objective_name j) "binary:logistic") eqn:E;
      [|discriminate].
    intros _.
    assert (logistic_objective (objective_name j) = true) as Hl
      by (unfold logistic_objective; by rewrite E).
    rewrite Hl in Hbase.
    destruct (F32.leb (base_score_param j) F32.zero) eqn:E0;
      [discriminate|].
    destruct (F32.geb (base_score_param j) F32.one) eqn:E1;
      [discriminate|].
    simpl in Hbase. by injection Hbase as <-.
  - destruct (String.eqb_spec (objective_name j) "multi:softprob")
      as [Heq|].
    2:{ destruct (String.eqb (objective_name j) "reg:logistic"
                  || String.eqb (objective_name j) "binary:logistic");
          intros Hk; discriminate Hk. }
    intros _. rewrite Heq in Hbase. simpl in Hbase. by injection Hbase as <-.
Qed.

Lemma parse_kind_and_base_witness :
  parse (fun x => x) (sample_json "multi:softprob" half)
  = Ok {| predictors := [[stump]; [stump]]; base_score := half;
          transformation := SOFTMAX |} /\
  SOFTMAX = select_transformation "multi:softprob".
Proof.
  assert (parse (fun x => x) (sample_json "multi:softprob" half)
          = Ok {| predictors := [[stump]; [stump]]; base_score := half;
                  transformation := SOFTMAX |}) as H by reflexivity.
  split; [exact H|].
  exact (proj1 (parse_kind_and_base _ _ _ H)).
Defined.

(** The walk stays inside a tree from an index at which the array holds a
    decision tree. *)
Lemma represents_in_bounds (fuel : nat) (tree : Tree) (idx : N)
    (v : list bool) (t : dtree) :
  represents tree idx t -> length v = length tree ->
  check_cycles fuel tree idx v <> OutOfBounds.
Proof.
  revert idx v t.
  induction fuel as [|fuel IH]; intros idx v t Hrep Hv; [discriminate|].
  rewrite check_cycles_unfold.
  destruct Hrep as [idx node Hn Hf | idx node dl l r Hn Hf Hm Hl Hr].
  - rewrite (proj2 (index_Ok tree idx node) Hn). cbn [bind].
    by destruct (Z.leb_spec 0 (feature node)); [lia|].
  - rewrite (proj2 (index_Ok tree idx node) Hn). cbn [bind].
    destruct (Z.leb_spec 0 (feature node)) as [_|]; [|lia].
    destruct (index_cases v idx) as [(seen & _ & ->) | [Hge _]].
    2:{ apply lookup_lt_Some in Hn. lia. }
    cbn [bind]. destruct seen; [discriminate|].
    assert (forall go c w t', represents tree c t' ->
              length w = length tree ->
              guarded_walk fuel tree go c w <> OutOfBounds) as Hguard.
    { intros [] c w t' Hc Hw; simpl; [by eapply IH | discriminate]. }
    assert (exists tm, represents tree (missing node) tm) as (tm & Htm)
      by (rewrite Hm; destruct dl; eauto).
    destruct (check_cycles fuel tree (yes node) _) as [v1| | |] eqn:E1;
      cbn [bind]; try discriminate.
    + apply check_cycles_length in E1. rewrite length_insert in E1.
      destruct (guarded_walk fuel tree _ (no node) v1) as [v2| | |] eqn:E2;
        cbn [bind]; try discriminate.
      * eapply Hguard; [exact Htm|]. apply guarded_walk_length in E2.
        congruence.
      * exfalso. revert E2. eapply Hguard; [exact Hr | congruence].
    + exfalso. revert E1. eapply IH; [exact Hl | by rewrite length_insert].
Qed.

(** X15. What validation lets through is a decision tree, unless validation
    left the array.  Take a tree that no exception of [check] rejects and
    whose nodes send a missing value to their yes or to their no child, as
    every node built by the loader does.  Either [check] returned without
    indexing past the end, and then the array holds a decision tree at its
    root, no deeper than the array is long plus one; or [check] indexed past
    the end, some decision node has a child index equal to [tree.size()],
    and the array holds no decision tree at its root. *)
Theorem checked_tree_represents (tree : Tree) :
  not_thrown (check tree) ->
  Forall (fun node => missing node = yes node \/ missing node = no node)
    tree ->
  (check tree = Ok tt /\
   exists t, represents tree 0%N t /\ (depth t <= S (length tree))%nat) \/
  (check tree = OutOfBounds /\ one_past_end_child tree /\
   forall t, ~ represents tree 0%N t).
Proof.
  intros Hno Hmissing.
  destruct (check_not_thrown tree Hno) as [Hcheck | Hcheck]; [left | right].
  - split; [done|].
    apply check_Ok_inv in Hcheck as (_ & _ & v' & Hw).
    rewrite Forall_forall in Hmissing.
    assert (exists t, represents tree 0%N t /\
                      (depth t <= S (marks v' - marks (replicate (length tree)
                                                         false)))%nat)
      as (t & Hrep & Hd).
    { apply (check_cycles_budget tree
               (fun c k => exists t, represents tree c t /\
                                     (depth t <= S k)%nat))
        with (fuel := check_fuel tree) (v := replicate (length tree) false)
             (v' := v'); [| | |exact Hw].
      - intros c k k' (t & Hrep & Hd) Hk. exists t. split; [done | lia].
      - intros c node Hn Hf. exists (DLeaf (value node)).
        split; [by constructor | simpl; lia].
      - intros c node k Hn Hf (tl & Hl & Hdl) (tr & Hr & Hdr) _.
        destruct (Hmissing node (list_elem_of_lookup_2 _ _ _ Hn)) as [Hm | Hm].
        + exists (DNode (feature node) (value node) true tl tr).
          split; [by constructor | simpl; lia].
        + exists (DNode (feature node) (value node) false tl tr).
          split; [by constructor | simpl; lia]. }
    exists t. split; [done|].
    pose proof (marks_le_length v') as Hm.
    apply check_cycles_length in Hw. rewrite length_replicate in Hw. lia.
  - split; [done|]. split; [by apply check_OutOfBounds_child|].
    intros t Hrep.
    assert (tree <> []) as Hne by (intros ->; done).
    rewrite check_nonempty in Hcheck by done.
    destruct (check_indices_cases (N.of_nat (length tree)) tree)
      as [[Hi _] | [Hi _]]; rewrite Hi in Hcheck; cbn [bind] in Hcheck;
      [discriminate|].
    pose proof (represents_in_bounds (check_fuel tree) tree 0%N
                  (replicate (length tree) false) t Hrep
                  (length_replicate _ _)) as Hin.
    destruct (check_cycles _ tree 0%N _); cbn [bind] in Hcheck; done.
Qed.

Lemma checked_tree_represents_witness :
  not_thrown (check stump) /\
  Forall (fun node => missing node = yes node \/ missing node = no node)
    stump /\
  exists t, represents stump 0%N t /\ (depth t <= S (length stump))%nat.
Proof.
  assert (not_thrown (check stump)) as H1 by (intros e; discriminate).
  assert (Forall (fun node => missing node = yes node \/
                              missing node = no node) stump) as H2
    by (repeat constructor).
  split; [exact H1|]. split; [exact H2|].
  destruct (checked_tree_represents stump H1 H2) as [(_ & Ht) | (Hoob & _)];
    [exact Ht | discriminate Hoob].
Defined.
